(** * Tournament manager: bracket generation, match updates, leaderboard

    A shallow embedding of the domain core of [tournament_manager_app.jsx]
    (generators, [createTournament], [updateMatch], [adminAction],
    [setScore], [computeLeaderboard]) together with the properties the
    specification states about it. *)

From Stdlib Require Import String Ascii List ZArith Arith Lia Bool Permutation Sorted.
From Equations Require Import Equations.
Import ListNotations.
Open Scope string_scope.
Open Scope list_scope.

(** ** JavaScript values used by the program *)

(** An identifier slot holds a string or [null] ([None]).  JavaScript's
    truthiness test, as in [a.id && b.id] and [if (m.winner)], rejects both
    [null] and the empty string. *)
Definition truthy (v : option string) : bool :=
  match v with
  | Some s => negb (s =? "")
  | None => false
  end.

(** [x !== y] on identifier slots. *)
Definition id_neq (x y : option string) : bool :=
  match x, y with
  | Some a, Some b => negb (a =? b)
  | None, None => false
  | _, _ => true
  end.

(** Property-key coercion [String(v)], used by [players[p.id]]. *)
Definition key_of (v : option string) : string :=
  match v with
  | Some s => s
  | None => "null"
  end.

(** ** Data model *)

Module Player.
Record t : Type := mk { id : option string; name : string }.
End Player.

Module Match.
Record t : Type := mk {
  id : string;
  players : list Player.t;
  score : list Z;
  winner : option string;
  scheduledAt : option string;
  tournamentId : option string
}.
End Match.

Definition Round : Type := list Match.t.

(** The object [{ rounds, type }] a bracket generator returns. *)
Module Bracket.
Record t : Type := mk { rounds : list Round; type : string }.
End Bracket.

(** [base.meta]: an object whose keys [rounds], [type], [winners] and [losers]
    may each be absent. *)
Module Meta.
Record t : Type := mk {
  type : option string;
  rounds : option (list Round);
  winners : option (list Round);
  losers : option (list Round)
}.
Definition empty : t := mk None None None None.
End Meta.

Module Comment.
Record t : Type := mk { id : string; userId : option string; text : string; createdAt : string }.
End Comment.

Module Tournament.
Record t : Type := mk {
  id : string;
  title : string;
  type : string;
  organizerId : string;
  players : list Player.t;
  createdAt : string;
  scheduleMode : string;
  chat : list Comment.t;
  adminNotes : list string;
  matches : list Match.t;
  meta : Meta.t
}.
End Tournament.

(** The partial update object handed to [updateMatch]: a key is either absent
    ([None]) or present with a value, which for [winner] and [scheduledAt] may
    itself be [null]. *)
Record Update : Type := mkUpdate {
  u_score : option (list Z);
  u_winner : option (option string);
  u_scheduledAt : option (option string)
}.

(** [{ ...m, ...update }] *)
Definition apply_update (m : Match.t) (u : Update) : Match.t :=
  Match.mk (Match.id m) (Match.players m)
    (match u_score u with Some s => s | None => Match.score m end)
    (match u_winner u with Some w => w | None => Match.winner m end)
    (match u_scheduledAt u with Some a => a | None => Match.scheduledAt m end)
    (Match.tournamentId m).

(** ** Identifier generation

    [uid] draws from [Math.random]; the generators run in a state monad whose
    state counts the draws made so far, and [rnd k] is the base-36 suffix the
    [k]-th draw yields. *)

Definition Gen (A : Type) : Type := nat -> A * nat.

Definition ret {A} (a : A) : Gen A := fun k => (a, k).

Definition bind {A B} (c : Gen A) (f : A -> Gen B) : Gen B :=
  fun k => f (fst (c k)) (snd (c k)).

Notation "x <- c ;; f" := (bind c (fun x => f))
  (at level 61, c at next level, right associativity).

Fixpoint mapM {A B} (f : A -> Gen B) (l : list A) : Gen (list B) :=
  match l with
  | [] => ret []
  | a :: l' => b <- f a ;; bs <- mapM f l' ;; ret (b :: bs)
  end.

Section Generators.

Variable rnd : nat -> string.

(** The outcome of [[...players].sort(() => Math.random() - 0.5)]. *)
Variable shuffle : list Player.t -> list Player.t.

Definition uid (prefix : string) : Gen string :=
  fun k => (String.append prefix (String.append "_" (rnd k)), S k).

(** *** Single elimination *)

(** [[p1, p2].filter(Boolean)] *)
Definition filter_Boolean (ps : list (option Player.t)) : list Player.t :=
  flat_map (fun o => match o with Some p => [p] | None => [] end) ps.

Definition new_match (ps : list (option Player.t)) : Gen Match.t :=
  i <- uid "m" ;;
  ret (Match.mk i (filter_Boolean ps) [0%Z; 0%Z] None None None).

(** The slot objects of [currentRound]; only [players[0]] is ever read. *)
Definition first_slot (p : Player.t) : Gen Match.t :=
  i <- uid "m" ;; ret (Match.mk i [p] [] None None None).

Definition placeholder (_ : Match.t) : Gen Match.t :=
  i <- uid "r" ;; ret (Match.mk i [] [] None None None).

(** The [for (i = 0; i < currentRound.length; i += 2)] loop: slots [i] and
    [i + 1] are consumed together, the second one being [undefined] past the
    end. *)
Fixpoint pair_up (cur : list Match.t) : Gen (list Match.t) :=
  match cur with
  | [] => ret []
  | s1 :: tl =>
      let p1 := hd_error (Match.players s1) in
      match tl with
      | [] => m <- new_match [p1; None] ;; ret [m]
      | s2 :: rest =>
          m <- new_match [p1; hd_error (Match.players s2)] ;;
          ms <- pair_up rest ;;
          ret (m :: ms)
      end
  end.

Lemma length_mapM {A B} (f : A -> Gen B) (l : list A) (k : nat) :
  length (fst (mapM f l k)) = length l.
Proof.
  revert k; induction l as [|a l IH]; intros k; [reflexivity|].
  cbn [mapM]. unfold bind, ret. cbn [fst length]. now rewrite IH.
Qed.

Lemma length_pair_up (cur : list Match.t) (k : nat) :
  length (fst (pair_up cur k)) = Nat.div2 (S (length cur)).
Proof.
  assert (H : forall n (c : list Match.t) k', length c <= n ->
            length (fst (pair_up c k')) = Nat.div2 (S (length c)));
    [| now apply (H (length cur))].
  clear cur k. induction n as [|n IH]; intros cur k Hle.
  - destruct cur; [reflexivity | simpl in Hle; lia].
  - destruct cur as [|s1 [|s2 rest]]; try reflexivity.
    cbn [pair_up]. unfold bind, new_match, uid, ret. cbn [fst snd length].
    rewrite IH by (simpl in Hle; lia). reflexivity.
Qed.

(** One iteration of the [while] body: the round's matches, then the
    placeholder slots that become [currentRound]. *)
Definition round_step (cur : list Match.t) (k : nat) : Round * (list Match.t * nat) :=
  let r := pair_up cur k in
  (fst r, mapM placeholder (fst r) (snd r)).

Lemma length_round_step (cur : list Match.t) (k : nat) :
  length (fst (snd (round_step cur k))) = Nat.div2 (S (length cur)).
Proof. unfold round_step. cbn [fst snd]. now rewrite length_mapM, length_pair_up. Qed.

Definition push_round (r : Round) (x : list Round * nat) : list Round * nat :=
  (r :: fst x, snd x).

(** The [while (currentRound.length > 1)] loop. *)
Equations? rounds_loop (cur : list Match.t) (k : nat) : list Round * nat
  by wf (length cur) lt :=
rounds_loop cur k with le_lt_dec (length cur) 1 := {
  | left _ => ([], k)
  | right _ =>
      push_round (fst (round_step cur k))
        (rounds_loop (fst (snd (round_step cur k))) (snd (snd (round_step cur k)))) }.
Proof.
  rewrite length_mapM, length_pair_up.
  destruct (length cur) as [|[|n]]; try lia.
  change (Nat.div2 (S (S (S n)))) with (S (Nat.div2 (S n))).
  pose proof (Nat.div2_decr (S n) n (le_n _)). lia.
Qed.

Definition generateSingleElim (players : list Player.t) : Gen Bracket.t :=
  fun k =>
    let shuffled := shuffle players in
    let cur := mapM first_slot shuffled k in
    let r := rounds_loop (fst cur) (snd cur) in
    (Bracket.mk (fst r) "single", snd r).

(** *** Round robin *)

Definition BYE : Player.t := Player.mk None "BYE".

(** [p.pop()]: the removed last element, if any, and what is left. *)
Definition pop {A} (p : list A) : option A * list A :=
  match rev p with
  | [] => (None, [])
  | x :: r => (Some x, rev r)
  end.

(** [q.splice(1, 0, x)]: insert [x] at index 1, or at the end of a shorter
    array. *)
Definition splice1 {A} (x : A) (q : list A) : list A :=
  match q with
  | [] => [x]
  | a :: tl => a :: x :: tl
  end.

(** [p.splice(1, 0, p.pop())].  The loop runs it on arrays of at least two
    elements only, so the empty case is never reached. *)
Definition rotate {A} (p : list A) : list A :=
  match pop p with
  | (Some x, q) => splice1 x q
  | (None, q) => q
  end.

(** The inner [for (i = 0; i < n / 2; i++)] loop over the listed indices.
    Both reads are in range, because [p.length = n] throughout (see
    [rr_reads_in_range]); the last branch is therefore never taken. *)
Fixpoint rr_matches (p : list Player.t) (n : nat) (idx : list nat) : Gen (list Match.t) :=
  match idx with
  | [] => ret []
  | i :: idx' =>
      match nth_error p i, nth_error p (n - 1 - i) with
      | Some a, Some b =>
          if truthy (Player.id a) && truthy (Player.id b) then
            mid <- uid "m" ;;
            ms <- rr_matches p n idx' ;;
            ret (Match.mk mid [a; b] [0%Z; 0%Z] None None None :: ms)
          else rr_matches p n idx'
      | _, _ => rr_matches p n idx'
      end
  end.

(** The outer [for (r = 0; r < n - 1; r++)] loop, [cnt] rounds to go. *)
Fixpoint rr_rounds (cnt n : nat) (p : list Player.t) : Gen (list Round) :=
  match cnt with
  | 0 => ret []
  | S cnt' =>
      ms <- rr_matches p n (seq 0 (n / 2)) ;;
      rest <- rr_rounds cnt' n (rotate p) ;;
      ret (ms :: rest)
  end.

Definition generateRoundRobin (players : list Player.t) : Gen Bracket.t :=
  let p := if Nat.odd (length players) then players ++ [BYE] else players in
  let n := length p in
  rounds <- rr_rounds (n - 1) n p ;;
  ret (Bracket.mk rounds "roundrobin").

(** *** Double elimination (simplified) *)

(** [{ ...m, id: uid("l") }] *)
Definition clone_with_id (m : Match.t) : Gen Match.t :=
  i <- uid "l" ;;
  ret (Match.mk i (Match.players m) (Match.score m) (Match.winner m)
         (Match.scheduledAt m) (Match.tournamentId m)).

Definition generateDoubleElim (players : list Player.t) : Gen Meta.t :=
  single <- generateSingleElim players ;;
  losers <- mapM (mapM clone_with_id) (Bracket.rounds single) ;;
  ret (Meta.mk (Some "double") None (Some (Bracket.rounds single)) (Some losers)).

(** *** Tournament lifecycle *)

Definition with_tournamentId (tid : string) (m : Match.t) : Match.t :=
  Match.mk (Match.id m) (Match.players m) (Match.score m) (Match.winner m)
    (Match.scheduledAt m) (Some tid).

Definition opt_rounds (o : option (list Round)) : list Round :=
  match o with Some r => r | None => [] end.

(** [createTournament]; [now] is what [nowISO()] returns.  The result is the
    returned tournament together with the new stored collection
    [[base, ...s]]. *)
Definition createTournament (title type organizerId : string)
    (players : list Player.t) (scheduleMode now : string)
    (ts : list Tournament.t) : Gen (Tournament.t * list Tournament.t) :=
  tid <- uid "t" ;;
  let base matches meta :=
    Tournament.mk tid title type organizerId players now scheduleMode [] [] matches meta in
  t <- (if type =? "single" then
          b <- generateSingleElim players ;;
          ret (base (map (with_tournamentId tid) (concat (Bracket.rounds b)))
                    (Meta.mk None (Some (Bracket.rounds b)) None None))
        else if type =? "roundrobin" then
          b <- generateRoundRobin players ;;
          ret (base (concat (Bracket.rounds b))
                    (Meta.mk None (Some (Bracket.rounds b)) None None))
        else if type =? "double" then
          d <- generateDoubleElim players ;;
          ret (base (concat (opt_rounds (Meta.winners d)) ++ concat (opt_rounds (Meta.losers d))) d)
        else if type =? "league" then
          b <- generateRoundRobin players ;;
          ret (base (concat (Bracket.rounds b))
                    (Meta.mk None (Some (Bracket.rounds b)) None None))
        else ret (base [] Meta.empty)) ;;
  ret (t, t :: ts).

(** The [Create] button of [NewTournament], for a logged-in user whose id is
    [organizerId]; [names] is the list the player text area parses to. *)
Definition onCreate (title type organizerId : string) (names : list string)
    (scheduleMode now : string) (ts : list Tournament.t)
    : Gen (Tournament.t * list Tournament.t) :=
  players <- mapM (fun name => i <- uid "p" ;; ret (Player.mk (Some i) name)) names ;;
  createTournament (if title =? "" then "Untitled" else title) type organizerId
    players scheduleMode now ts.

End Generators.

(** [m.id === matchId ? { ...m, ...update } : m], mapped over a list. *)
Definition patch (matchId : string) (u : Update) (ms : list Match.t) : list Match.t :=
  map (fun m => if Match.id m =? matchId then apply_update m u else m) ms.

Definition set_matches (t : Tournament.t) (ms : list Match.t) : Tournament.t :=
  Tournament.mk (Tournament.id t) (Tournament.title t) (Tournament.type t)
    (Tournament.organizerId t) (Tournament.players t) (Tournament.createdAt t)
    (Tournament.scheduleMode t) (Tournament.chat t) (Tournament.adminNotes t)
    ms (Tournament.meta t).

Definition set_rounds (t : Tournament.t) (rs : list Round) : Tournament.t :=
  Tournament.mk (Tournament.id t) (Tournament.title t) (Tournament.type t)
    (Tournament.organizerId t) (Tournament.players t) (Tournament.createdAt t)
    (Tournament.scheduleMode t) (Tournament.chat t) (Tournament.adminNotes t)
    (Tournament.matches t)
    (Meta.mk (Meta.type (Tournament.meta t)) (Some rs)
       (Meta.winners (Tournament.meta t)) (Meta.losers (Tournament.meta t))).

Definition updateMatch (tournamentId matchId : string) (update : Update)
    (ts : list Tournament.t) : list Tournament.t :=
  map (fun t =>
         if negb (Tournament.id t =? tournamentId) then t
         else
           let newT := set_matches t (patch matchId update (Tournament.matches t)) in
           match Meta.rounds (Tournament.meta newT) with
           | Some rounds => set_rounds newT (map (patch matchId update) rounds)
           | None => newT
           end) ts.

(** The [payload] object of [adminAction]. *)
Record Payload : Type := mkPayload {
  matchIds : list string;
  scheduledAt : option string;
  playerId : option string
}.

Definition includes (ids : list string) (i : string) : bool :=
  existsb (fun j => j =? i) ids.

Definition set_scheduledAt (m : Match.t) (a : option string) : Match.t :=
  Match.mk (Match.id m) (Match.players m) (Match.score m) (Match.winner m) a
    (Match.tournamentId m).

(** The template literal: [null] prints as [null], an absent user id as
    [undefined]. *)
Definition audit_note (playerId currentUserId : option string) (now : string) : string :=
  String.append "Disqualified "
    (String.append (key_of playerId)
       (String.append " by "
          (String.append (match currentUserId with Some u => u | None => "undefined" end)
             (String.append " at " now)))).

Definition set_players_notes (t : Tournament.t) (ps : list Player.t)
    (notes : list string) : Tournament.t :=
  Tournament.mk (Tournament.id t) (Tournament.title t) (Tournament.type t)
    (Tournament.organizerId t) ps (Tournament.createdAt t)
    (Tournament.scheduleMode t) (Tournament.chat t) notes
    (Tournament.matches t) (Tournament.meta t).

(** [adminAction]; [currentUserId] is [currentUser?.id] and [now] what
    [nowISO()] returns. *)
Definition adminAction (currentUserId : option string) (now : string)
    (tournamentId action : string) (payload : Payload)
    (ts : list Tournament.t) : list Tournament.t :=
  map (fun t =>
         if negb (Tournament.id t =? tournamentId) then t
         else if action =? "reschedule" then
           set_matches t
             (map (fun m => if includes (matchIds payload) (Match.id m)
                            then set_scheduledAt m (scheduledAt payload) else m)
                (Tournament.matches t))
         else if action =? "disqualify" then
           set_players_notes t
             (filter (fun p => id_neq (Player.id p) (playerId payload)) (Tournament.players t))
             (Tournament.adminNotes t ++ [audit_note (playerId payload) currentUserId now])
         else t) ts.

Definition rescheduleMany (tournamentId : string) (ids : list string)
    (at_ : option string) (ts : list Tournament.t) : list Tournament.t :=
  adminAction None "" tournamentId "reschedule" (mkPayload ids at_ None) ts.

Definition disqualify (currentUserId : option string) (now : string)
    (tournamentId : string) (pid : option string) (ts : list Tournament.t)
    : list Tournament.t :=
  adminAction currentUserId now tournamentId "disqualify" (mkPayload [] None pid) ts.

(** [setScore] of the tournament view showing [t].  Reading [.id] of a
    missing player throws, which is [None] here. *)
Definition setScore (t : Tournament.t) (m : Match.t) (aScore bScore : Z)
    (ts : list Tournament.t) : option (list Tournament.t) :=
  let winner :=
    if (aScore =? bScore)%Z then Some None
    else option_map Player.id
           (nth_error (Match.players m) (if (aScore >? bScore)%Z then 0 else 1)) in
  option_map
    (fun w => updateMatch (Tournament.id t) (Match.id m)
                (mkUpdate (Some [aScore; bScore]) (Some w) None) ts)
    winner.

(** ** Leaderboard *)

Module Entry.
Record t : Type := mk {
  id : option string;
  name : string;
  wins : Z;
  losses : Z;
  points : Z
}.
End Entry.

(** The local object [players = {}]: its own properties in creation order.
    Being an ordinary object it also inherits the properties of
    [Object.prototype], see [inherited]. *)
Definition Board : Type := list (string * Entry.t).

(** The own property under [k], if there is one. *)
Fixpoint lookup (k : string) (b : Board) : option Entry.t :=
  match b with
  | [] => None
  | (k', e) :: b' => if k' =? k then Some e else lookup k b'
  end.

(** The property names of [Object.prototype].  Each of them holds a function
    or, for [__proto__], an object: reading [players[k]] for such a [k] that
    is not an own property gives a truthy value that accepts property
    writes. *)
Definition prototype_keys : list string :=
  [ "constructor"; "__defineGetter__"; "__defineSetter__"; "hasOwnProperty";
    "__lookupGetter__"; "__lookupSetter__"; "isPrototypeOf"; "propertyIsEnumerable";
    "toString"; "valueOf"; "__proto__"; "toLocaleString" ].

Definition inherited (k : string) : bool := existsb (String.eqb k) prototype_keys.

Arguments inherited k : simpl never.

(** [if (!players[p.id]) players[p.id] = { id, name, wins: 0, losses: 0, points: 0 }]:
    nothing is stored when [players[p.id]] is an own entry or an inherited
    property. *)
Definition register (b : Board) (p : Player.t) : Board :=
  match lookup (key_of (Player.id p)) b with
  | Some _ => b
  | None =>
      if inherited (key_of (Player.id p)) then b
      else b ++ [(key_of (Player.id p), Entry.mk (Player.id p) (Player.name p) 0 0 0)]
  end.

(** An in-place change of [players[k]], as in [players[k].wins++].  On an own
    entry it changes that entry.  When [k] is no own property but an inherited
    one, the write lands on the inherited object and [players] stays as it is;
    what is written there is [NaN], a falsy primitive, so that no later lookup
    on [players] is answered differently because of it.  Otherwise
    [players[k]] is [undefined] and the access raises the [TypeError] that
    [None] stands for. *)
Fixpoint modify (k : string) (f : Entry.t -> Entry.t) (b : Board) : option Board :=
  match b with
  | [] => if inherited k then Some [] else None
  | (k', e) :: b' =>
      if k' =? k then Some ((k', f e) :: b')
      else option_map (cons (k', e)) (modify k f b')
  end.

Definition wins_incr (e : Entry.t) : Entry.t :=
  Entry.mk (Entry.id e) (Entry.name e) (Entry.wins e + 1) (Entry.losses e) (Entry.points e).

Definition losses_incr (e : Entry.t) : Entry.t :=
  Entry.mk (Entry.id e) (Entry.name e) (Entry.wins e) (Entry.losses e + 1) (Entry.points e).

Definition points_add3 (e : Entry.t) : Entry.t :=
  Entry.mk (Entry.id e) (Entry.name e) (Entry.wins e) (Entry.losses e) (Entry.points e + 3).

Definition obind {A B} (o : option A) (f : A -> option B) : option B :=
  match o with
  | Some a => f a
  | None => None
  end.

(** [m.players.find((pp) => pp.id !== m.winner)] *)
Definition find_loser (m : Match.t) : option Player.t :=
  find (fun pp => id_neq (Player.id pp) (Match.winner m)) (Match.players m).

(** The body of [t.matches.forEach]. *)
Definition tally (b : Board) (m : Match.t) : option Board :=
  match Match.players m with
  | [] => Some b
  | _ :: _ =>
      if truthy (Match.winner m) then
        obind (modify (key_of (Match.winner m)) wins_incr b) (fun b1 =>
        obind (match find_loser m with
               | Some loser => modify (key_of (Player.id loser)) losses_incr b1
               | None => Some b1
               end) (fun b2 =>
        modify (key_of (Match.winner m)) points_add3 b2))
      else Some b
  end.

Fixpoint tally_all (b : Board) (ms : list Match.t) : option Board :=
  match ms with
  | [] => Some b
  | m :: ms' => obind (tally b m) (fun b' => tally_all b' ms')
  end.

(** The body of [tournaments.forEach]. *)
Definition visit (b : Board) (t : Tournament.t) : option Board :=
  tally_all (fold_left register (Tournament.players t) b) (Tournament.matches t).

Fixpoint visit_all (b : Board) (ts : list Tournament.t) : option Board :=
  match ts with
  | [] => Some b
  | t :: ts' => obind (visit b t) (fun b' => visit_all b' ts')
  end.

(** [(a, b) => b.points - a.points || b.wins - a.wins] *)
Definition compare_entries (a b : Entry.t) : Z :=
  let d := (Entry.points b - Entry.points a)%Z in
  if (d =? 0)%Z then (Entry.wins b - Entry.wins a)%Z else d.

(** [Array.prototype.sort] is stable; for a comparator that is a consistent
    ordering, its result is the one a stable insertion sort gives. *)
Fixpoint insert_entry (x : Entry.t) (l : list Entry.t) : list Entry.t :=
  match l with
  | [] => [x]
  | y :: l' =>
      if (compare_entries x y <=? 0)%Z then x :: y :: l'
      else y :: insert_entry x l'
  end.

Fixpoint sort_entries (l : list Entry.t) : list Entry.t :=
  match l with
  | [] => []
  | x :: l' => insert_entry x (sort_entries l')
  end.

(** The value of a decimal digit, and of a string of them. *)
Definition digit (c : ascii) : option N :=
  let n := N_of_ascii c in
  if ((48 <=? n) && (n <=? 57))%N then Some (n - 48)%N else None.

Fixpoint digits (acc : N) (s : string) : option N :=
  match s with
  | EmptyString => Some acc
  | String c s' =>
      match digit c with
      | Some d => digits (10 * acc + d)%N s'
      | None => None
      end
  end.

(** [k] is an array index: the canonical decimal numeral, without sign or
    leading zero, of an integer from 0 to 2^32 - 2. *)
Definition array_index (k : string) : option N :=
  match k with
  | EmptyString => None
  | String c rest =>
      if Ascii.eqb c "0" then
        match rest with EmptyString => Some 0%N | String _ _ => None end
      else
        match digits 0 k with
        | Some n => if (n <=? 4294967294)%N then Some n else None
        | None => None
        end
  end.

Fixpoint insert_index (x : N * Entry.t) (l : list (N * Entry.t)) : list (N * Entry.t) :=
  match l with
  | [] => [x]
  | y :: l' => if (fst x <=? fst y)%N then x :: y :: l' else y :: insert_index x l'
  end.

(** The entries under array-index keys, with their index, and the entries
    under the other keys. *)
Definition indexed (b : Board) : list (N * Entry.t) :=
  flat_map (fun x => match array_index (fst x) with
                     | Some n => [(n, snd x)]
                     | None => []
                     end) b.

Definition named (b : Board) : list Entry.t :=
  flat_map (fun x => match array_index (fst x) with
                     | Some _ => []
                     | None => [snd x]
                     end) b.

(** [Object.values(players)]: the values under array-index keys in ascending
    numeric order, then the others in creation order. *)
Definition Object_values (b : Board) : list Entry.t :=
  map snd (fold_right insert_index [] (indexed b)) ++ named b.

(** [computeLeaderboard]; [None] stands for the [TypeError] of a lookup that
    finds neither an own entry nor an inherited property. *)
Definition computeLeaderboard (tournaments : list Tournament.t) : option (list Entry.t) :=
  option_map (fun b => sort_entries (Object_values b)) (visit_all [] tournaments).

(** * Properties *)

(** ** Single elimination: number of rounds *)

Lemma log2_up_halve (L : nat) :
  2 <= L -> Nat.log2_up L = S (Nat.log2_up (Nat.div2 (S L))).
Proof.
  intros HL.
  destruct (Nat.Even_or_Odd L) as [[c Hc]|[c Hc]]; subst L.
  - rewrite Nat.div2_succ_double.
    destruct (Nat.eq_dec c 1) as [->|Hc1]; [reflexivity|].
    rewrite !Nat.log2_up_eqn by lia. f_equal.
    replace (Nat.pred (2 * c)) with (2 * (c - 1) + 1) by lia.
    rewrite Nat.log2_succ_double by lia. f_equal. f_equal. lia.
  - replace (S (2 * c + 1)) with (2 * (c + 1)) by lia. rewrite Nat.div2_double.
    rewrite !Nat.log2_up_eqn by lia. f_equal.
    replace (Nat.pred (2 * c + 1)) with (2 * c) by lia.
    rewrite Nat.log2_double by lia. f_equal. f_equal. lia.
Qed.

Lemma rounds_loop_length (rnd : nat -> string) (cur : list Match.t) (k : nat) :
  length (fst (rounds_loop rnd cur k)) = Nat.log2_up (Nat.max (length cur) 1).
Proof.
  funelim (rounds_loop rnd cur k).
  - destruct (length cur) as [|[|n]]; try lia; reflexivity.
  - unfold push_round. cbn [fst length].
    rewrite H, length_round_step.
    rewrite (Nat.max_l (length cur)) by lia.
    rewrite (log2_up_halve (length cur)) by lia. f_equal. f_equal.
    destruct (length cur) as [|[|n]]; try lia.
    apply Nat.max_l. cbn [Nat.div2]. lia.
Qed.

Lemma rounds_loop_last (rnd : nat -> string) (cur : list Match.t) (k : nat) :
  2 <= length cur -> exists m, last (fst (rounds_loop rnd cur k)) [] = [m].
Proof.
  funelim (rounds_loop rnd cur k); intros HL; [lia|].
  unfold push_round. cbn [fst].
  remember (round_step rnd cur k) as st eqn:Hst.
  assert (Hr : length (fst st) = Nat.div2 (S (length cur))).
  { subst st. unfold round_step. cbn [fst]. apply length_pair_up. }
  assert (Hn : length (fst (snd st)) = Nat.div2 (S (length cur))).
  { subst st. apply length_round_step. }
  destruct (le_lt_dec (Nat.div2 (S (length cur))) 1) as [Hsmall|Hbig].
  - assert (Hnil : fst (rounds_loop rnd (fst (snd st)) (snd (snd st))) = []).
    { apply length_zero_iff_nil. rewrite rounds_loop_length, Hn.
      destruct (Nat.div2 (S (length cur))) as [|[|n]]; try lia; reflexivity. }
    rewrite Hnil. cbn [last].
    assert (Hone : length (fst st) = 1).
    { rewrite Hr. destruct (length cur) as [|[|n]]; try lia.
      cbn [Nat.div2] in *. lia. }
    destruct (fst st) as [|m [|m' r]]; try discriminate. now exists m.
  - destruct (H ltac:(lia)) as [m Hm]. exists m.
    destruct (fst (rounds_loop rnd (fst (snd st)) (snd (snd st)))) as [|r0 rs] eqn:E.
    + discriminate.
    + exact Hm.
Qed.

(** C2. For a list of N players the single-elimination generator returns
    exactly ceil(log2(max(N,1))) rounds (none for N = 0 or N = 1), and for
    N >= 2 the last returned round holds exactly one match.  [shuffle] is any
    reordering of its argument. *)
Theorem generateSingleElim_round_count
    (rnd : nat -> string) (shuffle : list Player.t -> list Player.t)
    (shuffle_perm : forall l, Permutation l (shuffle l))
    (players : list Player.t) (k : nat) :
  let rounds := Bracket.rounds (fst (generateSingleElim rnd shuffle players k)) in
  length rounds = Nat.log2_up (Nat.max (length players) 1) /\
  (length players <= 1 -> rounds = []) /\
  (2 <= length players -> exists m, last rounds [] = [m]).
Proof.
  cbn zeta. unfold generateSingleElim. cbn [fst Bracket.rounds].
  assert (Hlen : length (fst (mapM (first_slot rnd) (shuffle players) k)) = length players).
  { rewrite length_mapM. symmetry. apply Permutation_length, shuffle_perm. }
  split; [|split].
  - now rewrite rounds_loop_length, Hlen.
  - intros Hle. apply length_zero_iff_nil. rewrite rounds_loop_length, Hlen.
    destruct (length players) as [|[|n]]; try lia; reflexivity.
  - intros Hge. apply rounds_loop_last. now rewrite Hlen.
Qed.

Definition demo_rnd (k : nat) : string := string_of_list_ascii (repeat "a"%char (S k)).

Definition alice : Player.t := Player.mk (Some "p_alice") "Alice".
Definition bob : Player.t := Player.mk (Some "p_bob") "Bob".
Definition carol : Player.t := Player.mk (Some "p_carol") "Carol".

Lemma generateSingleElim_round_count_witness :
  let rounds := Bracket.rounds (fst (generateSingleElim demo_rnd (fun l => l) [alice; bob; carol] 0)) in
  length rounds = Nat.log2_up (Nat.max 3 1) /\
  (3 <= 1 -> rounds = []) /\
  (2 <= 3 -> exists m, last rounds [] = [m]).
Proof.
  exact (generateSingleElim_round_count demo_rnd (fun l => l)
           (fun l => Permutation_refl l) [alice; bob; carol] 0).
Defined.

(** ** Double elimination: the losers bracket mirrors the winners bracket *)

(** [l] is [{ ...w, id: ... }]: every field but the identifier is the one of
    [w]. *)
Definition clone_of (w l : Match.t) : Prop :=
  Match.players l = Match.players w /\
  Match.score l = Match.score w /\
  Match.winner l = Match.winner w /\
  Match.scheduledAt l = Match.scheduledAt w /\
  Match.tournamentId l = Match.tournamentId w.

(** The identifiers [ids] are the results of consecutive [uid(prefix)] calls
    starting with draw number [k]. *)
Definition drawn (rnd : nat -> string) (prefix : string) (k : nat) (ids : list string) : Prop :=
  ids = map (fun j => fst (uid rnd prefix j)) (seq k (length ids)).

Section MapM.
Context {A B : Type} (f : A -> Gen B).

Lemma mapM_Forall2 (R : A -> B -> Prop) :
  (forall a k, R a (fst (f a k))) ->
  forall l k, Forall2 R l (fst (mapM f l k)).
Proof.
  intros HR l. induction l as [|a l IH]; intros k; cbn [mapM]; unfold bind, ret;
    cbn [fst]; constructor; auto.
Qed.

Lemma mapM_Forall (P : B -> Prop) :
  (forall a k, P (fst (f a k))) ->
  forall l k, Forall P (fst (mapM f l k)).
Proof.
  intros HP l. induction l as [|a l IH]; intros k; cbn [mapM]; unfold bind, ret;
    cbn [fst]; constructor; auto.
Qed.
End MapM.

Lemma clone_rounds_shape (rnd : nat -> string) (ws : list Round) (k : nat) :
  Forall2 (Forall2 clone_of) ws (fst (mapM (mapM (clone_with_id rnd)) ws k)).
Proof.
  apply mapM_Forall2. intros r k'. apply mapM_Forall2. intros m k''.
  unfold clone_with_id, bind, ret, clone_of. cbn. tauto.
Qed.

Lemma clone_round_ids (rnd : nat -> string) (r : Round) (k : nat) :
  map Match.id (fst (mapM (clone_with_id rnd) r k)) =
    map (fun j => fst (uid rnd "l" j)) (seq k (length r)) /\
  snd (mapM (clone_with_id rnd) r k) = k + length r.
Proof.
  revert k. induction r as [|m r IH]; intros k.
  - cbn. split; [reflexivity | lia].
  - cbn [mapM]. unfold bind, ret. cbn [fst snd map length seq].
    destruct (IH (snd (clone_with_id rnd m k))) as [IH1 IH2].
    rewrite IH1, IH2. unfold clone_with_id, bind, ret, uid. cbn [fst snd Match.id].
    split; [reflexivity | lia].
Qed.

Lemma clone_rounds_ids (rnd : nat -> string) (ws : list Round) (k : nat) :
  map Match.id (concat (fst (mapM (mapM (clone_with_id rnd)) ws k))) =
    map (fun j => fst (uid rnd "l" j)) (seq k (length (concat ws))).
Proof.
  revert k. induction ws as [|r ws IH]; intros k; [reflexivity|].
  cbn [mapM]. unfold bind, ret. cbn [fst snd concat].
  rewrite map_app, length_app, seq_app, map_app.
  destruct (clone_round_ids rnd r k) as [H1 H2].
  now rewrite IH, H1, H2.
Qed.

Lemma Forall2_map_length {A B} (R : A -> B -> Prop) (xs : list (list A)) (ys : list (list B)) :
  Forall2 (Forall2 R) xs ys -> map (@length B) ys = map (@length A) xs.
Proof.
  induction 1 as [|x y xs ys Hxy _ IH]; [reflexivity|].
  cbn. f_equal; [symmetry; eapply Forall2_length; eauto | exact IH].
Qed.

Lemma Forall2_concat {A B} (R : A -> B -> Prop) (xs : list (list A)) (ys : list (list B)) :
  Forall2 (Forall2 R) xs ys -> Forall2 R (concat xs) (concat ys).
Proof.
  induction 1 as [|x y xs ys Hxy _ IH]; [constructor|].
  cbn. now apply Forall2_app.
Qed.

Lemma Forall2_In_r {A B} (R : A -> B -> Prop) (xs : list A) (ys : list B) (y : B) :
  Forall2 R xs ys -> In y ys -> exists x, In x xs /\ R x y.
Proof.
  induction 1 as [|x y' xs ys Hxy _ IH]; intros Hin; [contradiction|].
  destruct Hin as [->|Hin].
  - exists x. split; [now left | assumption].
  - destruct (IH Hin) as [x' [Hx' Hr]]. exists x'. split; [now right | assumption].
Qed.

(** Every match of a single-elimination bracket is created by [new_match]:
    its identifier comes from [uid("m")] and no result is recorded. *)
Definition made_by_new_match (rnd : nat -> string) (m : Match.t) : Prop :=
  (exists j, Match.id m = fst (uid rnd "m" j)) /\ Match.winner m = None.

Lemma pair_up_made (rnd : nat -> string) (cur : list Match.t) (k : nat) :
  Forall (made_by_new_match rnd) (fst (pair_up rnd cur k)).
Proof.
  assert (H : forall n (c : list Match.t) k', length c <= n ->
            Forall (made_by_new_match rnd) (fst (pair_up rnd c k')));
    [| now apply (H (length cur))].
  clear. induction n as [|n IH]; intros cur k Hle.
  - destruct cur; [constructor | simpl in Hle; lia].
  - destruct cur as [|s1 [|s2 rest]]; [constructor| |].
    + cbn. constructor; [|constructor]. split; [now exists k | reflexivity].
    + cbn [pair_up]. unfold bind, ret. cbn [fst snd]. constructor.
      * split; [now exists k | reflexivity].
      * apply IH. simpl in Hle. lia.
Qed.

Lemma rounds_loop_made (rnd : nat -> string) (cur : list Match.t) (k : nat) :
  Forall (made_by_new_match rnd) (concat (fst (rounds_loop rnd cur k))).
Proof.
  funelim (rounds_loop rnd cur k); [constructor|].
  unfold push_round. cbn [fst concat]. apply Forall_app. split; [|assumption].
  unfold round_step. cbn [fst]. apply pair_up_made.
Qed.

(** C8. The double-elimination generator returns as winners bracket the rounds
    of the single-elimination generator, and a losers bracket with the same
    number of rounds and of matches per round, each losers match being the
    winners match at the same place with only its identifier replaced by the
    next [uid("l")] draw; these identifiers differ from every winners-bracket
    identifier, and as no match of either bracket has a recorded winner, no
    loser of the winners bracket is placed anywhere. *)
Theorem generateDoubleElim_losers_mirror_winners
    (rnd : nat -> string) (shuffle : list Player.t -> list Player.t)
    (players : list Player.t) (k : nat) :
  let single := generateSingleElim rnd shuffle players k in
  let winners := Bracket.rounds (fst single) in
  let d := fst (generateDoubleElim rnd shuffle players k) in
  Meta.winners d = Some winners /\
  exists losers,
    Meta.losers d = Some losers /\
    length losers = length winners /\
    map (@length Match.t) losers = map (@length Match.t) winners /\
    Forall2 (Forall2 clone_of) winners losers /\
    drawn rnd "l" (snd single) (map Match.id (concat losers)) /\
    (forall w l, In w (concat winners) -> In l (concat losers) ->
                 Match.id l <> Match.id w) /\
    (forall m, In m (concat winners ++ concat losers) -> Match.winner m = None).
Proof.
  cbn zeta. unfold generateDoubleElim, bind, ret.
  cbn [fst snd Meta.winners Meta.losers].
  set (single := generateSingleElim rnd shuffle players k).
  set (winners := Bracket.rounds (fst single)).
  set (losers := fst (mapM (mapM (clone_with_id rnd)) winners (snd single))).
  assert (Hshape : Forall2 (Forall2 clone_of) winners losers)
    by apply clone_rounds_shape.
  assert (Hids : map Match.id (concat losers) =
                 map (fun j => fst (uid rnd "l" j)) (seq (snd single) (length (concat winners))))
    by apply clone_rounds_ids.
  assert (Hmade : Forall (made_by_new_match rnd) (concat winners)).
  { subst winners single. unfold generateSingleElim. cbn [fst Bracket.rounds].
    apply rounds_loop_made. }
  split; [reflexivity|]. exists losers.
  split; [reflexivity|].
  split; [symmetry; eapply Forall2_length; eauto|].
  split; [eapply Forall2_map_length; eauto|].
  split; [assumption|].
  split.
  { unfold drawn. rewrite Hids. now rewrite length_map, length_seq. }
  split.
  - intros w l Hw Hl Heq.
    rewrite Forall_forall in Hmade. destruct (Hmade w Hw) as [[j Hj] _].
    apply (in_map Match.id) in Hl. rewrite Hids in Hl.
    apply in_map_iff in Hl. destruct Hl as [j' [Hj' _]].
    rewrite Hj, <- Hj' in Heq. unfold uid in Heq. cbn in Heq. discriminate.
  - intros m Hm. apply in_app_or in Hm. rewrite Forall_forall in Hmade.
    destruct Hm as [Hm|Hm]; [apply Hmade, Hm|].
    apply Forall2_concat in Hshape.
    destruct (Forall2_In_r _ _ _ m Hshape Hm) as [w [Hw Hc]].
    destruct Hc as (_ & _ & Hwin & _). rewrite Hwin. apply Hmade, Hw.
Qed.

(** ** Lists *)

Lemma NoDup_snoc {A} (l : list A) (x : A) : NoDup l -> ~ In x l -> NoDup (l ++ [x]).
Proof.
  induction l as [|a l IH]; cbn; intros Hnd Hx.
  - constructor; [tauto | constructor].
  - inversion Hnd as [|? ? Ha Hl]; subst. constructor.
    + rewrite in_app_iff. cbn. intuition congruence.
    + apply IH; tauto.
Qed.

(** ** Identifier comparison *)

Lemma option_eq_dec_str (x y : option string) : {x = y} + {x <> y}.
Proof. decide equality. apply string_dec. Defined.

Lemma id_neq_spec (x y : option string) : id_neq x y = true <-> x <> y.
Proof.
  destruct x as [a|], y as [b|]; cbn; try (split; [discriminate | reflexivity]).
  - rewrite negb_true_iff, String.eqb_neq. split; [congruence|].
    intros H Hab. apply H. now subst.
  - split; [discriminate | intros H; now destruct H].
Qed.

Definition opt_eqb (x y : option string) : bool := negb (id_neq x y).

Lemma opt_eqb_true (x y : option string) : opt_eqb x y = true <-> x = y.
Proof.
  unfold opt_eqb. rewrite negb_true_iff. pose proof (id_neq_spec x y) as H.
  destruct (id_neq x y); split; intros H'; try discriminate; try reflexivity.
  - exfalso. now apply (proj1 H).
  - destruct (option_eq_dec_str x y) as [Heq|Hne]; [exact Heq|].
    apply H in Hne. discriminate.
Qed.

(** ** Round robin: the circle method *)

(** *** One rotation *)

Lemma pop_snoc {A} (q : list A) (x : A) : pop (q ++ [x]) = (Some x, q).
Proof. unfold pop. rewrite rev_app_distr. cbn. now rewrite rev_involutive. Qed.

Lemma rotate_snoc {A} (a : A) (q : list A) (x : A) :
  rotate (a :: q ++ [x]) = a :: x :: q.
Proof. unfold rotate. now rewrite app_comm_cons, pop_snoc. Qed.

(** An array of at least two elements is [a :: q ++ [x]]. *)
Lemma two_or_more {A} (p : list A) :
  2 <= length p -> exists a q x, p = a :: q ++ [x].
Proof.
  destruct p as [|a tl]; cbn; [lia|]. intros H.
  destruct (exists_last (l := tl)) as [q [x ->]]; [destruct tl; cbn in H; [lia | discriminate]|].
  now exists a, q, x.
Qed.

Lemma rotate_length {A} (p : list A) : 2 <= length p -> length (rotate p) = length p.
Proof.
  intros H. destruct (two_or_more p H) as (a & q & x & ->).
  rewrite rotate_snoc. cbn. rewrite length_app. cbn. lia.
Qed.

Lemma rotate_perm {A} (p : list A) : 2 <= length p -> Permutation p (rotate p).
Proof.
  intros H. destruct (two_or_more p H) as (a & q & x & ->).
  rewrite rotate_snoc. constructor. symmetry. apply Permutation_cons_append.
Qed.

(** Where the element at index [j] stands after one rotation of an array of
    [m + 1] elements: index 0 stays, the last index goes to 1, every other
    index moves up by one. *)
Definition step (m j : nat) : nat :=
  if Nat.eqb j 0 then 0 else if Nat.eqb j m then 1 else S j.

Lemma rotate_nth {A} (p : list A) (m j : nat) :
  length p = S m -> 1 <= m -> j <= m ->
  nth_error (rotate p) (step m j) = nth_error p j.
Proof.
  intros Hlen Hm Hj.
  destruct (two_or_more p ltac:(lia)) as (a & q & x & ->).
  rewrite rotate_snoc. cbn in Hlen. rewrite length_app in Hlen. cbn in Hlen.
  assert (Hq : length q = m - 1) by lia.
  unfold step. destruct (Nat.eqb_spec j 0) as [->|Hj0]; [reflexivity|].
  destruct j as [|j]; [contradiction|]. cbn [nth_error].
  destruct (Nat.eqb_spec (S j) m) as [Hjm|Hjm].
  - cbn [nth_error]. rewrite nth_error_app2 by lia.
    replace (j - length q) with 0 by lia. reflexivity.
  - cbn [nth_error]. rewrite nth_error_app1 by lia. reflexivity.
Qed.

Lemma step_bound (m j : nat) : 1 <= m -> j <= m -> step m j <= m.
Proof.
  intros Hm Hj. unfold step.
  destruct (Nat.eqb_spec j 0); [lia|]. destruct (Nat.eqb_spec j m); lia.
Qed.

(** *** Iterated rotations *)

(** The array the round of number [r] reads. *)
Definition lineup {A} (r : nat) (p : list A) : list A := Nat.iter r rotate p.

(** The index, in that array, of the element that started at index [x]. *)
Definition pos (m r x : nat) : nat := Nat.iter r (step m) x.

Lemma lineup_succ {A} (r : nat) (p : list A) : lineup (S r) p = rotate (lineup r p).
Proof. reflexivity. Qed.

Lemma pos_succ (m r x : nat) : pos m (S r) x = step m (pos m r x).
Proof. reflexivity. Qed.

Lemma lineup_length {A} (r : nat) (p : list A) :
  2 <= length p -> length (lineup r p) = length p.
Proof.
  intros H. induction r as [|r IH]; [reflexivity|].
  rewrite lineup_succ, rotate_length; lia.
Qed.

Lemma lineup_perm {A} (r : nat) (p : list A) :
  2 <= length p -> Permutation p (lineup r p).
Proof.
  intros H. induction r as [|r IH]; [reflexivity|].
  rewrite lineup_succ. rewrite IH at 1. apply rotate_perm.
  rewrite lineup_length; lia.
Qed.

Lemma pos_bound (m r x : nat) : 1 <= m -> x <= m -> pos m r x <= m.
Proof.
  intros Hm Hx. induction r as [|r IH]; [exact Hx|].
  rewrite pos_succ. now apply step_bound.
Qed.

Lemma lineup_nth {A} (p : list A) (m r x : nat) :
  length p = S m -> 1 <= m -> x <= m ->
  nth_error (lineup r p) (pos m r x) = nth_error p x.
Proof.
  intros Hlen Hm Hx. induction r as [|r IH]; [reflexivity|].
  rewrite lineup_succ, pos_succ.
  rewrite rotate_nth; [exact IH| |exact Hm|].
  - rewrite lineup_length; lia.
  - now apply pos_bound.
Qed.

Lemma pos_anchor (m r : nat) : pos m r 0 = 0.
Proof. induction r as [|r IH]; [reflexivity|]. now rewrite pos_succ, IH. Qed.

(** During the [m] rounds played, the rotating elements go round the cycle
    [1..m] less than twice. *)
Lemma pos_closed (m r x : nat) :
  1 <= x <= m -> r < m ->
  pos m r x = if Nat.ltb (x - 1 + r) m then x + r else x + r - m.
Proof.
  intros Hx. induction r as [|r IH]; intros Hr.
  - change (pos m 0 x) with x. destruct (Nat.ltb_spec (x - 1 + 0) m); lia.
  - rewrite pos_succ, IH by lia. unfold step.
    destruct (Nat.ltb_spec (x - 1 + r) m), (Nat.ltb_spec (x - 1 + S r) m);
      repeat match goal with
             | |- context [Nat.eqb ?a ?b] => destruct (Nat.eqb_spec a b)
             end; lia.
Qed.

(** *** Who meets whom

    With [m = 2h - 1] rounds, two elements meet in the round where their
    indices add up to [m]; that happens in exactly one round. *)
Lemma meet_once (h x y : nat) :
  x < y -> y <= 2 * h - 1 ->
  exists r, r < 2 * h - 1 /\
            pos (2 * h - 1) r x + pos (2 * h - 1) r y = 2 * h - 1 /\
            forall r', r' < 2 * h - 1 ->
                       pos (2 * h - 1) r' x + pos (2 * h - 1) r' y = 2 * h - 1 ->
                       r' = r.
Proof.
  intros Hxy Hy. set (m := 2 * h - 1) in *.
  assert (Hposy : forall r, r < m ->
            pos m r y = if Nat.ltb (y - 1 + r) m then y + r else y + r - m).
  { intros r Hr. apply pos_closed; lia. }
  destruct (Nat.eq_dec x 0) as [->|Hx0].
  - (* the anchor meets [y] when [y] stands last *)
    exists (m - y). split; [lia|]. split.
    + rewrite pos_anchor, Hposy by lia.
      destruct (Nat.ltb_spec (y - 1 + (m - y)) m); lia.
    + intros r' Hr'. rewrite pos_anchor, Hposy by lia.
      destruct (Nat.ltb_spec (y - 1 + r') m); lia.
  - assert (Hposx : forall r, r < m ->
              pos m r x = if Nat.ltb (x - 1 + r) m then x + r else x + r - m).
    { intros r Hr. apply pos_closed; lia. }
    (* both rotate; the round is fixed by the parity and the size of [x + y] *)
    assert (Hr : exists r, r < m /\
               ((x + y + 2 * r = m) \/ (x + y + 2 * r = 2 * m) \/ (x + y + 2 * r = 3 * m))).
    { destruct (Nat.Even_or_Odd (x + y)) as [[c Hc]|[c Hc]].
      - exists (m - c). lia.
      - destruct (le_lt_dec (x + y) m).
        + exists (h - 1 - c). lia.
        + exists (3 * h - 2 - c). lia. }
    destruct Hr as [r [Hrm Hr]]. exists r. split; [exact Hrm|]. split.
    + rewrite Hposx, Hposy by lia.
      destruct (Nat.ltb_spec (x - 1 + r) m), (Nat.ltb_spec (y - 1 + r) m); lia.
    + intros r' Hr'. rewrite Hposx, Hposy by lia.
      destruct (Nat.ltb_spec (x - 1 + r') m), (Nat.ltb_spec (y - 1 + r') m); lia.
Qed.

(** *** The rounds as the code builds them *)

(** The pairing of index [i] in the array [p]: the pair of players, unless
    one of them is the bye marker. *)
Definition pairing (p : list Player.t) (n i : nat) : list (list Player.t) :=
  match nth_error p i, nth_error p (n - 1 - i) with
  | Some a, Some b =>
      if truthy (Player.id a) && truthy (Player.id b) then [[a; b]] else []
  | _, _ => []
  end.

Definition round_lineups (p : list Player.t) (n : nat) (idx : list nat) : list (list Player.t) :=
  flat_map (pairing p n) idx.

Lemma rr_matches_players (rnd : nat -> string) (p : list Player.t) (n : nat)
    (idx : list nat) (k : nat) :
  map Match.players (fst (rr_matches rnd p n idx k)) = round_lineups p n idx.
Proof.
  revert k. induction idx as [|i idx IH]; intros k; [reflexivity|].
  cbn [rr_matches round_lineups flat_map]. unfold pairing at 1.
  destruct (nth_error p i) as [a|]; [|apply IH].
  destruct (nth_error p (n - 1 - i)) as [b|]; [|apply IH].
  destruct (truthy (Player.id a) && truthy (Player.id b)); [|apply IH].
  unfold bind, ret. cbn [fst snd map Match.players app]. f_equal. apply IH.
Qed.

Lemma lineup_rotate {A} (r : nat) (p : list A) : lineup r (rotate p) = lineup (S r) p.
Proof. unfold lineup. symmetry. apply Nat.iter_succ_r. Qed.

Lemma rr_rounds_players (rnd : nat -> string) (cnt n : nat) (p : list Player.t) (k : nat) :
  map (map Match.players) (fst (rr_rounds rnd cnt n p k)) =
  map (fun r => round_lineups (lineup r p) n (seq 0 (n / 2))) (seq 0 cnt).
Proof.
  revert p k. induction cnt as [|cnt IH]; intros p k; [reflexivity|].
  cbn [rr_rounds]. unfold bind, ret. cbn [fst snd map seq].
  rewrite rr_matches_players, IH. f_equal.
  rewrite <- seq_shift, map_map. apply map_ext. intros r. now rewrite lineup_rotate.
Qed.

(** In every round both reads of every pairing are in range. *)
Lemma rr_reads_in_range (p : list Player.t) (n r i : nat) :
  length p = n -> 2 <= n -> i < n / 2 ->
  i < length (lineup r p) /\ n - 1 - i < length (lineup r p).
Proof.
  intros Hlen Hn Hi. rewrite lineup_length by lia.
  pose proof (Nat.Div0.mul_div_le n 2). lia.
Qed.

(** *** Counting the meetings of two players *)

Definition player_eqb (p q : Player.t) : bool :=
  opt_eqb (Player.id p) (Player.id q) && (Player.name p =? Player.name q).

Lemma player_eqb_true (p q : Player.t) : player_eqb p q = true <-> p = q.
Proof.
  unfold player_eqb. rewrite andb_true_iff, opt_eqb_true, String.eqb_eq.
  destruct p, q; cbn. split; [intros [-> ->]; reflexivity | intros [= -> ->]; tauto].
Qed.

(** The two players of a lineup are [a] and [b], in either order. *)
Definition meets (a b : Player.t) (ps : list Player.t) : bool :=
  match ps with
  | [x; y] => (player_eqb x a && player_eqb y b) || (player_eqb x b && player_eqb y a)
  | _ => false
  end.

Definition plays (a b : Player.t) (m : Match.t) : bool := meets a b (Match.players m).

Lemma meets_true (a b x y : Player.t) :
  meets a b [x; y] = true <-> (x = a /\ y = b) \/ (x = b /\ y = a).
Proof.
  cbn. now rewrite orb_true_iff, !andb_true_iff, !player_eqb_true.
Qed.

Lemma count_plays (a b : Player.t) (ms : list Match.t) :
  length (filter (plays a b) ms) = length (filter (meets a b) (map Match.players ms)).
Proof.
  induction ms as [|m ms IH]; [reflexivity|]. cbn [filter map]. unfold plays at 1.
  destruct (meets a b (Match.players m)); cbn [length]; now rewrite IH.
Qed.

Lemma filter_flat_map_nil {A B} (f : B -> bool) (g : A -> list B) (l : list A) :
  (forall x, In x l -> filter f (g x) = []) -> filter f (flat_map g l) = [].
Proof.
  induction l as [|x l IH]; intros H; [reflexivity|].
  cbn. rewrite filter_app, (H x (or_introl eq_refl)), IH; [reflexivity|].
  intros y Hy. apply H. now right.
Qed.

(** If exactly one element of a duplicate-free list contributes a hit, and
    contributes one, the whole has one hit. *)
Lemma filter_flat_map_one {A B} (f : B -> bool) (g : A -> list B) (l : list A) (x0 : A) :
  NoDup l -> In x0 l ->
  length (filter f (g x0)) = 1 ->
  (forall x, In x l -> x <> x0 -> filter f (g x) = []) ->
  length (filter f (flat_map g l)) = 1.
Proof.
  induction l as [|x l IH]; intros Hnd Hin H1 H0; [contradiction|].
  inversion Hnd as [|? ? Hx Hl]; subst. cbn. rewrite filter_app, length_app.
  destruct Hin as [->|Hin].
  - rewrite H1, filter_flat_map_nil; [reflexivity|].
    intros y Hy. apply H0; [now right|]. intros ->. contradiction.
  - rewrite (H0 x (or_introl eq_refl)) by (intros ->; contradiction).
    cbn. apply IH; auto. intros y Hy. apply H0. now right.
Qed.

Section OneRound.

(** The array [P] of one round: [2h] distinct players, [a] at index [pa] and
    [b] at index [pb], both real. *)
Variables (P : list Player.t) (h : nat) (a b : Player.t) (pa pb : nat).
Hypothesis P_nodup : NoDup P.
Hypothesis P_length : length P = 2 * h.
Hypothesis a_at : nth_error P pa = Some a.
Hypothesis b_at : nth_error P pb = Some b.
Hypothesis a_real : truthy (Player.id a) = true.
Hypothesis b_real : truthy (Player.id b) = true.

Lemma index_unique (i j : nat) (z : Player.t) :
  nth_error P i = Some z -> nth_error P j = Some z -> i = j.
Proof.
  intros Hi Hj. apply (proj1 (NoDup_nth_error P) P_nodup).
  - apply nth_error_Some. congruence.
  - congruence.
Qed.

Lemma pairing_hit (i : nat) :
  (i = pa /\ 2 * h - 1 - i = pb) \/ (i = pb /\ 2 * h - 1 - i = pa) ->
  length (filter (meets a b) (pairing P (2 * h) i)) = 1.
Proof.
  unfold pairing. intros [[-> Hb]|[-> Ha]].
  - rewrite Hb, a_at, b_at, a_real, b_real. cbn [andb filter].
    now rewrite (proj2 (meets_true a b a b)) by tauto.
  - rewrite Ha, a_at, b_at, a_real, b_real. cbn [andb filter].
    now rewrite (proj2 (meets_true a b b a)) by tauto.
Qed.

Lemma pairing_miss (i : nat) :
  ~ ((i = pa /\ 2 * h - 1 - i = pb) \/ (i = pb /\ 2 * h - 1 - i = pa)) ->
  filter (meets a b) (pairing P (2 * h) i) = [].
Proof.
  unfold pairing. intros Hno.
  destruct (nth_error P i) as [x|] eqn:Hx; [|reflexivity].
  destruct (nth_error P (2 * h - 1 - i)) as [y|] eqn:Hy; [|reflexivity].
  destruct (truthy (Player.id x) && truthy (Player.id y)); [|reflexivity].
  cbn [filter]. destruct (meets a b [x; y]) eqn:E; [|reflexivity].
  exfalso. apply Hno. apply meets_true in E. destruct E as [[-> ->]|[-> ->]].
  - left. split; eapply index_unique; eauto.
  - right. split; eapply index_unique; eauto.
Qed.

Lemma round_meets_one :
  pa + pb = 2 * h - 1 ->
  length (filter (meets a b) (round_lineups P (2 * h) (seq 0 h))) = 1.
Proof.
  intros Hsum. unfold round_lineups.
  assert (pa < 2 * h) by (rewrite <- P_length; apply nth_error_Some; congruence).
  assert (pb < 2 * h) by (rewrite <- P_length; apply nth_error_Some; congruence).
  apply (filter_flat_map_one _ _ _ (Nat.min pa pb)).
  - apply seq_NoDup.
  - apply in_seq. lia.
  - apply pairing_hit. lia.
  - intros i Hi Hne. apply pairing_miss. apply in_seq in Hi. lia.
Qed.

Lemma round_meets_none :
  pa + pb <> 2 * h - 1 ->
  filter (meets a b) (round_lineups P (2 * h) (seq 0 h)) = [].
Proof.
  intros Hsum. unfold round_lineups. apply filter_flat_map_nil.
  intros i Hi. apply pairing_miss. apply in_seq in Hi.
  assert (pa < 2 * h) by (rewrite <- P_length; apply nth_error_Some; congruence).
  assert (pb < 2 * h) by (rewrite <- P_length; apply nth_error_Some; congruence).
  lia.
Qed.

End OneRound.

(** *** Nobody plays twice in a round *)

Lemma In_round_lineups (P : list Player.t) (n : nat) (idx : list nat) (z : Player.t) :
  In z (concat (round_lineups P n idx)) ->
  exists j, In j idx /\ (nth_error P j = Some z \/ nth_error P (n - 1 - j) = Some z).
Proof.
  unfold round_lineups. induction idx as [|i idx IH]; cbn; [contradiction|].
  rewrite concat_app, in_app_iff. intros [Hz|Hz].
  - exists i. split; [now left|]. unfold pairing in Hz.
    destruct (nth_error P i) as [x|]; [|destruct Hz].
    destruct (nth_error P (n - 1 - i)) as [y|]; [|destruct Hz].
    destruct (truthy (Player.id x) && truthy (Player.id y)); [|destruct Hz].
    cbn in Hz. destruct Hz as [<-|[<-|[]]]; tauto.
  - destruct (IH Hz) as [j [Hj H]]. exists j. split; [now right | exact H].
Qed.

Lemma round_lineups_nodup (P : list Player.t) (h : nat) (idx : list nat) :
  NoDup P -> length P = 2 * h -> NoDup idx -> (forall i, In i idx -> i < h) ->
  NoDup (concat (round_lineups P (2 * h) idx)).
Proof.
  intros HP Hlen. induction idx as [|i idx IH]; intros Hidx Hlt; [constructor|].
  inversion Hidx as [|? ? Hi Hidx']; subst.
  assert (Hrest : NoDup (concat (round_lineups P (2 * h) idx))).
  { apply IH; [exact Hidx'|]. intros j Hj. apply Hlt. now right. }
  assert (Hih : i < h) by (apply Hlt; now left).
  unfold round_lineups in *. cbn [flat_map]. rewrite concat_app.
  unfold pairing at 1.
  destruct (nth_error P i) as [x|] eqn:Hx; [|exact Hrest].
  destruct (nth_error P (2 * h - 1 - i)) as [y|] eqn:Hy; [|exact Hrest].
  destruct (truthy (Player.id x) && truthy (Player.id y)); [|exact Hrest].
  cbn [concat app].
  assert (Hfresh : forall z q, nth_error P q = Some z -> (q = i \/ q = 2 * h - 1 - i) ->
                     ~ In z (concat (flat_map (pairing P (2 * h)) idx))).
  { intros z q Hq Hqi Hin. apply In_round_lineups in Hin.
    destruct Hin as [j [Hj Hjz]].
    assert (Hjh : j < h) by (apply Hlt; now right).
    assert (Hji : j <> i) by (intros ->; contradiction).
    destruct Hjz as [Hjz|Hjz];
      pose proof (index_unique P HP _ _ _ Hq Hjz); lia. }
  constructor; [|constructor].
  - intros [<-|Hin].
    + pose proof (index_unique P HP _ _ _ Hx Hy). lia.
    + revert Hin. eapply Hfresh; [exact Hx | now left].
  - eapply Hfresh; [exact Hy | now right].
  - exact Hrest.
Qed.

(** *** The array the rounds start from *)

Definition padded (players : list Player.t) : list Player.t :=
  if Nat.odd (length players) then players ++ [BYE] else players.

Lemma padded_even (players : list Player.t) :
  exists h, length (padded players) = 2 * h.
Proof.
  unfold padded. destruct (Nat.odd (length players)) eqn:E.
  - apply Nat.odd_spec in E. destruct E as [c Hc]. exists (c + 1).
    rewrite length_app. cbn. lia.
  - assert (Hev : Nat.even (length players) = true).
    { rewrite <- Nat.negb_odd, E. reflexivity. }
    apply Nat.even_spec in Hev. destruct Hev as [c Hc]. now exists c.
Qed.

Lemma padded_nodup (players : list Player.t) :
  NoDup (map Player.id players) ->
  Forall (fun p => truthy (Player.id p) = true) players ->
  NoDup (padded players).
Proof.
  intros Hnd Hreal. apply NoDup_map_inv in Hnd.
  unfold padded. destruct (Nat.odd (length players)); [|exact Hnd].
  apply NoDup_snoc; [exact Hnd|]. intros Hin.
  rewrite Forall_forall in Hreal. specialize (Hreal BYE Hin). discriminate.
Qed.

Lemma generateRoundRobin_rounds (rnd : nat -> string) (players : list Player.t) (k : nat) :
  map (map Match.players) (Bracket.rounds (fst (generateRoundRobin rnd players k))) =
  map (fun r => round_lineups (lineup r (padded players)) (length (padded players))
                  (seq 0 (length (padded players) / 2)))
    (seq 0 (length (padded players) - 1)).
Proof.
  unfold generateRoundRobin, bind, ret. cbn [fst Bracket.rounds].
  apply rr_rounds_players.
Qed.

(** C3 (amended). For players with distinct truthy ids (neither [null] nor
    the empty string), every two different players meet in exactly one match
    of the generated rounds, and no player occurs twice among the
    participants of one round. *)
Theorem generateRoundRobin_every_pair_once
    (rnd : nat -> string) (players : list Player.t) (k : nat) :
  NoDup (map Player.id players) ->
  Forall (fun p => truthy (Player.id p) = true) players ->
  let rounds := Bracket.rounds (fst (generateRoundRobin rnd players k)) in
  (forall a b, In a players -> In b players -> a <> b ->
               length (filter (plays a b) (concat rounds)) = 1) /\
  Forall (fun r => NoDup (flat_map Match.players r)) rounds.
Proof.
  intros Hnd Hreal rounds.
  pose proof (generateRoundRobin_rounds rnd players k) as Hrounds.
  fold rounds in Hrounds.
  pose proof (padded_nodup players Hnd Hreal) as Hp0.
  destruct (padded_even players) as [h Hh].
  set (p0 := padded players) in *. rewrite Hh in Hrounds.
  replace (2 * h / 2) with h in Hrounds by (symmetry; rewrite Nat.mul_comm; apply Nat.div_mul; lia).
  assert (Hlineup : forall r, 1 <= h ->
            NoDup (lineup r p0) /\ length (lineup r p0) = 2 * h).
  { intros r H1. split.
    - eapply Permutation_NoDup; [apply lineup_perm; lia | exact Hp0].
    - rewrite lineup_length; lia. }
  split.
  - intros a b Ha Hb Hab.
    assert (Hin : forall z, In z players -> In z p0).
    { intros z Hz. subst p0. unfold padded.
      destruct (Nat.odd (length players)); [apply in_or_app; now left | exact Hz]. }
    destruct (In_nth_error p0 a (Hin a Ha)) as [x Hx].
    destruct (In_nth_error p0 b (Hin b Hb)) as [y Hy].
    assert (Hxn : x < 2 * h) by (rewrite <- Hh; apply nth_error_Some; congruence).
    assert (Hyn : y < 2 * h) by (rewrite <- Hh; apply nth_error_Some; congruence).
    assert (Hxy : x <> y) by (intros ->; congruence).
    rewrite Forall_forall in Hreal.
    rewrite count_plays, concat_map, Hrounds, <- flat_map_concat_map.
    assert (Hmeet : exists r, r < 2 * h - 1 /\
              pos (2 * h - 1) r x + pos (2 * h - 1) r y = 2 * h - 1 /\
              forall r', r' < 2 * h - 1 ->
                         pos (2 * h - 1) r' x + pos (2 * h - 1) r' y = 2 * h - 1 ->
                         r' = r).
    { destruct (Nat.lt_ge_cases x y) as [Hlt|Hge].
      - apply meet_once; lia.
      - destruct (meet_once h y x ltac:(lia) ltac:(lia)) as (r & Hr & Hs & Hu).
        exists r. split; [exact Hr|]. split; [lia|].
        intros r' Hr' Hs'. apply Hu; [exact Hr' | lia]. }
    destruct Hmeet as (r0 & Hr0 & Hsum & Huniq).
    assert (Hat : forall r z q, nth_error p0 q = Some z -> q < 2 * h ->
                    nth_error (lineup r p0) (pos (2 * h - 1) r q) = Some z).
    { intros r z q Hq Hqn. rewrite (lineup_nth p0 (2 * h - 1) r q); [exact Hq|lia|lia|lia]. }
    apply (filter_flat_map_one _ _ _ r0).
    + apply seq_NoDup.
    + apply in_seq. lia.
    + destruct (Hlineup r0 ltac:(lia)) as [HP HL].
      apply (round_meets_one (lineup r0 p0) h a b
               (pos (2 * h - 1) r0 x) (pos (2 * h - 1) r0 y)); auto.
    + intros r Hr Hne. apply in_seq in Hr.
      destruct (Hlineup r ltac:(lia)) as [HP HL].
      apply (round_meets_none (lineup r p0) h a b
               (pos (2 * h - 1) r x) (pos (2 * h - 1) r y)); auto.
      intros Hs. apply Hne, Huniq; [lia | exact Hs].
  - assert (H : Forall (fun l => NoDup (concat l)) (map (map Match.players) rounds)).
    { rewrite Hrounds. apply Forall_map, Forall_forall. intros r Hr.
      apply in_seq in Hr. destruct (Hlineup r ltac:(lia)) as [HP HL].
      apply round_lineups_nodup; auto.
      - apply seq_NoDup.
      - intros i Hi. apply in_seq in Hi. lia. }
    rewrite Forall_map in H. eapply Forall_impl; [|exact H].
    intros r Hr. cbn beta in Hr. now rewrite flat_map_concat_map.
Qed.

(** ** Creation: the default title *)

(** C9. A create invocation with an empty title input returns a tournament
    titled "Untitled"; with a non-empty title input (a string with a first
    character) the returned tournament carries that title. *)
Theorem onCreate_title
    (rnd : nat -> string) (shuffle : list Player.t -> list Player.t)
    (type organizerId : string) (names : list string)
    (scheduleMode now : string) (ts : list Tournament.t) (k : nat) :
  Tournament.title
    (fst (fst (onCreate rnd shuffle "" type organizerId names scheduleMode now ts k)))
    = "Untitled" /\
  forall (c : ascii) (s : string),
    Tournament.title
      (fst (fst (onCreate rnd shuffle (String c s) type organizerId names scheduleMode now ts k)))
    = String c s.
Proof.
  split; [|intros c s];
    unfold onCreate, createTournament, bind, ret; cbn [fst snd];
    destruct (type =? "single"); try reflexivity;
    destruct (type =? "roundrobin"); try reflexivity;
    destruct (type =? "double"); try reflexivity;
    destruct (type =? "league"); reflexivity.
Qed.

(** ** Match updates *)

Definition rounds_of (t : Tournament.t) : list Round :=
  opt_rounds (Meta.rounds (Tournament.meta t)).

(** The structural view: [meta.rounds], or [meta.winners] and [meta.losers]. *)
Definition structural (t : Tournament.t) : list Match.t :=
  concat (rounds_of t)
    ++ concat (opt_rounds (Meta.winners (Tournament.meta t)))
    ++ concat (opt_rounds (Meta.losers (Tournament.meta t))).

Lemma patch_absent (matchId : string) (u : Update) (ms : list Match.t) :
  ~ In matchId (map Match.id ms) -> patch matchId u ms = ms.
Proof.
  induction ms as [|m ms IH]; intros Hn; [reflexivity|].
  cbn [patch map] in *. destruct (Match.id m =? matchId) eqn:E.
  - apply String.eqb_eq in E. exfalso. apply Hn. now left.
  - f_equal. apply IH. intros Hin. apply Hn. now right.
Qed.

Lemma patch_rounds_absent (matchId : string) (u : Update) (rs : list Round) :
  ~ In matchId (map Match.id (concat rs)) -> map (patch matchId u) rs = rs.
Proof.
  induction rs as [|r rs IH]; intros Hn; [reflexivity|].
  cbn [map concat] in *. rewrite map_app, in_app_iff in Hn.
  rewrite patch_absent by tauto. rewrite IH by tauto. reflexivity.
Qed.

Lemma set_matches_same (t : Tournament.t) : set_matches t (Tournament.matches t) = t.
Proof. now destruct t. Qed.

Lemma set_rounds_same (t : Tournament.t) (rs : list Round) :
  Meta.rounds (Tournament.meta t) = Some rs -> set_rounds t rs = t.
Proof. destruct t as [? ? ? ? ? ? ? ? ? ? [? ? ? ?]]. cbn. now intros ->. Qed.

Lemma updateMatch_noop (tournamentId matchId : string) (u : Update) (ts : list Tournament.t) :
  (forall t, In t ts -> Tournament.id t = tournamentId ->
             ~ In matchId (map Match.id (Tournament.matches t ++ concat (rounds_of t)))) ->
  updateMatch tournamentId matchId u ts = ts.
Proof.
  induction ts as [|t ts IH]; intros H; [reflexivity|].
  cbn [updateMatch map]. fold (updateMatch tournamentId matchId u ts).
  rewrite IH by (intros t' Hin; apply H; now right). f_equal.
  destruct (Tournament.id t =? tournamentId) eqn:E; [|reflexivity].
  apply String.eqb_eq in E. specialize (H t (or_introl eq_refl) E).
  rewrite map_app, in_app_iff in H. cbn [negb].
  rewrite patch_absent by tauto. rewrite set_matches_same.
  unfold rounds_of in H.
  destruct (Meta.rounds (Tournament.meta t)) as [rs|] eqn:Er; [|reflexivity].
  cbn [opt_rounds] in H. rewrite patch_rounds_absent by tauto.
  now apply set_rounds_same.
Qed.

(** C6. [updateMatch] with a tournament id that no stored tournament has, or
    with a match id occurring nowhere in the tournament that has the given id,
    returns the stored collection unchanged (and raises nothing: the function
    is total). *)
Theorem updateMatch_unknown_id_is_noop
    (tournamentId matchId : string) (u : Update) (ts : list Tournament.t) :
  (forall t, In t ts -> Tournament.id t <> tournamentId) \/
  (forall t, In t ts -> Tournament.id t = tournamentId ->
             ~ In matchId (map Match.id (Tournament.matches t ++ structural t))) ->
  updateMatch tournamentId matchId u ts = ts.
Proof.
  intros [H|H]; apply updateMatch_noop; intros t Hin Hid.
  - now destruct (H t Hin).
  - intros Hm. apply (H t Hin Hid). unfold structural.
    rewrite !map_app, !in_app_iff in *. tauto.
Qed.

(** ** Winner derivation *)

Lemma patch_sets (matchId : string) (u : Update) (ms : list Match.t) :
  Forall (fun m' => Match.id m' = matchId ->
            (forall s, u_score u = Some s -> Match.score m' = s) /\
            (forall w, u_winner u = Some w -> Match.winner m' = w) /\
            (forall a, u_scheduledAt u = Some a -> Match.scheduledAt m' = a))
    (patch matchId u ms).
Proof.
  unfold patch. apply Forall_map, Forall_forall. intros m _.
  destruct (Match.id m =? matchId) eqn:E.
  - intros _. unfold apply_update. cbn.
    repeat split; intros x Hx; now rewrite Hx.
  - apply String.eqb_neq in E. intros Hid. cbn in Hid. contradiction.
Qed.

Lemma patch_ids (matchId : string) (u : Update) (ms : list Match.t) :
  map Match.id (patch matchId u ms) = map Match.id ms.
Proof.
  unfold patch. rewrite map_map. apply map_ext. intros m.
  now destruct (Match.id m =? matchId).
Qed.

(** C4. On a two-player match with players (P0, P1) and integer scores
    (a, b), [setScore] succeeds and stores, in both views of the tournament
    shown, for every match carrying that match's id, the score (a, b) and the
    winner: unset when a = b, P0's id when a > b, P1's id when a < b.  The
    match ids of every stored tournament stay as they were. *)
Theorem setScore_derives_winner
    (t : Tournament.t) (m : Match.t) (P0 P1 : Player.t) (a b : Z)
    (ts : list Tournament.t) :
  Match.players m = [P0; P1] ->
  let w := match (a ?= b)%Z with
           | Eq => None
           | Gt => Player.id P0
           | Lt => Player.id P1
           end in
  exists ts',
    setScore t m a b ts = Some ts' /\
    ts' = updateMatch (Tournament.id t) (Match.id m)
            (mkUpdate (Some [a; b]) (Some w) None) ts /\
    map (fun t' => map Match.id (Tournament.matches t')) ts'
      = map (fun t' => map Match.id (Tournament.matches t')) ts /\
    Forall (fun t' =>
              Tournament.id t' = Tournament.id t ->
              Forall (fun m' => Match.id m' = Match.id m ->
                        Match.score m' = [a; b] /\ Match.winner m' = w)
                (Tournament.matches t' ++ concat (rounds_of t'))) ts'.
Proof.
  intros Hp w.
  set (u := mkUpdate (Some [a; b]) (Some w) None).
  exists (updateMatch (Tournament.id t) (Match.id m) u ts).
  split; [|split; [reflexivity|split]].
  - unfold setScore. rewrite Hp. subst u w.
    rewrite Z.gtb_ltb, Z.ltb_compare, Z.compare_antisym.
    destruct (Z.eqb_spec a b) as [->|Hne].
    + now rewrite Z.compare_refl.
    + destruct (a ?= b)%Z eqn:E; try reflexivity.
      apply Z.compare_eq in E. contradiction.
  - unfold updateMatch. rewrite map_map. apply map_ext. intros t'.
    destruct (negb (Tournament.id t' =? Tournament.id t)); [reflexivity|].
    cbn [set_matches Tournament.meta].
    destruct (Meta.rounds (Tournament.meta t')); cbn; apply patch_ids.
  - unfold updateMatch. apply Forall_map, Forall_forall. intros t' _.
    destruct (Tournament.id t' =? Tournament.id t) eqn:E; cbn [negb].
    2:{ apply String.eqb_neq in E. intros Hid. contradiction. }
    intros _.
    assert (Hpatch : forall ms, Forall (fun m' => Match.id m' = Match.id m ->
                       Match.score m' = [a; b] /\ Match.winner m' = w)
                       (patch (Match.id m) u ms)).
    { intros ms. eapply Forall_impl; [|apply patch_sets].
      cbn beta. intros m' H Hid. destruct (H Hid) as (Hs & Hw & _).
      split; [now apply Hs | now apply Hw]. }
    cbn [set_matches Tournament.meta].
    destruct (Meta.rounds (Tournament.meta t')) as [rs|] eqn:Er.
    + unfold rounds_of. cbn. apply Forall_app. split; [apply Hpatch|].
      apply Forall_concat, Forall_map, Forall_forall. intros r _. apply Hpatch.
    + unfold rounds_of. cbn [set_matches Tournament.meta Tournament.matches].
      rewrite Er. cbn. rewrite app_nil_r. apply Hpatch.
Qed.

(** ** Disqualification *)


(** What [disqualify] leaves untouched in a tournament: everything but
    [players] and [adminNotes]. *)
Definition same_but_players_and_notes (t t' : Tournament.t) : Prop :=
  Tournament.id t' = Tournament.id t /\
  Tournament.title t' = Tournament.title t /\
  Tournament.type t' = Tournament.type t /\
  Tournament.organizerId t' = Tournament.organizerId t /\
  Tournament.createdAt t' = Tournament.createdAt t /\
  Tournament.scheduleMode t' = Tournament.scheduleMode t /\
  Tournament.chat t' = Tournament.chat t /\
  Tournament.matches t' = Tournament.matches t /\
  Tournament.meta t' = Tournament.meta t.

(** C7. [disqualify] maps the stored tournaments one to one.  In a tournament
    with the given id the players sequence loses exactly the players with the
    given player id (the others stay, in order), [adminNotes] gains one audit
    string at its end, and the matches, the structural data and every other
    field are as before; tournaments with another id are returned as they
    are. *)
Theorem disqualify_frame
    (currentUserId : option string) (now tournamentId : string)
    (pid : option string) (ts : list Tournament.t) :
  Forall2 (fun t t' =>
             if Tournament.id t =? tournamentId then
               Tournament.players t'
                 = filter (fun p => id_neq (Player.id p) pid) (Tournament.players t) /\
               (forall p, In p (Tournament.players t') <->
                          In p (Tournament.players t) /\ Player.id p <> pid) /\
               Tournament.adminNotes t'
                 = Tournament.adminNotes t ++ [audit_note pid currentUserId now] /\
               same_but_players_and_notes t t'
             else t' = t)
    ts (disqualify currentUserId now tournamentId pid ts).
Proof.
  unfold disqualify, adminAction.
  induction ts as [|t ts IH]; cbn [map]; constructor; [|exact IH].
  destruct (Tournament.id t =? tournamentId); cbn [negb]; [|reflexivity].
  cbn [String.eqb Ascii.eqb Bool.eqb playerId set_players_notes
       Tournament.players Tournament.adminNotes].
  split; [reflexivity|]. split.
  - intros p. rewrite filter_In, id_neq_spec. reflexivity.
  - split; [reflexivity|]. unfold same_but_players_and_notes. cbn. tauto.
Qed.

(** ** The flat view and the structural view *)

Definition same_fields (m m' : Match.t) : Prop :=
  Match.score m = Match.score m' /\
  Match.winner m = Match.winner m' /\
  Match.scheduledAt m = Match.scheduledAt m' /\
  Match.players m = Match.players m'.

(** Every match id occurring in both views carries the same field values in
    both. *)
Definition views_agree (t : Tournament.t) : Prop :=
  forall m m', In m (Tournament.matches t) -> In m' (structural t) ->
               Match.id m = Match.id m' -> same_fields m m'.

Lemma In_patch (matchId : string) (u : Update) (ms : list Match.t) (m : Match.t) :
  In m (patch matchId u ms) ->
  exists m0, In m0 ms /\ Match.id m0 = Match.id m /\
             m = (if Match.id m0 =? matchId then apply_update m0 u else m0).
Proof.
  unfold patch. rewrite in_map_iff. intros [m0 [<- Hin]]. exists m0.
  split; [assumption|]. split; [|reflexivity].
  now destruct (Match.id m0 =? matchId).
Qed.

Lemma In_concat_patch (matchId : string) (u : Update) (rs : list Round) (m : Match.t) :
  In m (concat (map (patch matchId u) rs)) ->
  exists m0, In m0 (concat rs) /\ Match.id m0 = Match.id m /\
             m = (if Match.id m0 =? matchId then apply_update m0 u else m0).
Proof.
  rewrite in_concat. intros [r' [Hr' Hm]]. apply in_map_iff in Hr'.
  destruct Hr' as [r [<- Hr]]. apply In_patch in Hm.
  destruct Hm as [m0 [Hm0 H]]. exists m0. split; [|exact H].
  apply in_concat. now exists r.
Qed.

(** Where the structural view is [meta.rounds] alone (single elimination,
    round robin, league), [updateMatch] patches both views alike. *)
Lemma updateMatch_keeps_views_of_rounds
    (tournamentId matchId : string) (u : Update) (ts : list Tournament.t) :
  Forall (fun t => Meta.winners (Tournament.meta t) = None /\
                   Meta.losers (Tournament.meta t) = None) ts ->
  Forall views_agree ts ->
  Forall views_agree (updateMatch tournamentId matchId u ts).
Proof.
  intros Hshape Hagree. unfold updateMatch. apply Forall_map.
  rewrite Forall_forall in *. intros t Hin.
  specialize (Hshape t Hin). specialize (Hagree t Hin).
  destruct (Tournament.id t =? tournamentId); cbn [negb]; [|exact Hagree].
  destruct Hshape as [Hw Hl].
  assert (Hgoal : forall m m',
            In m (patch matchId u (Tournament.matches t)) ->
            In m' (concat (map (patch matchId u) (rounds_of t))) ->
            Match.id m = Match.id m' -> same_fields m m').
  { intros m m' Hm Hm' Hid.
    apply In_patch in Hm. destruct Hm as [m0 [Hm0 [Hid0 ->]]].
    apply In_concat_patch in Hm'. destruct Hm' as [m0' [Hm0' [Hid0' ->]]].
    assert (Hsame : same_fields m0 m0').
    { apply Hagree; [assumption| |congruence].
      unfold structural. apply in_or_app. now left. }
    assert (Hids : Match.id m0 = Match.id m0').
    { destruct (Match.id m0 =? matchId), (Match.id m0' =? matchId);
        cbn in Hid; congruence. }
    rewrite <- Hids. destruct Hsame as (Hs & Hwi & Hsc & Hp).
    destruct (Match.id m0 =? matchId); unfold same_fields, apply_update; cbn;
      rewrite ?Hs, ?Hwi, ?Hsc, ?Hp; tauto. }
  cbn [set_matches Tournament.meta].
  destruct (Meta.rounds (Tournament.meta t)) as [rs|] eqn:Er.
  - intros m m' Hm Hm'. apply Hgoal; [exact Hm|].
    unfold structural, rounds_of in Hm'. cbn in Hm'. rewrite Hw, Hl in Hm'.
    cbn in Hm'. rewrite app_nil_r in Hm'. unfold rounds_of. now rewrite Er.
  - intros m m' Hm Hm'. apply Hgoal; [exact Hm|].
    unfold structural, rounds_of in Hm'. cbn in Hm'. rewrite Er, Hw, Hl in Hm'.
    destruct Hm'.
Qed.

(** [disqualify] touches neither view. *)
Lemma disqualify_keeps_views
    (currentUserId : option string) (now tournamentId : string)
    (pid : option string) (ts : list Tournament.t) :
  Forall views_agree ts ->
  Forall views_agree (disqualify currentUserId now tournamentId pid ts).
Proof.
  intros Hagree. unfold disqualify, adminAction. apply Forall_map.
  rewrite Forall_forall in *. intros t Hin. specialize (Hagree t Hin).
  destruct (Tournament.id t =? tournamentId); cbn [negb]; [|exact Hagree].
  cbn [String.eqb Ascii.eqb Bool.eqb]. exact Hagree.
Qed.

(** The stored collection after creating a double-elimination tournament for
    Alice and Bob, and the one after creating a single-elimination one. *)
Definition demo_double : list Tournament.t :=
  Eval vm_compute in
  snd (fst (createTournament demo_rnd (fun l => l) "Cup" "double" "u_admin"
              [alice; bob] "manual" "2025-01-01T00:00:00.000Z" [] 0)).

Definition demo_single : list Tournament.t :=
  Eval vm_compute in
  snd (fst (createTournament demo_rnd (fun l => l) "Cup" "single" "u_admin"
              [alice; bob] "manual" "2025-01-01T00:00:00.000Z" [] 0)).

Definition demo_single_t : Tournament.t :=
  Eval vm_compute in
  fst (fst (createTournament demo_rnd (fun l => l) "Cup" "single" "u_admin"
              [alice; bob] "manual" "2025-01-01T00:00:00.000Z" [] 0)).

Definition demo_match : Match.t :=
  Match.mk "m_aaaa" [alice; bob] [0%Z; 0%Z] None None None.

Lemma demo_match_shown : rounds_of demo_single_t = [[demo_match]].
Proof. reflexivity. Qed.

Lemma demo_double_created :
  demo_double =
  snd (fst (createTournament demo_rnd (fun l => l) "Cup" "double" "u_admin"
              [alice; bob] "manual" "2025-01-01T00:00:00.000Z" [] 0)).
Proof. vm_compute. reflexivity. Qed.

Lemma demo_single_created :
  demo_single =
  snd (fst (createTournament demo_rnd (fun l => l) "Cup" "single" "u_admin"
              [alice; bob] "manual" "2025-01-01T00:00:00.000Z" [] 0)).
Proof. vm_compute. reflexivity. Qed.

Ltac pick_match H :=
  repeat match type of H with
         | _ \/ _ => destruct H as [H|H]
         | False => destruct H
         | _ = _ => subst
         end.

(** C1 (fails on the code). Both freshly created collections have agreeing
    views.  Rescheduling the winners-bracket match of the double-elimination
    tournament through [updateMatch], as the per-match Reschedule button does,
    patches the flat list only, because [meta.rounds] is absent there; and
    [adminAction]'s "reschedule" never patches the structural view of any
    format.  After either call the views disagree on [scheduledAt]. *)
Theorem views_disagree_after_reschedule :
  Forall views_agree demo_double /\
  ~ Forall views_agree
      (updateMatch "t_a" "m_aaaa"
         (mkUpdate None None (Some (Some "2025-09-01T15:00:00"))) demo_double) /\
  Forall views_agree demo_single /\
  ~ Forall views_agree
      (rescheduleMany "t_a" ["m_aaaa"] (Some "2025-09-01T15:00:00") demo_single).
Proof.
  split; [|split; [|split]].
  - constructor; [|constructor]. intros m m' Hm Hm' Hid.
    cbn in Hm, Hm'. pick_match Hm; pick_match Hm'; cbn in Hid;
      try discriminate; repeat split.
  - intros H. apply Forall_inv in H.
    destruct (H _ _ (or_introl eq_refl) (or_introl eq_refl) eq_refl)
      as (_ & _ & Hs & _).
    discriminate Hs.
  - constructor; [|constructor]. intros m m' Hm Hm' Hid.
    cbn in Hm, Hm'. pick_match Hm; pick_match Hm'; cbn in Hid;
      try discriminate; repeat split.
  - intros H. apply Forall_inv in H.
    destruct (H _ _ (or_introl eq_refl) (or_introl eq_refl) eq_refl)
      as (_ & _ & Hs & _).
    discriminate Hs.
Qed.

(** The two views of the double-elimination tournament after the per-match
    reschedule: the flat entry [m_aaaa] carries the new time, the
    winners-bracket entry does not. *)
Lemma demo_double_after_update :
  map (fun t => (map (fun m => (Match.id m, Match.scheduledAt m)) (Tournament.matches t),
                 map (fun m => (Match.id m, Match.scheduledAt m)) (structural t)))
    (updateMatch "t_a" "m_aaaa"
       (mkUpdate None None (Some (Some "2025-09-01T15:00:00"))) demo_double)
  = [ ([("m_aaaa", Some "2025-09-01T15:00:00"); ("l_aaaaaa", None)],
       [("m_aaaa", None); ("l_aaaaaa", None)]) ].
Proof. reflexivity. Qed.

Lemma demo_single_after_reschedule :
  map (fun t => (map (fun m => (Match.id m, Match.scheduledAt m)) (Tournament.matches t),
                 map (fun m => (Match.id m, Match.scheduledAt m)) (structural t)))
    (rescheduleMany "t_a" ["m_aaaa"] (Some "2025-09-01T15:00:00") demo_single)
  = [ ([("m_aaaa", Some "2025-09-01T15:00:00")], [("m_aaaa", None)]) ].
Proof. reflexivity. Qed.

(** ** Leaderboard: the board during the scan *)

Definition keys (b : Board) : list string := map fst b.

Lemma lookup_In (k : string) (b : Board) :
  lookup k b <> None <-> In k (keys b).
Proof.
  induction b as [|[k' e] b IH]; cbn; [tauto|].
  destruct (String.eqb_spec k' k) as [->|Hne].
  - split; [now left | discriminate].
  - rewrite IH. split; [now right | intros [H|H]; [contradiction | exact H]].
Qed.

Lemma lookup_None (k : string) (b : Board) :
  lookup k b = None <-> ~ In k (keys b).
Proof.
  rewrite <- lookup_In. destruct (lookup k b); split; try congruence.
  intros H. exfalso. apply H. discriminate.
Qed.

Lemma lookup_app (k : string) (b c : Board) :
  lookup k (b ++ c) = match lookup k b with Some e => Some e | None => lookup k c end.
Proof.
  induction b as [|[k' e] b IH]; cbn; [reflexivity|].
  now destruct (k' =? k).
Qed.

(** A successful [modify] changes the entry under [k] by [f] and nothing
    else; it succeeds exactly when [k] is an own key or an inherited one. *)
Lemma modify_Some (k : string) (f : Entry.t -> Entry.t) (b : Board) :
  In k (keys b) \/ inherited k = true -> exists b', modify k f b = Some b'.
Proof.
  induction b as [|[k' e] b IH]; cbn.
  - intros [[] | ->]. eexists; reflexivity.
  - intros Hin.
    destruct (String.eqb_spec k' k) as [->|Hne]; [eexists; reflexivity|].
    destruct IH as [b' Hb']; [destruct Hin as [[H|H]|H]; [contradiction | now left | now right]|].
    rewrite Hb'. eexists; reflexivity.
Qed.

Lemma modify_keys (k : string) (f : Entry.t -> Entry.t) (b b' : Board) :
  modify k f b = Some b' -> keys b' = keys b /\ (In k (keys b) \/ inherited k = true).
Proof.
  revert b'. induction b as [|[k' e] b IH]; cbn; intros b' H.
  - destruct (inherited k); [|discriminate]. injection H as <-. split; [reflexivity | now right].
  - destruct (String.eqb_spec k' k) as [->|Hne].
    + injection H as <-. cbn. split; [reflexivity | left; now left].
    + destruct (modify k f b) as [b1|]; [|discriminate]. injection H as <-.
      destruct (IH b1 eq_refl) as [Hk Hin]. unfold keys in *. cbn.
      split; [now rewrite Hk | tauto].
Qed.

Lemma modify_lookup (k : string) (f : Entry.t -> Entry.t) (b b' : Board) (k0 : string) :
  modify k f b = Some b' ->
  lookup k0 b' = if k0 =? k then option_map f (lookup k0 b) else lookup k0 b.
Proof.
  revert b'. induction b as [|[k' e] b IH]; cbn; intros b' H.
  { destruct (inherited k); [|discriminate]. injection H as <-.
    now destruct (k0 =? k). }
  destruct (String.eqb_spec k' k) as [->|Hne].
  - injection H as <-. cbn. rewrite (String.eqb_sym k0 k).
    destruct (String.eqb_spec k k0); reflexivity.
  - destruct (modify k f b) as [b1|]; [|discriminate]. injection H as <-.
    cbn. destruct (String.eqb_spec k' k0) as [->|Hne0].
    + destruct (String.eqb_spec k0 k); [contradiction | reflexivity].
    + now apply IH.
Qed.

Lemma register_keys (b : Board) (p : Player.t) (k : string) :
  In k (keys (register b p)) <->
  In k (keys b) \/ (k = key_of (Player.id p) /\ inherited k = false).
Proof.
  unfold register. destruct (lookup (key_of (Player.id p)) b) eqn:E.
  - split; [now left|]. intros [H | [-> _]]; [exact H|].
    apply lookup_In. congruence.
  - destruct (inherited (key_of (Player.id p))) eqn:Ei.
    + split; [now left|]. intros [H | [-> H]]; [exact H | congruence].
    + unfold keys. rewrite map_app, in_app_iff. cbn. intuition congruence.
Qed.

Lemma registers_keys (ps : list Player.t) (b : Board) (k : string) :
  In k (keys (fold_left register ps b)) <->
  In k (keys b) \/ (In k (map (fun p => key_of (Player.id p)) ps) /\ inherited k = false).
Proof.
  revert b. induction ps as [|p ps IH]; intros b; cbn; [tauto|].
  rewrite IH, register_keys. intuition congruence.
Qed.

(** What the scan of one match reads on the board: the winner's key and the
    key of the first participant whose id differs from the winner's. *)
Definition counted (m : Match.t) : bool :=
  negb (match Match.players m with [] => true | _ => false end) && truthy (Match.winner m).

Definition needs (m : Match.t) : list string :=
  if counted m then
    key_of (Match.winner m)
      :: match find_loser m with
         | Some loser => [key_of (Player.id loser)]
         | None => []
         end
  else [].

Lemma tally_uncounted (b : Board) (m : Match.t) : counted m = false -> tally b m = Some b.
Proof.
  unfold counted, tally. destruct (Match.players m); [reflexivity|].
  cbn. now intros ->.
Qed.

Lemma tally_counted (b : Board) (m : Match.t) :
  counted m = true ->
  tally b m =
    obind (modify (key_of (Match.winner m)) wins_incr b) (fun b1 =>
    obind (match find_loser m with
           | Some loser => modify (key_of (Player.id loser)) losses_incr b1
           | None => Some b1
           end) (fun b2 =>
    modify (key_of (Match.winner m)) points_add3 b2)).
Proof.
  unfold counted, tally. destruct (Match.players m); [discriminate|].
  cbn. now intros ->.
Qed.

Lemma tally_succeeds (b : Board) (m : Match.t) :
  (exists b', tally b m = Some b') <->
  (forall k, In k (needs m) -> In k (keys b) \/ inherited k = true).
Proof.
  unfold needs. destruct (counted m) eqn:Hc.
  2:{ rewrite tally_uncounted by assumption. split; [intros _ k []|eauto]. }
  rewrite tally_counted by assumption. split.
  - intros [b' H].
    destruct (modify (key_of (Match.winner m)) wins_incr b) as [b1|] eqn:E1; [|discriminate].
    apply modify_keys in E1. destruct E1 as [K1 In1]. cbn [obind] in H.
    intros k [<-|Hk]; [exact In1|].
    destruct (find_loser m) as [loser|]; [|destruct Hk].
    destruct Hk as [<-|[]].
    destruct (modify (key_of (Player.id loser)) losses_incr b1) as [b2|] eqn:E2; [|discriminate].
    apply modify_keys in E2. destruct E2 as [_ In2]. now rewrite <- K1.
  - intros H.
    destruct (modify_Some (key_of (Match.winner m)) wins_incr b) as [b1 E1];
      [apply H; now left|].
    rewrite E1. cbn [obind]. pose proof (modify_keys _ _ _ _ E1) as [K1 _].
    assert (exists b2, match find_loser m with
                       | Some loser => modify (key_of (Player.id loser)) losses_incr b1
                       | None => Some b1
                       end = Some b2 /\ keys b2 = keys b) as [b2 [E2 K2]].
    { destruct (find_loser m) as [loser|]; [|now exists b1].
      destruct (modify_Some (key_of (Player.id loser)) losses_incr b1) as [b2 E2].
      - rewrite K1. apply H. right. now left.
      - exists b2. split; [exact E2|]. apply modify_keys in E2. destruct E2. congruence. }
    rewrite E2. cbn [obind]. apply modify_Some. rewrite K2. apply H. now left.
Qed.

Lemma tally_keys (b b' : Board) (m : Match.t) : tally b m = Some b' -> keys b' = keys b.
Proof.
  destruct (counted m) eqn:Hc.
  2:{ rewrite tally_uncounted by assumption. now intros [= <-]. }
  rewrite tally_counted by assumption.
  destruct (modify (key_of (Match.winner m)) wins_incr b) as [b1|] eqn:E1; [|discriminate].
  cbn [obind]. apply modify_keys in E1. destruct E1 as [K1 _].
  destruct (find_loser m) as [loser|].
  - destruct (modify (key_of (Player.id loser)) losses_incr b1) as [b2|] eqn:E2; [|discriminate].
    cbn [obind]. apply modify_keys in E2. destruct E2 as [K2 _].
    intros E3. apply modify_keys in E3. destruct E3. congruence.
  - cbn [obind]. intros E3. apply modify_keys in E3. destruct E3. congruence.
Qed.

Lemma tally_all_keys (ms : list Match.t) (b b' : Board) :
  tally_all b ms = Some b' -> keys b' = keys b.
Proof.
  revert b. induction ms as [|m ms IH]; cbn; intros b H; [now injection H as <-|].
  destruct (tally b m) as [b1|] eqn:E; [|discriminate]. cbn in H.
  apply IH in H. apply tally_keys in E. congruence.
Qed.

Lemma tally_all_succeeds (ms : list Match.t) (b : Board) :
  (exists b', tally_all b ms = Some b') <->
  (forall m, In m ms -> forall k, In k (needs m) -> In k (keys b) \/ inherited k = true).
Proof.
  revert b. induction ms as [|m ms IH]; intros b; cbn.
  - split; [intros _ m [] | eauto].
  - split.
    + intros [b' H]. destruct (tally b m) as [b1|] eqn:E; [|discriminate]. cbn in H.
      intros m' [<-|Hin].
      * apply tally_succeeds. eauto.
      * rewrite <- (tally_keys _ _ _ E). apply IH; eauto.
    + intros H. destruct (proj2 (tally_succeeds b m)) as [b1 E]; [apply H; now left|].
      rewrite E. cbn. apply IH. intros m' Hin. rewrite (tally_keys _ _ _ E).
      apply H. now right.
Qed.

Definition player_keys (ps : list Player.t) : list string :=
  map (fun p => key_of (Player.id p)) ps.

Definition registered_keys (ts : list Tournament.t) : list string :=
  player_keys (flat_map Tournament.players ts).

Lemma visit_keys (b b' : Board) (t : Tournament.t) (k : string) :
  visit b t = Some b' ->
  (In k (keys b') <->
   In k (keys b) \/ (In k (player_keys (Tournament.players t)) /\ inherited k = false)).
Proof.
  unfold visit. intros H. apply tally_all_keys in H. rewrite H.
  apply registers_keys.
Qed.

Lemma not_inherited (k : string) : inherited k = true \/ inherited k = false.
Proof. destruct (inherited k); tauto. Qed.

Lemma visit_succeeds (b : Board) (t : Tournament.t) :
  (exists b', visit b t = Some b') <->
  (forall m, In m (Tournament.matches t) -> forall k, In k (needs m) ->
             In k (keys b) \/ In k (player_keys (Tournament.players t)) \/
             inherited k = true).
Proof.
  unfold visit. rewrite tally_all_succeeds.
  split; intros H m Hm k Hk; specialize (H m Hm k Hk);
    rewrite registers_keys in *; fold (player_keys (Tournament.players t)) in *;
    destruct (not_inherited k); tauto.
Qed.

(** The lookups of the whole scan hit exactly when every key a match needs
    was registered by the players list of its own tournament or of an earlier
    one, or names a property of [Object.prototype]. *)
Definition lookups_hit (ts : list Tournament.t) : Prop :=
  forall pre t post, ts = pre ++ t :: post ->
  forall m, In m (Tournament.matches t) ->
  forall k, In k (needs m) ->
            In k (registered_keys (pre ++ [t])) \/ inherited k = true.

Lemma visit_all_succeeds (ts : list Tournament.t) (b : Board) :
  (exists b', visit_all b ts = Some b') <->
  (forall pre t post, ts = pre ++ t :: post ->
   forall m, In m (Tournament.matches t) ->
   forall k, In k (needs m) ->
             In k (keys b) \/ In k (registered_keys (pre ++ [t])) \/ inherited k = true).
Proof.
  revert b. induction ts as [|t ts IH]; intros b; cbn [visit_all].
  - split; [|eauto]. intros _ pre t post H. now destruct pre.
  - split.
    + intros [b' H]. destruct (visit b t) as [b1|] eqn:E; [|discriminate]. cbn in H.
      intros pre t0 post Heq m Hm k Hk. destruct pre as [|t1 pre]; cbn in Heq.
      * injection Heq as <- <-. unfold registered_keys. cbn. rewrite app_nil_r.
        exact (proj1 (visit_succeeds b t) (ex_intro _ b1 E) m Hm k Hk).
      * injection Heq as <- ->.
        destruct (proj1 (IH b1) (ex_intro _ b' H) pre t0 post eq_refl m Hm k Hk)
          as [Hin|[Hin|Hin]].
        -- apply (visit_keys _ _ _ k E) in Hin. unfold registered_keys, player_keys in *.
           cbn. rewrite map_app, in_app_iff. tauto.
        -- right. left. unfold registered_keys, player_keys in *.
           cbn. rewrite map_app, in_app_iff. tauto.
        -- tauto.
    + intros H. destruct (proj2 (visit_succeeds b t)) as [b1 E].
      { intros m Hm k Hk. specialize (H [] t ts eq_refl m Hm k Hk).
        unfold registered_keys in H. cbn in H. now rewrite app_nil_r in H. }
      rewrite E. cbn. apply IH. intros pre t0 post -> m Hm k Hk.
      specialize (H (t :: pre) t0 post eq_refl m Hm k Hk).
      unfold registered_keys, player_keys in *. cbn in H.
      rewrite map_app, in_app_iff in H. rewrite (visit_keys _ _ _ k E).
      unfold player_keys. destruct (not_inherited k); tauto.
Qed.

(** ** Leaderboard: when the scan completes *)

(** The stored collection after Alice beat Bob 3-1 in [demo_single], and the
    one after Alice was then disqualified. *)
Definition demo_scored : list Tournament.t :=
  Eval vm_compute in
  match setScore demo_single_t demo_match 3 1 demo_single with
  | Some ts => ts
  | None => []
  end.

Definition demo_disqualified : list Tournament.t :=
  Eval vm_compute in
  disqualify (Some "u_admin") "2025-01-02T00:00:00.000Z" "t_a" (Some "p_alice") demo_scored.

Lemma demo_scored_run :
  setScore demo_single_t demo_match 3 1 demo_single = Some demo_scored.
Proof. reflexivity. Qed.

Lemma demo_disqualified_run :
  demo_disqualified =
  disqualify (Some "u_admin") "2025-01-02T00:00:00.000Z" "t_a" (Some "p_alice") demo_scored.
Proof. reflexivity. Qed.






Lemma computeLeaderboard_returns_iff (ts : list Tournament.t) :
  (exists lb, computeLeaderboard ts = Some lb) <-> lookups_hit ts.
Proof.
  unfold computeLeaderboard, lookups_hit.
  pose proof (visit_all_succeeds ts []) as H. cbn [keys map] in H.
  split.
  - intros [lb Hlb]. destruct (visit_all [] ts) as [b|] eqn:E; [|discriminate].
    intros pre t post Heq m Hm k Hk.
    destruct (proj1 H (ex_intro _ b eq_refl) pre t post Heq m Hm k Hk) as [[]|Hin].
    exact Hin.
  - intros Hhit. destruct (proj2 H) as [b Hb].
    + intros pre t post Heq m Hm k Hk. right. eapply Hhit; eauto.
    + rewrite Hb. eexists; reflexivity.
Qed.




(** ** Leaderboard: what the entries hold *)

Definition wins_at (b : Board) (k : string) : Z :=
  match lookup k b with Some e => Entry.wins e | None => 0 end.

Definition losses_at (b : Board) (k : string) : Z :=
  match lookup k b with Some e => Entry.losses e | None => 0 end.

Definition points_at (b : Board) (k : string) : Z :=
  match lookup k b with Some e => Entry.points e | None => 0 end.

(** Who an entry stands for; no step of the scan changes it. *)
Definition ident_at (b : Board) (k : string) : option (option string * string) :=
  option_map (fun e => (Entry.id e, Entry.name e)) (lookup k b).

(** What the scan of [m] adds under key [k]. *)
Definition win_of (m : Match.t) (k : string) : Z :=
  if counted m && (key_of (Match.winner m) =? k) then 1 else 0.

Definition loss_of (m : Match.t) (k : string) : Z :=
  if counted m then
    match find_loser m with
    | Some loser => if key_of (Player.id loser) =? k then 1 else 0
    | None => 0
    end
  else 0.

Fixpoint total (f : Match.t -> Z) (ms : list Match.t) : Z :=
  match ms with
  | [] => 0
  | m :: ms' => f m + total f ms'
  end.

Lemma total_app (f : Match.t -> Z) (xs ys : list Match.t) :
  total f (xs ++ ys) = (total f xs + total f ys)%Z.
Proof. induction xs as [|x xs IH]; cbn; [reflexivity | rewrite IH; lia]. Qed.

Lemma modify_stats (k : string) (f : Entry.t -> Entry.t) (b b' : Board) (k0 : string) :
  modify k f b = Some b' ->
  lookup k0 b' = (if k0 =? k then option_map f (lookup k0 b) else lookup k0 b) /\
  (inherited k = false -> lookup k b <> None).
Proof.
  intros H. split; [now apply modify_lookup|].
  intros Hk. apply lookup_In. apply modify_keys in H.
  destruct H as [_ [H|H]]; [exact H | congruence].
Qed.

Lemma tally_stats (b b' : Board) (m : Match.t) (k : string) :
  inherited k = false ->
  tally b m = Some b' ->
  wins_at b' k = (wins_at b k + win_of m k)%Z /\
  losses_at b' k = (losses_at b k + loss_of m k)%Z /\
  points_at b' k = (points_at b k + 3 * win_of m k)%Z /\
  ident_at b' k = ident_at b k.
Proof.
  intros Hk. unfold win_of, loss_of. destruct (counted m) eqn:Hc.
  2:{ rewrite tally_uncounted by assumption. intros [= <-]. cbn. repeat split; lia. }
  rewrite tally_counted by assumption. cbn [andb].
  destruct (modify (key_of (Match.winner m)) wins_incr b) as [b1|] eqn:E1; [|discriminate].
  cbn [obind]. destruct (modify_stats _ _ _ _ k E1) as [L1 N1].
  unfold wins_at, losses_at, points_at, ident_at.
  rewrite (String.eqb_sym (key_of (Match.winner m)) k).
  destruct (find_loser m) as [loser|].
  - destruct (modify (key_of (Player.id loser)) losses_incr b1) as [b2|] eqn:E2; [|discriminate].
    cbn [obind]. intros E3.
    destruct (modify_stats _ _ _ _ k E2) as [L2 N2].
    destruct (modify_stats _ _ _ _ k E3) as [L3 _].
    rewrite L3, L2, L1.
    rewrite (String.eqb_sym (key_of (Player.id loser)) k).
    destruct (String.eqb_spec k (key_of (Match.winner m))) as [->|Hkw].
    + specialize (N1 Hk).
      destruct (lookup (key_of (Match.winner m)) b) as [e|]; [|contradiction].
      destruct (key_of (Match.winner m) =? key_of (Player.id loser));
        cbn; repeat split; lia.
    + destruct (String.eqb_spec k (key_of (Player.id loser))) as [->|Hkl].
      * destruct (lookup (key_of (Player.id loser)) b) as [e|] eqn:El.
        -- cbn; repeat split; lia.
        -- exfalso. apply (N2 Hk).
           rewrite (proj1 (modify_stats _ _ _ _ (key_of (Player.id loser)) E1)).
           rewrite El. now destruct (key_of (Player.id loser) =? key_of (Match.winner m)).
      * destruct (lookup k b); cbn; repeat split; lia.
  - cbn [obind]. intros E3.
    destruct (modify_stats _ _ _ _ k E3) as [L3 _].
    rewrite L3, L1.
    destruct (String.eqb_spec k (key_of (Match.winner m))) as [->|Hkw].
    + specialize (N1 Hk).
      destruct (lookup (key_of (Match.winner m)) b) as [e|]; [|contradiction].
      cbn; repeat split; lia.
    + destruct (lookup k b); cbn; repeat split; lia.
Qed.

Lemma tally_all_stats (ms : list Match.t) (b b' : Board) (k : string) :
  inherited k = false ->
  tally_all b ms = Some b' ->
  wins_at b' k = (wins_at b k + total (fun m => win_of m k) ms)%Z /\
  losses_at b' k = (losses_at b k + total (fun m => loss_of m k) ms)%Z /\
  points_at b' k = (points_at b k + 3 * total (fun m => win_of m k) ms)%Z /\
  ident_at b' k = ident_at b k.
Proof.
  intros Hk. revert b. induction ms as [|m ms IH]; cbn [tally_all total]; intros b H.
  - injection H as <-. repeat split; lia.
  - destruct (tally b m) as [b1|] eqn:E; [|discriminate]. cbn [obind] in H.
    destruct (tally_stats _ _ _ k Hk E) as (W1 & L1 & P1 & I1).
    destruct (IH _ H) as (W2 & L2 & P2 & I2).
    rewrite W2, L2, P2, I2, W1, L1, P1, I1. repeat split; lia.
Qed.

Lemma register_stats (b : Board) (p : Player.t) (k : string) :
  wins_at (register b p) k = wins_at b k /\
  losses_at (register b p) k = losses_at b k /\
  points_at (register b p) k = points_at b k.
Proof.
  unfold register, wins_at, losses_at, points_at.
  destruct (lookup (key_of (Player.id p)) b) eqn:E; [tauto|].
  destruct (inherited (key_of (Player.id p))); [tauto|].
  rewrite lookup_app. destruct (lookup k b); [tauto|]. cbn.
  destruct (key_of (Player.id p) =? k); cbn; tauto.
Qed.

Lemma registers_stats (ps : list Player.t) (b : Board) (k : string) :
  wins_at (fold_left register ps b) k = wins_at b k /\
  losses_at (fold_left register ps b) k = losses_at b k /\
  points_at (fold_left register ps b) k = points_at b k.
Proof.
  revert b. induction ps as [|p ps IH]; intros b; cbn; [tauto|].
  destruct (IH (register b p)) as (W & L & P).
  destruct (register_stats b p k) as (W' & L' & P').
  rewrite W, L, P, W', L', P'. tauto.
Qed.

Definition all_matches (ts : list Tournament.t) : list Match.t :=
  flat_map Tournament.matches ts.

Lemma visit_all_stats (ts : list Tournament.t) (b b' : Board) (k : string) :
  inherited k = false ->
  visit_all b ts = Some b' ->
  wins_at b' k = (wins_at b k + total (fun m => win_of m k) (all_matches ts))%Z /\
  losses_at b' k = (losses_at b k + total (fun m => loss_of m k) (all_matches ts))%Z /\
  points_at b' k = (points_at b k + 3 * total (fun m => win_of m k) (all_matches ts))%Z.
Proof.
  intros Hk.
  revert b. induction ts as [|t ts IH]; cbn [visit_all all_matches flat_map total]; intros b H.
  - injection H as <-. repeat split; lia.
  - destruct (visit b t) as [b1|] eqn:E; [|discriminate]. cbn [obind] in H.
    unfold visit in E.
    destruct (tally_all_stats _ _ _ k Hk E) as (W1 & L1 & P1 & _).
    destruct (registers_stats (Tournament.players t) b k) as (W0 & L0 & P0).
    destruct (IH _ H) as (W2 & L2 & P2). fold (all_matches ts).
    rewrite !total_app, W2, L2, P2, W1, L1, P1, W0, L0, P0. repeat split; lia.
Qed.

(** The board stays coherent with the players registered so far: its keys
    are distinct, they are the keys of those players that [Object.prototype]
    does not define, and the entry under a key carries an id with that key,
    taken from one of those players. *)
Definition coherent (ps : list Player.t) (b : Board) : Prop :=
  NoDup (keys b) /\
  (forall k, In k (keys b) <-> In k (player_keys ps) /\ inherited k = false) /\
  (forall k i n, ident_at b k = Some (i, n) ->
                 key_of i = k /\ In i (map Player.id ps)).

Lemma coherent_register (ps : list Player.t) (b : Board) (p : Player.t) :
  coherent ps b -> coherent (ps ++ [p]) (register b p).
Proof.
  intros (Hnd & Hkeys & Hid). split; [|split].
  - unfold register. destruct (lookup (key_of (Player.id p)) b) eqn:E; [exact Hnd|].
    destruct (inherited (key_of (Player.id p))); [exact Hnd|].
    unfold keys in *. rewrite map_app. cbn. apply NoDup_snoc; [exact Hnd|].
    now apply lookup_None.
  - intros k. rewrite register_keys, Hkeys. unfold player_keys.
    rewrite map_app, in_app_iff. cbn. intuition congruence.
  - assert (Hold : forall k i n, ident_at b k = Some (i, n) ->
                     key_of i = k /\ In i (map Player.id (ps ++ [p]))).
    { intros k i n H. destruct (Hid k i n H) as [Hk Hin]. split; [exact Hk|].
      rewrite map_app, in_app_iff. now left. }
    intros k i n. unfold register.
    destruct (lookup (key_of (Player.id p)) b) eqn:E; [apply Hold|].
    destruct (inherited (key_of (Player.id p))); [apply Hold|].
    unfold ident_at. rewrite lookup_app. destruct (lookup k b) as [e|] eqn:Ek.
    + intros H. apply (Hold k i n). unfold ident_at. now rewrite Ek.
    + cbn. destruct (String.eqb_spec (key_of (Player.id p)) k) as [<-|Hne]; [|discriminate].
      cbn. intros [= <- <-]. split; [reflexivity|].
      rewrite map_app, in_app_iff. right. now left.
Qed.

Lemma coherent_registers (qs ps : list Player.t) (b : Board) :
  coherent ps b -> coherent (ps ++ qs) (fold_left register qs b).
Proof.
  revert ps b. induction qs as [|q qs IH]; intros ps b H; cbn.
  - now rewrite app_nil_r.
  - replace (ps ++ q :: qs) with ((ps ++ [q]) ++ qs) by (now rewrite <- app_assoc).
    apply IH. now apply coherent_register.
Qed.

Lemma coherent_tally_all (ps : list Player.t) (ms : list Match.t) (b b' : Board) :
  tally_all b ms = Some b' -> coherent ps b -> coherent ps b'.
Proof.
  intros H (Hnd & Hkeys & Hid).
  pose proof (tally_all_keys _ _ _ H) as K. split; [|split].
  - now rewrite K.
  - intros k. now rewrite K.
  - intros k i n Hi.
    assert (Hk : inherited k = false).
    { apply (Hkeys k). rewrite <- K. apply lookup_In. unfold ident_at in Hi.
      destruct (lookup k b'); [discriminate | discriminate Hi]. }
    destruct (tally_all_stats _ _ _ k Hk H) as (_ & _ & _ & I).
    apply (Hid k i n). now rewrite <- I.
Qed.

Lemma coherent_visit_all (ts : list Tournament.t) (ps : list Player.t) (b b' : Board) :
  visit_all b ts = Some b' -> coherent ps b ->
  coherent (ps ++ flat_map Tournament.players ts) b'.
Proof.
  revert ps b. induction ts as [|t ts IH]; cbn [visit_all flat_map]; intros ps b H Hc.
  - injection H as <-. now rewrite app_nil_r.
  - destruct (visit b t) as [b1|] eqn:E; [|discriminate]. cbn [obind] in H.
    rewrite app_assoc. apply (IH _ b1 H). unfold visit in E.
    eapply coherent_tally_all; [exact E|]. now apply coherent_registers.
Qed.

Lemma In_lookup (b : Board) (k : string) (e : Entry.t) :
  NoDup (keys b) -> In (k, e) b -> lookup k b = Some e.
Proof.
  induction b as [|[k' e'] b IH]; cbn; intros Hnd Hin; [contradiction|].
  inversion Hnd as [|? ? Hnotin Hnd']; subst.
  destruct Hin as [[= -> ->]|Hin].
  - now rewrite String.eqb_refl.
  - destruct (String.eqb_spec k' k) as [->|Hne]; [|now apply IH].
    exfalso. apply Hnotin. unfold keys. apply in_map_iff. now exists (k, e).
Qed.

(** *** Counting in the specification's words *)





Definition count (P : Match.t -> bool) (ms : list Match.t) : Z :=
  Z.of_nat (length (filter P ms)).

Lemma total_count (f : Match.t -> Z) (P : Match.t -> bool) (ms : list Match.t) :
  (forall m, In m ms -> f m = if P m then 1%Z else 0%Z) ->
  total f ms = count P ms.
Proof.
  unfold count. induction ms as [|m ms IH]; intros H; [reflexivity|].
  cbn [total filter]. rewrite (H m (or_introl eq_refl)), IH by (intros; apply H; now right).
  destruct (P m); cbn [length]; lia.
Qed.

(** The data model's shape of a match: at most two participants, with
    distinct string ids, and a recorded winner is one of them. *)
Definition well_formed_match (m : Match.t) : Prop :=
  length (Match.players m) <= 2 /\
  NoDup (map Player.id (Match.players m)) /\
  Forall (fun p => Player.id p <> None) (Match.players m) /\
  (truthy (Match.winner m) = true ->
   In (Match.winner m) (map Player.id (Match.players m))).



Ltac split_eqb :=
  repeat match goal with
         | |- context [String.eqb ?x ?y] => destruct (String.eqb_spec x y); subst
         | H : context [String.eqb ?x ?y] |- _ => destruct (String.eqb_spec x y); subst
         end.


(** On a well-formed match with a recorded winner, the keys the scan reads
    are the keys of its participants. *)
Lemma needs_participants (m : Match.t) (k : string) :
  well_formed_match m -> truthy (Match.winner m) = true ->
  (In k (needs m) <-> In k (player_keys (Match.players m))).
Proof.
  intros (Hlen & Hnd & Hids & Hw) T. specialize (Hw T).
  unfold needs, counted, find_loser, player_keys. rewrite T.
  destruct (Match.winner m) as [w|]; [|discriminate].
  destruct (Match.players m) as [|[[a|] na] [|[[c|] nc] [|r rs]]];
    cbn in Hlen, Hnd, Hids, Hw |- *; try lia; try tauto;
    try (inversion Hids as [|? ? H1 H2]; subst; try (now destruct H1);
         inversion H2 as [|? ? H3 H4]; subst; now destruct H3).
  - destruct Hw as [[= ->]|[]]. rewrite String.eqb_refl. cbn. tauto.
  - inversion Hnd as [|? ? Hnotin _]; subst.
    assert (Hac : a <> c) by (intros ->; apply Hnotin; now left).
    destruct Hw as [[= ->]|[[= ->]|[]]]; repeat (split_eqb; cbn in * );
      try congruence; tauto.
Qed.

(** *** The final sort *)





Lemma insert_entry_perm (x : Entry.t) (l : list Entry.t) :
  Permutation (x :: l) (insert_entry x l).
Proof.
  induction l as [|y l IH]; cbn; [reflexivity|].
  destruct (compare_entries x y <=? 0)%Z; [reflexivity|].
  rewrite perm_swap. now constructor.
Qed.

Lemma sort_entries_perm (l : list Entry.t) : Permutation l (sort_entries l).
Proof.
  induction l as [|x l IH]; cbn; [constructor|].
  rewrite <- insert_entry_perm. now constructor.
Qed.



(** [Object.values] lists every own entry once; where no key is an array
    index it lists them in creation order. *)
Lemma insert_index_perm (x : N * Entry.t) (l : list (N * Entry.t)) :
  Permutation (x :: l) (insert_index x l).
Proof.
  induction l as [|y l IH]; cbn; [reflexivity|].
  destruct (fst x <=? fst y)%N; [reflexivity|].
  rewrite perm_swap. now constructor.
Qed.

Lemma Object_values_perm (b : Board) : Permutation (map snd b) (Object_values b).
Proof.
  unfold Object_values.
  assert (Hsort : forall l, Permutation l (fold_right insert_index [] l)).
  { induction l as [|x l IH]; cbn; [constructor|].
    rewrite <- insert_index_perm. now constructor. }
  rewrite <- (Permutation_map snd (Hsort (indexed b))).
  unfold indexed, named. induction b as [|[k e] b IH]; cbn; [constructor|].
  destruct (array_index k); cbn.
  - now constructor.
  - now apply Permutation_cons_app.
Qed.

Lemma Object_values_named (b : Board) :
  Forall (fun k => array_index k = None) (keys b) -> Object_values b = map snd b.
Proof.
  unfold Object_values, indexed, named, keys.
  induction b as [|[k e] b IH]; cbn; [reflexivity|].
  intros H. inversion H as [|? ? Hk Hb]; subst. rewrite Hk. cbn.
  specialize (IH Hb).
  destruct (flat_map _ b) as [|x l] eqn:E.
  - cbn in IH |- *. now rewrite IH.
  - exfalso. clear IH. revert E Hb. clear. induction b as [|[k' e'] b IH]; cbn; [discriminate|].
    intros E Hb. inversion Hb as [|? ? Hk Hb']; subst. rewrite Hk in E. cbn in E. auto.
Qed.

(** *** The result *)

Definition all_players (ts : list Tournament.t) : list Player.t :=
  flat_map Tournament.players ts.







(** The collection of two finished tournaments: Alice beat Bob 3-1 in the
    first, Carol beat Alice 2-0 in the second. *)
Definition two_cups : list Tournament.t :=
  [ Tournament.mk "t_a" "Cup A" "single" "u_admin" [alice; bob] "2025-01-01T00:00:00.000Z"
      "manual" [] []
      [Match.mk "m_aaaa" [alice; bob] [3%Z; 1%Z] (Some "p_alice") None (Some "t_a")]
      (Meta.mk None
         (Some [[Match.mk "m_aaaa" [alice; bob] [3%Z; 1%Z] (Some "p_alice") None None]])
         None None);
    Tournament.mk "t_b" "Cup B" "single" "u_admin" [alice; carol] "2025-01-03T00:00:00.000Z"
      "manual" [] []
      [Match.mk "m_bbbb" [alice; carol] [0%Z; 2%Z] (Some "p_carol") None (Some "t_b")]
      (Meta.mk None
         (Some [[Match.mk "m_bbbb" [alice; carol] [0%Z; 2%Z] (Some "p_carol") None None]])
         None None) ].

Lemma two_cups_leaderboard :
  computeLeaderboard two_cups =
  Some [ Entry.mk (Some "p_alice") "Alice" 1 1 3;
         Entry.mk (Some "p_carol") "Carol" 1 0 3;
         Entry.mk (Some "p_bob") "Bob" 0 1 0 ].
Proof. reflexivity. Qed.




(** ** Concrete runs *)


Lemma updateMatch_unknown_id_is_noop_witness :
  updateMatch "t_zzz" "m_aaaa" (mkUpdate None None (Some (Some "2025-09-01T15:00:00"))) demo_single
    = demo_single /\
  updateMatch "t_a" "m_zzz" (mkUpdate None None (Some (Some "2025-09-01T15:00:00"))) demo_single
    = demo_single.
Proof.
  split; apply updateMatch_unknown_id_is_noop.
  - left. intros t Hin. cbn in Hin. destruct Hin as [<-|[]]. cbn. discriminate.
  - right. intros t Hin _. cbn in Hin. destruct Hin as [<-|[]]. cbn.
    intros [H|[H|[]]]; discriminate H.
Defined.

Lemma setScore_derives_winner_witness :
  exists ts',
    setScore demo_single_t demo_match 3 1 demo_single = Some ts' /\
    Forall (fun t' =>
              Tournament.id t' = "t_a" ->
              Forall (fun m' => Match.id m' = "m_aaaa" ->
                        Match.score m' = [3%Z; 1%Z] /\ Match.winner m' = Some "p_alice")
                (Tournament.matches t' ++ concat (rounds_of t'))) ts'.
Proof.
  destruct (setScore_derives_winner demo_single_t demo_match alice bob 3 1 demo_single eq_refl)
    as [ts' (H1 & _ & _ & H4)].
  exists ts'. split; [exact H1 | exact H4].
Defined.



(** A player whose id is the empty string: not [null], yet falsy. *)
Definition ghost : Player.t := Player.mk (Some "") "Ghost".

(** C3 as stated fails: Ghost and Bob have distinct ids, neither of them
    [null], but the single round generated for them holds no match, because
    [a.id && b.id] takes the empty id for a bye. *)
Lemma generateRoundRobin_empty_id_never_plays :
  NoDup (map Player.id [ghost; bob]) /\
  Forall (fun p => Player.id p <> None) [ghost; bob] /\
  ghost <> bob /\
  Bracket.rounds (fst (generateRoundRobin demo_rnd [ghost; bob] 0)) = [[]] /\
  length (filter (plays ghost bob)
            (concat (Bracket.rounds (fst (generateRoundRobin demo_rnd [ghost; bob] 0))))) = 0.
Proof.
  split; [|split; [|split; [|split]]]; try reflexivity; try discriminate.
  - constructor; [intros [H|[]]; discriminate H|].
    constructor; [intros [] | constructor].
  - repeat constructor; discriminate.
Qed.

Lemma generateRoundRobin_every_pair_once_witness :
  let rounds := Bracket.rounds (fst (generateRoundRobin demo_rnd [alice; bob; carol] 0)) in
  (forall a b, In a [alice; bob; carol] -> In b [alice; bob; carol] -> a <> b ->
               length (filter (plays a b) (concat rounds)) = 1) /\
  Forall (fun r => NoDup (flat_map Match.players r)) rounds.
Proof.
  apply generateRoundRobin_every_pair_once.
  - cbn. constructor; [intros [H|[H|[]]]; discriminate H|].
    constructor; [intros [H|[]]; discriminate H|].
    constructor; [intros [] | constructor].
  - repeat constructor.
Defined.

(** The three rounds generated for Alice, Bob and Carol. *)
Lemma generateRoundRobin_three_players :
  map (map Match.players)
    (Bracket.rounds (fst (generateRoundRobin demo_rnd [alice; bob; carol] 0)))
  = [ [[bob; carol]]; [[alice; carol]]; [[alice; bob]] ].
Proof. reflexivity. Qed.

(** * Further properties of the generators *)

(** ** Single elimination: who is placed where *)

(** Consecutive pairs of a list, the last element alone when the length is
    odd. *)
Fixpoint chunk2 {A} (l : list A) : list (list A) :=
  match l with
  | [] => []
  | a :: tl =>
      match tl with
      | [] => [[a]]
      | b :: rest => [a; b] :: chunk2 rest
      end
  end.

Lemma concat_chunk2 {A} (l : list A) : concat (chunk2 l) = l.
Proof.
  assert (H : forall n (c : list A), length c <= n -> concat (chunk2 c) = c);
    [| now apply (H (length l))].
  induction n as [|n IH]; intros c Hc.
  - destruct c; [reflexivity | simpl in Hc; lia].
  - destruct c as [|a [|b rest]]; try reflexivity.
    cbn. rewrite IH; [reflexivity | simpl in Hc; lia].
Qed.

(** A match as the generators allocate it: nothing played, nothing
    scheduled. *)
Definition unplayed (m : Match.t) : Prop :=
  Match.score m = [0%Z; 0%Z] /\ Match.winner m = None /\ Match.scheduledAt m = None.

Lemma pair_up_players (rnd : nat -> string) (cur : list Match.t) (k : nat) :
  map Match.players (fst (pair_up rnd cur k)) =
  map filter_Boolean (chunk2 (map (fun s => hd_error (Match.players s)) cur)) /\
  Forall unplayed (fst (pair_up rnd cur k)).
Proof.
  assert (H : forall n (c : list Match.t) k', length c <= n ->
            map Match.players (fst (pair_up rnd c k')) =
            map filter_Boolean (chunk2 (map (fun s => hd_error (Match.players s)) c)) /\
            Forall unplayed (fst (pair_up rnd c k')));
    [| now apply (H (length cur))].
  clear. induction n as [|n IH]; intros cur k Hle.
  - destruct cur; [split; [reflexivity | constructor] | simpl in Hle; lia].
  - destruct cur as [|s1 [|s2 rest]].
    + split; [reflexivity | constructor].
    + cbn. split; [|repeat constructor].
      destruct (hd_error (Match.players s1)); reflexivity.
    + cbn [pair_up]. unfold bind, ret. cbn [fst snd map chunk2].
      destruct (IH rest (snd (new_match rnd
                  [hd_error (Match.players s1); hd_error (Match.players s2)] k))
                  ltac:(simpl in Hle; lia)) as [IH1 IH2].
      rewrite IH1. split; [reflexivity|]. constructor; [|exact IH2].
      repeat split.
Qed.

Lemma filter_Boolean_Some (c : list Player.t) : filter_Boolean (map Some c) = c.
Proof.
  unfold filter_Boolean. induction c as [|p c IH]; [reflexivity|].
  cbn. now rewrite IH.
Qed.

Lemma filter_Boolean_somes (l : list (list Player.t)) :
  map filter_Boolean (map (map Some) l) = l.
Proof.
  induction l as [|c l IH]; [reflexivity|]. cbn [map].
  now rewrite IH, filter_Boolean_Some.
Qed.

Lemma chunk2_map {A B} (f : A -> B) (l : list A) :
  chunk2 (map f l) = map (map f) (chunk2 l).
Proof.
  assert (H : forall n (c : list A), length c <= n ->
            chunk2 (map f c) = map (map f) (chunk2 c));
    [| now apply (H (length l))].
  induction n as [|n IH]; intros c Hc.
  - destruct c; [reflexivity | simpl in Hc; lia].
  - destruct c as [|a [|b rest]]; try reflexivity.
    cbn. rewrite IH; [reflexivity | simpl in Hc; lia].
Qed.

Lemma chunk2_nones (n : nat) :
  Forall (fun c => filter_Boolean c = []) (chunk2 (repeat (@None Player.t) n)).
Proof.
  assert (H : forall b c, c <= b ->
            Forall (fun c => filter_Boolean c = []) (chunk2 (repeat (@None Player.t) c)));
    [| now apply (H n)].
  induction b as [|b IH]; intros c Hc.
  - replace c with 0 by lia. constructor.
  - destruct c as [|[|c]]; [constructor | repeat constructor |].
    cbn. constructor; [reflexivity | apply IH; lia].
Qed.

Lemma mapM_placeholder_players (rnd : nat -> string) (ms : list Match.t) (k : nat) :
  map (fun s => hd_error (Match.players s)) (fst (mapM (placeholder rnd) ms k)) =
  repeat None (length ms).
Proof.
  revert k. induction ms as [|m ms IH]; intros k; [reflexivity|].
  cbn [mapM]. unfold bind, ret. cbn [fst snd map length repeat]. now rewrite IH.
Qed.

(** Rounds built from placeholder slots hold matches without participants. *)
Lemma rounds_loop_later_empty (rnd : nat -> string) (cur : list Match.t) (k : nat) :
  Forall (fun s => Match.players s = []) cur ->
  Forall (Forall (fun m => Match.players m = [] /\ unplayed m)) (fst (rounds_loop rnd cur k)).
Proof.
  funelim (rounds_loop rnd cur k); intros Hcur; [constructor|].
  unfold push_round. cbn [fst]. constructor.
  - unfold round_step. cbn [fst].
    destruct (pair_up_players rnd cur k) as [Hp Hu].
    assert (Hempty : Forall (fun ps : list Player.t => ps = [])
                       (map Match.players (fst (pair_up rnd cur k)))).
    { rewrite Hp.
      replace (map (fun s => hd_error (Match.players s)) cur)
        with (repeat (@None Player.t) (length cur)).
      - apply Forall_map. exact (chunk2_nones (length cur)).
      - clear -Hcur. induction Hcur as [|s c Hs _ IH]; [reflexivity|].
        cbn. rewrite Hs, IH. reflexivity. }
    rewrite Forall_map in Hempty. rewrite Forall_forall in *.
    intros m Hm. split; [now apply Hempty | now apply Hu].
  - apply H. unfold round_step. cbn [fst snd].
    apply (mapM_Forall (placeholder rnd) (fun s => Match.players s = [])).
    intros a k'. reflexivity.
Qed.

Lemma mapM_first_slot_players (rnd : nat -> string) (ps : list Player.t) (k : nat) :
  map (fun s => hd_error (Match.players s)) (fst (mapM (first_slot rnd) ps k)) =
  map Some ps.
Proof.
  revert k. induction ps as [|p ps IH]; intros k; [reflexivity|].
  cbn [mapM]. unfold bind, ret. cbn [fst snd map]. now rewrite IH.
Qed.

(** X1. With fewer than two players the single-elimination bracket has no
    rounds.  Otherwise its first round lists the shuffled players two by two in
    order (a last odd player alone: a bye), every later round consists of
    matches without participants (winners are not advanced by the generator),
    and every match is allocated unplayed and unscheduled. *)
Theorem generateSingleElim_placement
    (rnd : nat -> string) (shuffle : list Player.t -> list Player.t)
    (players : list Player.t) (k : nat) :
  match Bracket.rounds (fst (generateSingleElim rnd shuffle players k)) with
  | [] => length (shuffle players) <= 1
  | first :: later =>
      2 <= length (shuffle players) /\
      map Match.players first = chunk2 (shuffle players) /\
      flat_map Match.players first = shuffle players /\
      Forall unplayed first /\
      Forall (Forall (fun m => Match.players m = [] /\ unplayed m)) later
  end.
Proof.
  unfold generateSingleElim. cbn [fst Bracket.rounds].
  set (slots := mapM (first_slot rnd) (shuffle players) k).
  assert (Hlen : length (fst slots) = length (shuffle players))
    by apply length_mapM.
  rewrite rounds_loop_equation_1.
  destruct (le_lt_dec (length (fst slots)) 1) as [Hle|Hgt]; cbn.
  - lia.
  - destruct (pair_up_players rnd (fst slots) (snd slots)) as [Hp Hu].
    assert (Hfirst : map Match.players (fst (pair_up rnd (fst slots) (snd slots)))
                     = chunk2 (shuffle players)).
    { rewrite Hp. unfold slots. rewrite mapM_first_slot_players, chunk2_map.
      apply filter_Boolean_somes. }
    split; [lia|]. split; [exact Hfirst|]. split.
    + rewrite flat_map_concat_map, Hfirst. apply concat_chunk2.
    + split; [exact Hu|]. apply rounds_loop_later_empty.
      apply (mapM_Forall (placeholder rnd) (fun s => Match.players s = [])).
      intros a k'. reflexivity.
Qed.

(** ** Round robin: shape of the schedule *)

Definition real_pair (players : list Player.t) (m : Match.t) : Prop :=
  unplayed m /\
  exists a b, Match.players m = [a; b] /\ In a players /\ In b players /\
              truthy (Player.id a) = true /\ truthy (Player.id b) = true.

Lemma rr_matches_real (rnd : nat -> string) (p : list Player.t) (n : nat)
    (idx : list nat) (k : nat) :
  Forall (real_pair p) (fst (rr_matches rnd p n idx k)).
Proof.
  revert k. induction idx as [|i idx IH]; intros k; [constructor|].
  cbn [rr_matches].
  destruct (nth_error p i) as [a|] eqn:Ha; [|apply IH].
  destruct (nth_error p (n - 1 - i)) as [b|] eqn:Hb; [|apply IH].
  destruct (truthy (Player.id a)) eqn:Ta; [|apply IH].
  destruct (truthy (Player.id b)) eqn:Tb; [|apply IH].
  cbn [andb]. unfold bind, ret. cbn [fst snd]. constructor; [|apply IH].
  split; [repeat split|]. exists a, b. cbn.
  repeat split; eauto using nth_error_In.
Qed.

Lemma rr_rounds_real (rnd : nat -> string) (cnt n : nat) (p : list Player.t) (k : nat) :
  2 <= length p ->
  Forall (Forall (real_pair p)) (fst (rr_rounds rnd cnt n p k)).
Proof.
  revert p k. induction cnt as [|cnt IH]; intros p k Hp; [constructor|].
  cbn [rr_rounds]. unfold bind, ret. cbn [fst snd]. constructor.
  - apply rr_matches_real.
  - eapply Forall_impl; [|apply IH; rewrite rotate_length; lia].
    intros r Hr. eapply Forall_impl; [|exact Hr].
    intros m (Hu & a & b & Hm & Ha & Hb & Ta & Tb). split; [exact Hu|].
    exists a, b. pose proof (rotate_perm p Hp) as Hperm. symmetry in Hperm.
    repeat split; eauto using Permutation_in.
Qed.

Lemma rr_rounds_length (rnd : nat -> string) (cnt n : nat) (p : list Player.t) (k : nat) :
  length (fst (rr_rounds rnd cnt n p k)) = cnt.
Proof.
  revert p k. induction cnt as [|cnt IH]; intros p k; [reflexivity|].
  cbn [rr_rounds]. unfold bind, ret. cbn [fst snd length]. now rewrite IH.
Qed.

Lemma generateRoundRobin_length (rnd : nat -> string) (players : list Player.t) (k : nat) :
  length (Bracket.rounds (fst (generateRoundRobin rnd players k))) =
  (if Nat.odd (length players) then length players else length players - 1).
Proof.
  unfold generateRoundRobin, bind, ret. cbn [fst Bracket.rounds].
  rewrite rr_rounds_length.
  destruct (Nat.odd (length players)); [|reflexivity].
  rewrite length_app. cbn. lia.
Qed.

Lemma padded_real (players : list Player.t) (z : Player.t) :
  In z (padded players) -> truthy (Player.id z) = true -> In z players.
Proof.
  intros Hz Tz. unfold padded in Hz.
  destruct (Nat.odd (length players)); [|exact Hz].
  apply in_app_or in Hz. destruct Hz as [Hz|[<-|[]]]; [exact Hz | discriminate Tz].
Qed.

Lemma generateRoundRobin_real (rnd : nat -> string) (players : list Player.t) (k : nat) :
  Forall (Forall (real_pair players)) (Bracket.rounds (fst (generateRoundRobin rnd players k))).
Proof.
  unfold generateRoundRobin, bind, ret. cbn [fst Bracket.rounds].
  fold (padded players).
  destruct (padded_even players) as [h Hh].
  destruct h as [|h].
  { rewrite Hh. cbn. constructor. }
  eapply Forall_impl; [|apply rr_rounds_real; lia].
  intros r Hr. eapply Forall_impl; [|exact Hr].
  intros m (Hu & a & b & Hm & Ha & Hb & Ta & Tb). split; [exact Hu|].
  exists a, b. repeat split; auto using padded_real.
Qed.

(** X2. For N players the round-robin generator returns N - 1 rounds when N
    is even and N rounds when N is odd (none for N = 0).  Every match it
    allocates is unplayed and unscheduled and pairs two players of the input
    list whose ids are truthy: the bye marker is never scheduled. *)
Theorem generateRoundRobin_shape
    (rnd : nat -> string) (players : list Player.t) (k : nat) :
  let rounds := Bracket.rounds (fst (generateRoundRobin rnd players k)) in
  length rounds = (if Nat.odd (length players) then length players
                   else length players - 1) /\
  Forall (Forall (real_pair players)) rounds.
Proof.
  cbn zeta. split.
  - apply generateRoundRobin_length.
  - apply generateRoundRobin_real.
Qed.

(** ** Round robin: how many matches *)

Lemma length_flat_map_ones {A B} (g : A -> list B) (l : list A) :
  (forall x, In x l -> length (g x) = 1) -> length (flat_map g l) = length l.
Proof.
  induction l as [|x l IH]; intros H; [reflexivity|].
  cbn. rewrite length_app, (H x (or_introl eq_refl)), IH; [reflexivity|].
  intros y Hy. apply H. now right.
Qed.

Lemma length_flat_map_but_one {A B} (g : A -> list B) (l : list A) (x0 : A) :
  NoDup l -> In x0 l -> g x0 = [] ->
  (forall x, In x l -> x <> x0 -> length (g x) = 1) ->
  length (flat_map g l) = length l - 1.
Proof.
  induction l as [|x l IH]; intros Hnd Hin H0 H1; [contradiction|].
  inversion Hnd as [|? ? Hx Hl]; subst. cbn. rewrite length_app.
  destruct Hin as [->|Hin].
  - rewrite H0, length_flat_map_ones; [cbn; lia|].
    intros y Hy. apply H1; [now right|]. intros ->. contradiction.
  - rewrite (H1 x (or_introl eq_refl)) by (intros ->; contradiction).
    rewrite IH; auto.
    + destruct l; [contradiction | cbn; lia].
    + intros y Hy. apply H1. now right.
Qed.

Lemma length_concat_const {A} (rs : list (list A)) (c : nat) :
  Forall (fun r => length r = c) rs -> length (concat rs) = length rs * c.
Proof.
  induction 1 as [|r rs Hr _ IH]; [reflexivity|].
  cbn. rewrite length_app, Hr, IH. reflexivity.
Qed.

Lemma pairing_one (P : list Player.t) (h i : nat) (a b : Player.t) :
  nth_error P i = Some a -> nth_error P (2 * h - 1 - i) = Some b ->
  truthy (Player.id a) = true -> truthy (Player.id b) = true ->
  length (pairing P (2 * h) i) = 1.
Proof. unfold pairing. intros -> -> -> ->. reflexivity. Qed.

Lemma nth_error_get {A} (l : list A) (i : nat) :
  i < length l -> exists a, nth_error l i = Some a.
Proof.
  intros H. destruct (nth_error l i) as [a|] eqn:E; [now exists a|].
  apply nth_error_None in E. lia.
Qed.

(** A round read from an array of [2h] players, all of them real, has [h]
    matches. *)
Lemma round_size_full (P : list Player.t) (h : nat) :
  length P = 2 * h ->
  (forall z, In z P -> truthy (Player.id z) = true) ->
  length (round_lineups P (2 * h) (seq 0 h)) = h.
Proof.
  intros Hlen Hreal. unfold round_lineups.
  rewrite length_flat_map_ones; [apply length_seq|].
  intros i Hi. apply in_seq in Hi.
  destruct (nth_error_get P i ltac:(lia)) as [a Ha].
  destruct (nth_error_get P (2 * h - 1 - i) ltac:(lia)) as [b Hb].
  eapply pairing_one; eauto using nth_error_In.
Qed.

(** With the bye marker among [2h] distinct players, the others real, the
    round has [h - 1] matches. *)
Lemma round_size_bye (P : list Player.t) (h : nat) :
  NoDup P -> length P = 2 * h -> In BYE P ->
  (forall z, In z P -> z <> BYE -> truthy (Player.id z) = true) ->
  length (round_lineups P (2 * h) (seq 0 h)) = h - 1.
Proof.
  intros Hnd Hlen Hbye Hreal. unfold round_lineups.
  destruct (In_nth_error P BYE Hbye) as [q Hq].
  assert (Hqn : q < 2 * h) by (rewrite <- Hlen; apply nth_error_Some; congruence).
  rewrite (length_flat_map_but_one _ _ (Nat.min q (2 * h - 1 - q))).
  - now rewrite length_seq.
  - apply seq_NoDup.
  - apply in_seq. lia.
  - unfold pairing.
    destruct (Nat.le_gt_cases q (2 * h - 1 - q)) as [Hle|Hgt].
    + rewrite Nat.min_l by lia. rewrite Hq.
      destruct (nth_error P (2 * h - 1 - q)); reflexivity.
    + rewrite Nat.min_r by lia.
      replace (2 * h - 1 - (2 * h - 1 - q)) with q by lia. rewrite Hq.
      destruct (nth_error P (2 * h - 1 - q)) as [a|]; [|reflexivity].
      cbn. now rewrite andb_false_r.
  - intros i Hi Hne. apply in_seq in Hi.
    destruct (nth_error_get P i ltac:(lia)) as [a Ha].
    destruct (nth_error_get P (2 * h - 1 - i) ltac:(lia)) as [b Hb].
    eapply pairing_one; eauto; apply Hreal; eauto using nth_error_In.
    + intros ->. pose proof (index_unique P Hnd _ _ _ Ha Hq). lia.
    + intros ->. pose proof (index_unique P Hnd _ _ _ Hb Hq). lia.
Qed.

(** X3. For N players with distinct truthy ids every round of the round-robin
    schedule holds floor(N/2) matches, and the schedule holds N(N-1)/2 matches
    in all. *)
Theorem generateRoundRobin_match_count
    (rnd : nat -> string) (players : list Player.t) (k : nat) :
  NoDup (map Player.id players) ->
  Forall (fun p => truthy (Player.id p) = true) players ->
  let rounds := Bracket.rounds (fst (generateRoundRobin rnd players k)) in
  Forall (fun r => length r = length players / 2) rounds /\
  length (concat rounds) = length players * (length players - 1) / 2.
Proof.
  intros Hnd Hreal rounds.
  pose proof (generateRoundRobin_rounds rnd players k) as Hrounds.
  fold rounds in Hrounds.
  pose proof (padded_nodup players Hnd Hreal) as Hp0.
  destruct (padded_even players) as [h Hh].
  pose proof (generateRoundRobin_length rnd players k) as Hcount.
  fold rounds in Hcount.
  rewrite Hh in Hrounds.
  replace (2 * h / 2) with h in Hrounds
    by (symmetry; rewrite Nat.mul_comm; apply Nat.div_mul; lia).
  rewrite Forall_forall in Hreal.
  assert (Hsize : Forall (fun r : list Match.t =>
                    length r = if Nat.odd (length players) then h - 1 else h) rounds).
  { assert (H : Forall (fun l : list (list Player.t) =>
                  length l = if Nat.odd (length players) then h - 1 else h)
                  (map (map Match.players) rounds)).
    { rewrite Hrounds. apply Forall_map, Forall_forall. intros r Hr. apply in_seq in Hr.
      assert (H1 : 2 <= length (padded players)) by lia.
      pose proof (lineup_perm r (padded players) H1) as Hperm.
      pose proof (lineup_length r (padded players) H1) as Hlen.
      assert (HP : NoDup (lineup r (padded players)))
        by (eapply Permutation_NoDup; eauto).
      unfold padded in *. destruct (Nat.odd (length players)) eqn:Hodd.
      - apply round_size_bye; [exact HP | lia | |].
        + eapply Permutation_in; [exact Hperm|]. apply in_or_app. right. now left.
        + intros z Hz Hne. symmetry in Hperm.
          apply (Permutation_in _ Hperm) in Hz. apply in_app_or in Hz.
          destruct Hz as [Hz|[<-|[]]]; [now apply Hreal | contradiction].
      - apply round_size_full; [lia|].
        intros z Hz. symmetry in Hperm. apply Hreal.
        eapply Permutation_in; eauto. }
    rewrite Forall_map in H. eapply Forall_impl; [|exact H].
    intros r Hr. cbn beta in Hr. now rewrite length_map in Hr. }
  assert (Hhalf : (if Nat.odd (length players) then h - 1 else h) = length players / 2).
  { unfold padded in Hh. destruct (Nat.odd (length players)) eqn:Hodd.
    - rewrite length_app in Hh. cbn in Hh.
      replace (length players) with (1 + (h - 1) * 2) by lia.
      rewrite Nat.div_add by lia. reflexivity.
    - replace (length players) with (h * 2) by lia. now rewrite Nat.div_mul by lia. }
  split.
  - rewrite <- Hhalf. exact Hsize.
  - rewrite (length_concat_const _ _ Hsize).
    etransitivity; [apply (f_equal2 Nat.mul); [exact Hcount | reflexivity]|].
    unfold padded in Hh. destruct (Nat.odd (length players)) eqn:Hodd.
    + rewrite length_app in Hh. cbn in Hh.
      replace (length players * (length players - 1))
        with (length players * (h - 1) * 2) by nia.
      now rewrite Nat.div_mul by lia.
    + replace (length players * (length players - 1))
        with ((length players - 1) * h * 2) by nia.
      now rewrite Nat.div_mul by lia.
Qed.

Lemma generateRoundRobin_match_count_witness :
  let rounds := Bracket.rounds (fst (generateRoundRobin demo_rnd [alice; bob; carol] 0)) in
  Forall (fun r => length r = 3 / 2) rounds /\
  length (concat rounds) = 3 * (3 - 1) / 2.
Proof.
  refine (generateRoundRobin_match_count demo_rnd [alice; bob; carol] 0 _ _).
  - cbn. constructor; [intros [H|[H|[]]]; discriminate H|].
    constructor; [intros [H|[]]; discriminate H|].
    constructor; [intros [] | constructor].
  - repeat constructor.
Defined.

(** * Further properties of the tournament lifecycle *)

(** ** Creation: the two views of a new tournament *)

Lemma rounds_loop_unplayed (rnd : nat -> string) (cur : list Match.t) (k : nat) :
  Forall unplayed (concat (fst (rounds_loop rnd cur k))).
Proof.
  funelim (rounds_loop rnd cur k); [constructor|].
  unfold push_round. cbn [fst concat]. apply Forall_app. split; [|assumption].
  unfold round_step. cbn [fst]. apply pair_up_players.
Qed.

Lemma clone_unplayed (w l : Match.t) : clone_of w l -> unplayed w -> unplayed l.
Proof.
  intros (_ & Hs & Hw & Ha & _) (Us & Uw & Ua). unfold unplayed. now rewrite Hs, Hw, Ha.
Qed.

Lemma Forall2_Forall_r {A B} (R : A -> B -> Prop) (P : A -> Prop) (Q : B -> Prop)
    (xs : list A) (ys : list B) :
  (forall x y, R x y -> P x -> Q y) -> Forall2 R xs ys -> Forall P xs -> Forall Q ys.
Proof.
  intros H. induction 1 as [|x y xs ys Hxy _ IH]; intros HP; [constructor|].
  inversion HP; subst. constructor; eauto.
Qed.

(** A flat entry and the structural entry at the same place: same id, same
    field values. *)
Definition same_match (m s : Match.t) : Prop :=
  Match.id m = Match.id s /\ same_fields m s.

Lemma Forall2_same_match_refl (ms : list Match.t) : Forall2 same_match ms ms.
Proof. induction ms; constructor; auto. repeat split. Qed.

Lemma Forall2_same_match_tid (tid : string) (ms : list Match.t) :
  Forall2 same_match (map (with_tournamentId tid) ms) ms.
Proof. induction ms; cbn; constructor; auto. repeat split. Qed.

(** X4. Whatever the format, [createTournament] returns a tournament whose
    flat list and structural view hold the same matches in the same order
    (same ids, same field values, position by position), all of them unplayed
    and unscheduled; it puts that tournament in front of the stored collection
    and leaves the tournaments already stored as they are.  An unknown format
    gives a tournament without matches. *)
Theorem createTournament_views_aligned
    (rnd : nat -> string) (shuffle : list Player.t -> list Player.t)
    (title type organizerId : string) (players : list Player.t)
    (scheduleMode now : string) (ts : list Tournament.t) (k : nat) :
  let r := fst (createTournament rnd shuffle title type organizerId players
                  scheduleMode now ts k) in
  Forall2 same_match (Tournament.matches (fst r)) (structural (fst r)) /\
  Forall unplayed (Tournament.matches (fst r)) /\
  snd r = fst r :: ts /\
  (type <> "single" -> type <> "roundrobin" -> type <> "double" -> type <> "league" ->
   Tournament.matches (fst r) = [] /\ Tournament.meta (fst r) = Meta.empty).
Proof.
  cbn zeta. unfold createTournament, bind, ret. cbn [fst snd].
  destruct (String.eqb_spec type "single") as [->|N1].
  { cbn [fst snd]. unfold structural, rounds_of. cbn. rewrite app_nil_r.
    split; [apply Forall2_same_match_tid|]. split; [|split; [reflexivity | congruence]].
    apply Forall_map. unfold generateSingleElim. cbn [fst Bracket.rounds].
    eapply Forall_impl; [|apply rounds_loop_unplayed]. intros m H. exact H. }
  destruct (String.eqb_spec type "roundrobin") as [->|N2].
  { cbn [fst snd]. unfold structural, rounds_of. cbn. rewrite app_nil_r.
    split; [apply Forall2_same_match_refl|]. split; [|split; [reflexivity | congruence]].
    apply Forall_concat.
    pose proof (generateRoundRobin_real rnd players (S k)) as H.
    eapply Forall_impl; [|exact H]. intros r Hr.
    eapply Forall_impl; [|exact Hr]. now intros m [Hu _]. }
  destruct (String.eqb_spec type "double") as [->|N3].
  { cbn [fst snd]. unfold generateDoubleElim, bind, ret. cbn [fst snd].
    set (single := generateSingleElim rnd shuffle players (S k)).
    unfold structural, rounds_of.
    cbn [Tournament.matches Tournament.meta Meta.rounds Meta.winners Meta.losers
         opt_rounds concat app].
    split; [apply Forall2_same_match_refl|]. split; [|split; [reflexivity | congruence]].
    assert (Hwin : Forall unplayed (concat (Bracket.rounds (fst single)))).
    { unfold single, generateSingleElim. cbn [fst Bracket.rounds].
      apply rounds_loop_unplayed. }
    apply Forall_app. split; [exact Hwin|].
    pose proof (clone_rounds_shape rnd (Bracket.rounds (fst single)) (snd single)) as Hclone.
    apply Forall2_concat in Hclone.
    eapply Forall2_Forall_r; [|exact Hclone|exact Hwin].
    intros w l. apply clone_unplayed. }
  destruct (String.eqb_spec type "league") as [->|N4].
  { cbn [fst snd]. unfold structural, rounds_of. cbn. rewrite app_nil_r.
    split; [apply Forall2_same_match_refl|]. split; [|split; [reflexivity | congruence]].
    apply Forall_concat.
    pose proof (generateRoundRobin_real rnd players (S k)) as H.
    eapply Forall_impl; [|exact H]. intros r Hr.
    eapply Forall_impl; [|exact Hr]. now intros m [Hu _]. }
  cbn. repeat split; constructor.
Qed.

(** ** Creation: distinct identifiers *)

(** The identifier made by the draw of number [j]. *)
Definition uid_of (rnd : nat -> string) (prefix : string) (j : nat) : string :=
  fst (uid rnd prefix j).

Lemma append_inj (s a b : string) : String.append s a = String.append s b -> a = b.
Proof. induction s as [|c s IH]; cbn; [auto|]. intros [= H]. auto. Qed.

Lemma uid_of_inj (rnd : nat -> string) (prefix : string) :
  (forall i j, rnd i = rnd j -> i = j) ->
  forall i j, uid_of rnd prefix i = uid_of rnd prefix j -> i = j.
Proof.
  intros Hinj i j H. unfold uid_of, uid in H. cbn in H.
  apply append_inj in H. injection H as H. now apply Hinj.
Qed.

Lemma NoDup_map_inj {A B} (f : A -> B) (l : list A) :
  (forall x y, f x = f y -> x = y) -> NoDup l -> NoDup (map f l).
Proof.
  intros Hf. induction 1 as [|x l Hx _ IH]; cbn; constructor; [|exact IH].
  intros Hin. apply in_map_iff in Hin. destruct Hin as [y [Hy Hyl]].
  apply Hf in Hy. now subst.
Qed.

Lemma mapM_one_draw {A B} (f : A -> Gen B) (l : list A) (k : nat) :
  (forall a k', snd (f a k') = S k') -> snd (mapM f l k) = k + length l.
Proof.
  intros Hf. revert k. induction l as [|a l IH]; intros k; cbn; [lia|].
  unfold bind, ret. cbn [snd]. rewrite IH, Hf. lia.
Qed.

Lemma pair_up_draws (rnd : nat -> string) (cur : list Match.t) (k : nat) :
  map Match.id (fst (pair_up rnd cur k)) =
    map (uid_of rnd "m") (seq k (length (fst (pair_up rnd cur k)))) /\
  snd (pair_up rnd cur k) = k + length (fst (pair_up rnd cur k)).
Proof.
  assert (H : forall n (c : list Match.t) k', length c <= n ->
            map Match.id (fst (pair_up rnd c k')) =
              map (uid_of rnd "m") (seq k' (length (fst (pair_up rnd c k')))) /\
            snd (pair_up rnd c k') = k' + length (fst (pair_up rnd c k')));
    [| now apply (H (length cur))].
  clear. induction n as [|n IH]; intros cur k Hle.
  - destruct cur; [split; [reflexivity | cbn; lia] | simpl in Hle; lia].
  - destruct cur as [|s1 [|s2 rest]].
    + split; [reflexivity | cbn; lia].
    + cbn. split; [reflexivity | lia].
    + cbn [pair_up]. unfold bind, ret. cbn [fst snd map length seq].
      destruct (IH rest (S k) ltac:(simpl in Hle; lia)) as [IH1 IH2].
      change (snd (new_match rnd [hd_error (Match.players s1);
                                  hd_error (Match.players s2)] k)) with (S k).
      rewrite IH1, IH2. split; [reflexivity | lia].
Qed.

(** The identifiers of a single-elimination bracket come from distinct draws
    of [uid("m")], all made between the start and the end of the loop. *)
Lemma rounds_loop_draws (rnd : nat -> string) (cur : list Match.t) (k : nat) :
  k <= snd (rounds_loop rnd cur k) /\
  exists js, map Match.id (concat (fst (rounds_loop rnd cur k))) = map (uid_of rnd "m") js /\
             NoDup js /\
             Forall (fun j => k <= j < snd (rounds_loop rnd cur k)) js.
Proof.
  funelim (rounds_loop rnd cur k).
  - split; [cbn; lia|]. exists []. repeat split; constructor.
  - unfold push_round. cbn [fst snd concat].
    destruct H as [Hle [js (Hids & Hnd & Hrange)]].
    unfold round_step in *. cbn [fst snd] in *.
    destruct (pair_up_draws rnd cur k) as [Hp1 Hp2].
    set (r := fst (pair_up rnd cur k)) in *.
    assert (Hk2 : snd (mapM (placeholder rnd) r (snd (pair_up rnd cur k)))
                  = k + length r + length r).
    { rewrite mapM_one_draw by reflexivity. lia. }
    rewrite Hk2 in *. split; [lia|].
    exists (seq k (length r) ++ js).
    rewrite !map_app, Hp1, Hids. split; [reflexivity|]. split.
    + apply NoDup_app; [apply seq_NoDup | exact Hnd |].
      intros j Hj Hj'. apply in_seq in Hj. rewrite Forall_forall in Hrange.
      specialize (Hrange j Hj'). lia.
    + apply Forall_app. split.
      * apply Forall_forall. intros j Hj. apply in_seq in Hj. lia.
      * eapply Forall_impl; [|exact Hrange]. intros j Hj. cbn beta in *. lia.
Qed.

Lemma rr_matches_draws (rnd : nat -> string) (p : list Player.t) (n : nat)
    (idx : list nat) (k : nat) :
  map Match.id (fst (rr_matches rnd p n idx k)) =
    map (uid_of rnd "m") (seq k (length (fst (rr_matches rnd p n idx k)))) /\
  snd (rr_matches rnd p n idx k) = k + length (fst (rr_matches rnd p n idx k)).
Proof.
  revert k. induction idx as [|i idx IH]; intros k; [split; [reflexivity | cbn; lia]|].
  cbn [rr_matches].
  destruct (nth_error p i) as [a|]; [|apply IH].
  destruct (nth_error p (n - 1 - i)) as [b|]; [|apply IH].
  destruct (truthy (Player.id a) && truthy (Player.id b)); [|apply IH].
  unfold bind, ret. cbn [fst snd map length seq].
  destruct (IH (S k)) as [IH1 IH2].
  change (snd (uid rnd "m" k)) with (S k). rewrite IH1, IH2.
  split; [reflexivity | lia].
Qed.

Lemma rr_rounds_draws (rnd : nat -> string) (cnt n : nat) (p : list Player.t) (k : nat) :
  map Match.id (concat (fst (rr_rounds rnd cnt n p k))) =
    map (uid_of rnd "m") (seq k (length (concat (fst (rr_rounds rnd cnt n p k))))) /\
  snd (rr_rounds rnd cnt n p k) = k + length (concat (fst (rr_rounds rnd cnt n p k))).
Proof.
  revert p k. induction cnt as [|cnt IH]; intros p k; [split; [reflexivity | cbn; lia]|].
  cbn [rr_rounds]. unfold bind, ret. cbn [fst snd concat].
  destruct (rr_matches_draws rnd p n (seq 0 (n / 2)) k) as [M1 M2].
  destruct (IH (rotate p) (snd (rr_matches rnd p n (seq 0 (n / 2)) k))) as [R1 R2].
  rewrite map_app, length_app, seq_app, map_app, M1, R1, R2, M2.
  split; [reflexivity | lia].
Qed.

(** The structural identifiers of a new tournament are pairwise distinct
    when the random suffixes are. *)
Lemma createTournament_structural_ids
    (rnd : nat -> string) (shuffle : list Player.t -> list Player.t)
    (title type organizerId : string) (players : list Player.t)
    (scheduleMode now : string) (ts : list Tournament.t) (k : nat) :
  (forall i j, rnd i = rnd j -> i = j) ->
  NoDup (map Match.id
           (structural (fst (fst (createTournament rnd shuffle title type organizerId
                                    players scheduleMode now ts k))))).
Proof.
  intros Hinj.
  assert (Hsingle : forall k', NoDup (map Match.id
            (concat (Bracket.rounds (fst (generateSingleElim rnd shuffle players k')))))).
  { intros k'. unfold generateSingleElim. cbn [fst Bracket.rounds].
    destruct (rounds_loop_draws rnd (fst (mapM (first_slot rnd) (shuffle players) k'))
                (snd (mapM (first_slot rnd) (shuffle players) k')))
      as [_ [js (Hids & Hnd & _)]].
    rewrite Hids. apply NoDup_map_inj; [now apply uid_of_inj | exact Hnd]. }
  assert (Hrr : forall k', NoDup (map Match.id
            (concat (Bracket.rounds (fst (generateRoundRobin rnd players k')))))).
  { intros k'. unfold generateRoundRobin, bind, ret. cbn [fst Bracket.rounds].
    rewrite (proj1 (rr_rounds_draws rnd _ _ _ k')).
    apply NoDup_map_inj; [now apply uid_of_inj | apply seq_NoDup]. }
  unfold createTournament, bind, ret. cbn [fst snd].
  destruct (type =? "single").
  { cbn [fst snd]. unfold structural, rounds_of. cbn. rewrite app_nil_r. apply Hsingle. }
  destruct (type =? "roundrobin").
  { cbn [fst snd]. unfold structural, rounds_of. cbn. rewrite app_nil_r. apply Hrr. }
  destruct (type =? "double").
  { cbn [fst snd]. unfold generateDoubleElim, bind, ret. cbn [fst snd].
    set (single := generateSingleElim rnd shuffle players (S k)).
    unfold structural, rounds_of.
    cbn [Tournament.meta Meta.rounds Meta.winners Meta.losers opt_rounds concat app].
    rewrite map_app. apply NoDup_app.
    - apply Hsingle.
    - rewrite clone_rounds_ids.
      apply NoDup_map_inj; [now apply (uid_of_inj rnd "l") | apply seq_NoDup].
    - intros i Hw Hl. rewrite clone_rounds_ids in Hl.
      apply in_map_iff in Hl. destruct Hl as [j' [Hj' _]].
      pose proof (rounds_loop_made rnd (fst (mapM (first_slot rnd) (shuffle players) (S k)))
                    (snd (mapM (first_slot rnd) (shuffle players) (S k)))) as Hmade.
      apply in_map_iff in Hw. destruct Hw as [w [Hwi Hw]].
      rewrite Forall_forall in Hmade. destruct (Hmade w Hw) as [[j Hj] _].
      rewrite <- Hwi, Hj in Hj'. unfold uid in Hj'. cbn in Hj'. discriminate. }
  destruct (type =? "league").
  { cbn [fst snd]. unfold structural, rounds_of. cbn. rewrite app_nil_r. apply Hrr. }
  cbn. constructor.
Qed.

Lemma aligned_agree (flat str : list Match.t) :
  Forall2 same_match flat str -> NoDup (map Match.id str) ->
  map Match.id flat = map Match.id str /\
  forall m m', In m flat -> In m' str -> Match.id m = Match.id m' -> same_fields m m'.
Proof.
  induction 1 as [|m s flat str [Hid Hsame] Hrest IH]; intros Hnd.
  - split; [reflexivity | intros m m' []].
  - cbn in Hnd. inversion Hnd as [|? ? Hnotin Hnd']; subst.
    destruct (IH Hnd') as [Hids Hag]. split; [cbn; congruence|].
    intros x x' [<-|Hx] [<-|Hx'] Hxx'.
    + exact Hsame.
    + exfalso. apply Hnotin. apply in_map_iff. exists x'. split; [congruence | exact Hx'].
    + exfalso. apply Hnotin. rewrite <- Hids. apply in_map_iff.
      exists x. split; [congruence | exact Hx].
    + now apply Hag.
Qed.

Lemma demo_rnd_inj (i j : nat) : demo_rnd i = demo_rnd j -> i = j.
Proof.
  unfold demo_rnd. intros H. apply (f_equal list_ascii_of_string) in H.
  rewrite !list_ascii_of_string_of_list_ascii in H.
  apply (f_equal (@length ascii)) in H. rewrite !repeat_length in H. lia.
Qed.

Lemma createTournament_aligned
    (rnd : nat -> string) (shuffle : list Player.t -> list Player.t)
    (title type organizerId : string) (players : list Player.t)
    (scheduleMode now : string) (ts : list Tournament.t) (k : nat) :
  let t := fst (fst (createTournament rnd shuffle title type organizerId players
                       scheduleMode now ts k)) in
  Forall2 same_match (Tournament.matches t) (structural t).
Proof.
  cbn zeta. unfold createTournament, bind, ret. cbn [fst snd].
  destruct (type =? "single").
  { cbn [fst snd]. unfold structural, rounds_of. cbn. rewrite app_nil_r.
    apply Forall2_same_match_tid. }
  destruct (type =? "roundrobin").
  { cbn [fst snd]. unfold structural, rounds_of. cbn. rewrite app_nil_r.
    apply Forall2_same_match_refl. }
  destruct (type =? "double").
  { cbn [fst snd]. unfold generateDoubleElim, bind, ret. cbn [fst snd].
    unfold structural, rounds_of.
    cbn [Tournament.matches Tournament.meta Meta.rounds Meta.winners Meta.losers
         opt_rounds concat app].
    apply Forall2_same_match_refl. }
  destruct (type =? "league").
  { cbn [fst snd]. unfold structural, rounds_of. cbn. rewrite app_nil_r.
    apply Forall2_same_match_refl. }
  cbn. constructor.
Qed.

(** X5. When the random suffixes drawn by [uid] do not collide, the match
    ids of a new tournament are pairwise distinct and its flat list and
    structural view agree: creation establishes the consistency of the two
    views, whatever the format. *)
Theorem createTournament_views_agree
    (rnd : nat -> string) (shuffle : list Player.t -> list Player.t)
    (title type organizerId : string) (players : list Player.t)
    (scheduleMode now : string) (ts : list Tournament.t) (k : nat) :
  (forall i j, rnd i = rnd j -> i = j) ->
  let t := fst (fst (createTournament rnd shuffle title type organizerId players
                       scheduleMode now ts k)) in
  NoDup (map Match.id (Tournament.matches t)) /\ views_agree t.
Proof.
  intros Hinj t.
  pose proof (createTournament_aligned rnd shuffle title type organizerId players
                scheduleMode now ts k) as Hal.
  pose proof (createTournament_structural_ids rnd shuffle title type organizerId players
                scheduleMode now ts k Hinj) as Hnd.
  cbn zeta in Hal. fold t in Hal, Hnd.
  destruct (aligned_agree _ _ Hal Hnd) as [Hids Hag].
  split; [now rewrite Hids | exact Hag].
Qed.

Lemma createTournament_views_agree_witness :
  let t := fst (fst (createTournament demo_rnd (fun l => l) "Cup" "double" "u_admin"
                       [alice; bob; carol] "manual" "2025-01-01T00:00:00.000Z" [] 0)) in
  NoDup (map Match.id (Tournament.matches t)) /\ views_agree t.
Proof.
  exact (createTournament_views_agree demo_rnd (fun l => l) "Cup" "double" "u_admin"
           [alice; bob; carol] "manual" "2025-01-01T00:00:00.000Z" [] 0 demo_rnd_inj).
Defined.

(** ** Match updates: composition and frame *)

Lemma apply_update_twice (m : Match.t) (u : Update) :
  apply_update (apply_update m u) u = apply_update m u.
Proof.
  unfold apply_update. cbn.
  destruct (u_score u), (u_winner u), (u_scheduledAt u); reflexivity.
Qed.

Lemma patch_twice (matchId : string) (u : Update) (ms : list Match.t) :
  patch matchId u (patch matchId u ms) = patch matchId u ms.
Proof.
  unfold patch. rewrite map_map. apply map_ext. intros m.
  destruct (Match.id m =? matchId) eqn:E; [|now rewrite E].
  change (Match.id (apply_update m u)) with (Match.id m). rewrite E.
  apply apply_update_twice.
Qed.

(** X6. [updateMatch] is idempotent: running the same update a second time
    (as happens when the state updater is invoked twice) changes nothing
    more. *)
Theorem updateMatch_idempotent
    (tournamentId matchId : string) (u : Update) (ts : list Tournament.t) :
  updateMatch tournamentId matchId u (updateMatch tournamentId matchId u ts)
  = updateMatch tournamentId matchId u ts.
Proof.
  unfold updateMatch. rewrite map_map. apply map_ext. intros t.
  destruct t as [i ti ty o ps c sm ch an ms [mt mr mw ml]]. cbn -[patch].
  destruct (i =? tournamentId) eqn:E; cbn -[patch]; [|now rewrite E].
  destruct mr as [rs|]; cbn -[patch]; rewrite E; unfold set_rounds, set_matches;
    cbn -[patch]; rewrite patch_twice; [|reflexivity].
  do 2 f_equal. f_equal. rewrite map_map. apply map_ext. intros r. apply patch_twice.
Qed.

(** What an update object may change in a match: score, winner and
    scheduled time; never the id, the participants or the tournament link. *)
Definition same_identity (m m' : Match.t) : Prop :=
  Match.id m' = Match.id m /\ Match.players m' = Match.players m /\
  Match.tournamentId m' = Match.tournamentId m.

Lemma patch_identity (matchId : string) (u : Update) (ms : list Match.t) :
  Forall2 same_identity ms (patch matchId u ms).
Proof.
  induction ms as [|m ms IH]; cbn; constructor; [|exact IH].
  destruct (Match.id m =? matchId); repeat split.
Qed.

Lemma patch_rounds_identity (matchId : string) (u : Update) (rs : list Round) :
  Forall2 (Forall2 same_identity) rs (map (patch matchId u) rs).
Proof. induction rs; cbn -[patch]; constructor; auto using patch_identity. Qed.

Lemma same_identity_refl (ms : list Match.t) : Forall2 same_identity ms ms.
Proof. induction ms; constructor; auto. repeat split. Qed.

Lemma same_identity_refl2 (rs : list Round) : Forall2 (Forall2 same_identity) rs rs.
Proof. induction rs; constructor; auto using same_identity_refl. Qed.

(** X7. [updateMatch] maps the stored tournaments one to one and in order; in
    each it keeps every field but [matches] and [meta.rounds], and in those it
    keeps the number and order of the matches and, for each match, its id, its
    participants and its tournament link. *)
Theorem updateMatch_frame
    (tournamentId matchId : string) (u : Update) (ts : list Tournament.t) :
  Forall2 (fun t t' =>
             Tournament.id t' = Tournament.id t /\
             Tournament.title t' = Tournament.title t /\
             Tournament.type t' = Tournament.type t /\
             Tournament.organizerId t' = Tournament.organizerId t /\
             Tournament.players t' = Tournament.players t /\
             Tournament.createdAt t' = Tournament.createdAt t /\
             Tournament.scheduleMode t' = Tournament.scheduleMode t /\
             Tournament.chat t' = Tournament.chat t /\
             Tournament.adminNotes t' = Tournament.adminNotes t /\
             Meta.type (Tournament.meta t') = Meta.type (Tournament.meta t) /\
             Meta.winners (Tournament.meta t') = Meta.winners (Tournament.meta t) /\
             Meta.losers (Tournament.meta t') = Meta.losers (Tournament.meta t) /\
             Forall2 same_identity (Tournament.matches t) (Tournament.matches t') /\
             Forall2 (Forall2 same_identity) (rounds_of t) (rounds_of t'))
    ts (updateMatch tournamentId matchId u ts).
Proof.
  unfold updateMatch. induction ts as [|t ts IH]; cbn [map]; constructor; [|exact IH].
  destruct t as [i ti ty o ps c sm ch an ms [mt mr mw ml]]. cbn -[patch].
  destruct (i =? tournamentId); cbn -[patch].
  - destruct mr as [rs|]; unfold rounds_of; cbn -[patch];
      repeat split; auto using patch_identity, patch_rounds_identity, Forall2_nil.
  - unfold rounds_of. cbn. repeat split; auto using same_identity_refl, same_identity_refl2.
Qed.

Lemma apply_update_other (m : Match.t) (u : Update) : Match.id (apply_update m u) = Match.id m.
Proof. reflexivity. Qed.

Lemma patch_commute (i j : string) (u v : Update) (ms : list Match.t) :
  i <> j -> patch i u (patch j v ms) = patch j v (patch i u ms).
Proof.
  intros Hij. unfold patch. rewrite !map_map. apply map_ext. intros m.
  destruct (Match.id m =? j) eqn:Ej, (Match.id m =? i) eqn:Ei;
    rewrite ?apply_update_other, ?Ej, ?Ei; try reflexivity.
  apply String.eqb_eq in Ej, Ei. congruence.
Qed.

(** X8. Updates of two different matches of one tournament commute: the
    stored collection is the same whichever is applied first. *)
Theorem updateMatch_commute
    (tournamentId i j : string) (u v : Update) (ts : list Tournament.t) :
  i <> j ->
  updateMatch tournamentId i u (updateMatch tournamentId j v ts)
  = updateMatch tournamentId j v (updateMatch tournamentId i u ts).
Proof.
  intros Hij. unfold updateMatch. rewrite !map_map. apply map_ext. intros t.
  destruct t as [i' ti ty o ps c sm ch an ms [mt mr mw ml]]. cbn -[patch].
  destruct (i' =? tournamentId) eqn:E; cbn -[patch]; [|now rewrite E].
  destruct mr as [rs|]; cbn -[patch]; rewrite E; unfold set_rounds, set_matches;
    cbn -[patch]; rewrite (patch_commute i j u v) by assumption; [|reflexivity].
  do 2 f_equal. f_equal. rewrite !map_map. apply map_ext. intros r. now apply patch_commute.
Qed.

Lemma updateMatch_commute_witness :
  updateMatch "t_a" "m_aaaa" (mkUpdate (Some [3%Z; 1%Z]) (Some (Some "p_alice")) None)
    (updateMatch "t_a" "l_aaaaaa" (mkUpdate None None (Some (Some "2025-09-01T15:00:00")))
       demo_double)
  = updateMatch "t_a" "l_aaaaaa" (mkUpdate None None (Some (Some "2025-09-01T15:00:00")))
      (updateMatch "t_a" "m_aaaa" (mkUpdate (Some [3%Z; 1%Z]) (Some (Some "p_alice")) None)
         demo_double).
Proof. apply updateMatch_commute. discriminate. Defined.

(** ** Recording a score on a bye or on a placeholder *)

(** X9. [setScore] throws, leaving the stored collection untouched, exactly
    when the scores differ and the match has no participant at the winning
    index: with the first score higher on a match without participants, or
    with the second score higher on a match with fewer than two.  A tie never
    throws, and a bye match can be won by its only participant. *)
Theorem setScore_throws_iff
    (t : Tournament.t) (m : Match.t) (a b : Z) (ts : list Tournament.t) :
  setScore t m a b ts = None <->
  ((a > b)%Z /\ Match.players m = []) \/
  ((a < b)%Z /\ length (Match.players m) <= 1).
Proof.
  unfold setScore. destruct (Z.eqb_spec a b) as [->|Hne].
  - cbn. split; [discriminate | lia].
  - rewrite Z.gtb_ltb. destruct (Z.ltb_spec b a) as [Hgt|Hle].
    + destruct (Match.players m) as [|p ps]; cbn.
      * split; [intros _; left; split; [lia | reflexivity] | reflexivity].
      * split; [discriminate | intros [[_ H]|[H _]]; [discriminate | lia]].
    + destruct (Match.players m) as [|p [|q ps]]; cbn.
      * split; [intros _; right; split; [lia | lia] | reflexivity].
      * split; [intros _; right; split; [lia | lia] | reflexivity].
      * split; [discriminate | intros [[H _]|[_ H]]; lia].
Qed.

(** ** Rescheduling several matches *)

Lemma includes_In (ids : list string) (i : string) : includes ids i = true <-> In i ids.
Proof.
  unfold includes. rewrite existsb_exists. split.
  - intros [j [Hj E]]. apply String.eqb_eq in E. now subst.
  - intros H. exists i. split; [exact H | apply String.eqb_refl].
Qed.

(** X10. [adminAction] with "reschedule" changes, in the tournament with the
    given id, only the scheduled time of the flat matches whose id is listed,
    setting it to the given time; the other matches, every other field of a
    match, the players, the notes and the structural view stay as they are,
    and so do the other tournaments. *)
Theorem reschedule_frame
    (tournamentId : string) (ids : list string) (at_ : option string)
    (ts : list Tournament.t) :
  Forall2 (fun t t' =>
             if Tournament.id t =? tournamentId then
               t' = set_matches t (Tournament.matches t') /\
               Forall2 (fun m m' =>
                          m' = set_scheduledAt m (Match.scheduledAt m') /\
                          (In (Match.id m) ids -> Match.scheduledAt m' = at_) /\
                          (~ In (Match.id m) ids ->
                           Match.scheduledAt m' = Match.scheduledAt m))
                 (Tournament.matches t) (Tournament.matches t')
             else t' = t)
    ts (rescheduleMany tournamentId ids at_ ts).
Proof.
  unfold rescheduleMany, adminAction.
  induction ts as [|t ts IH]; cbn [map]; constructor; [|exact IH].
  destruct (Tournament.id t =? tournamentId); cbn [negb]; [|reflexivity].
  cbn [String.eqb Ascii.eqb Bool.eqb matchIds scheduledAt].
  split; [reflexivity|]. cbn [set_matches Tournament.matches].
  induction (Tournament.matches t) as [|m ms IHm]; cbn [map]; constructor; [|exact IHm].
  destruct (includes ids (Match.id m)) eqn:E.
  - apply includes_In in E. cbn. repeat split; tauto.
  - assert (~ In (Match.id m) ids) by (rewrite <- includes_In; congruence).
    repeat split; [now destruct m | tauto].
Qed.

(** ** Disqualifying again, and the leaderboard afterwards *)

Lemma filter_twice {A} (f : A -> bool) (l : list A) : filter f (filter f l) = filter f l.
Proof.
  induction l as [|x l IH]; [reflexivity|]. cbn.
  destruct (f x) eqn:E; cbn; rewrite ?E, IH; reflexivity.
Qed.

(** X11. Disqualifying the same player a second time removes nobody else and
    still appends a second audit note: on a player who is not (or no longer) in
    the players list the operation only writes the note. *)
Theorem disqualify_twice
    (u1 u2 : option string) (now1 now2 tournamentId : string)
    (pid : option string) (ts : list Tournament.t) :
  Forall2 (fun t t'' =>
             if Tournament.id t =? tournamentId then
               Tournament.players t''
                 = filter (fun p => id_neq (Player.id p) pid) (Tournament.players t) /\
               Tournament.adminNotes t''
                 = Tournament.adminNotes t
                     ++ [audit_note pid u1 now1; audit_note pid u2 now2] /\
               Tournament.matches t'' = Tournament.matches t /\
               Tournament.meta t'' = Tournament.meta t
             else t'' = t)
    ts (disqualify u2 now2 tournamentId pid (disqualify u1 now1 tournamentId pid ts)).
Proof.
  unfold disqualify, adminAction. rewrite map_map.
  induction ts as [|t ts IH]; cbn [map]; constructor; [|exact IH].
  destruct (Tournament.id t =? tournamentId) eqn:E; cbn [negb]; [|now rewrite E].
  cbn [String.eqb Ascii.eqb Bool.eqb playerId set_players_notes Tournament.id
       Tournament.players Tournament.adminNotes Tournament.matches Tournament.meta].
  rewrite E. cbn [negb Tournament.players Tournament.adminNotes Tournament.matches
                  Tournament.meta].
  rewrite filter_twice, <- app_assoc. repeat split.
Qed.

Lemma disqualified_keys (u : option string) (now tournamentId : string)
    (pid : option string) (ts : list Tournament.t) (k : string) :
  In k (registered_keys (disqualify u now tournamentId pid ts)) ->
  In k (registered_keys ts).
Proof.
  unfold registered_keys, player_keys, disqualify, adminAction.
  induction ts as [|t ts IH]; cbn [map flat_map]; [auto|].
  rewrite !map_app, !in_app_iff. intros [H|H]; [left | right; now apply IH].
  destruct (Tournament.id t =? tournamentId); cbn [negb] in H; [|exact H].
  cbn in H. apply in_map_iff in H. destruct H as [p [Hk Hp]].
  apply filter_In in Hp. apply in_map_iff. exists p. tauto.
Qed.

(** X12. Disqualifying the recorded winner of a match breaks the leaderboard:
    if a tournament of the collection has a match with participants whose
    recorded winner [w] is listed by no earlier tournament and is not the name
    of a property of [Object.prototype], then after [disqualify] of [w] in
    that tournament [computeLeaderboard] throws. *)
Theorem disqualify_winner_breaks_leaderboard
    (u : option string) (now : string) (w : string)
    (pre post : list Tournament.t) (t : Tournament.t) (m : Match.t) :
  In m (Tournament.matches t) ->
  Match.players m <> [] ->
  Match.winner m = Some w -> w <> "" ->
  inherited w = false ->
  Forall (fun p => Player.id p <> None) (Tournament.players t) ->
  ~ In w (registered_keys pre) ->
  computeLeaderboard (disqualify u now (Tournament.id t) (Some w) (pre ++ t :: post)) = None.
Proof.
  intros Hm Hps Hw Hne Hplain Hids Hpre.
  destruct (computeLeaderboard _) as [lb|] eqn:E; [exfalso | reflexivity].
  assert (Hhit : lookups_hit
            (disqualify u now (Tournament.id t) (Some w) (pre ++ t :: post))).
  { apply computeLeaderboard_returns_iff. eauto. }
  set (t' := set_players_notes t
               (filter (fun p => id_neq (Player.id p) (Some w)) (Tournament.players t))
               (Tournament.adminNotes t ++ [audit_note (Some w) u now])).
  assert (Hsplit : disqualify u now (Tournament.id t) (Some w) (pre ++ t :: post)
                   = disqualify u now (Tournament.id t) (Some w) pre
                       ++ t' :: disqualify u now (Tournament.id t) (Some w) post).
  { unfold disqualify, adminAction. rewrite map_app. cbn [map].
    now rewrite (String.eqb_refl (Tournament.id t)). }
  assert (Hneed : In w (needs m)).
  { unfold needs, counted. rewrite Hw. cbn.
    destruct (Match.players m); [contradiction|].
    destruct (String.eqb_spec w ""); [contradiction|]. cbn. now left. }
  specialize (Hhit _ t' _ Hsplit m Hm w Hneed).
  destruct Hhit as [Hhit|Hhit]; [|congruence].
  unfold registered_keys, player_keys in Hhit.
  rewrite flat_map_app, map_app, in_app_iff in Hhit. destruct Hhit as [Hin|Hin].
  - apply Hpre. apply (disqualified_keys u now (Tournament.id t) (Some w)).
    exact Hin.
  - cbn in Hin. rewrite app_nil_r in Hin. apply in_map_iff in Hin.
    destruct Hin as [p [Hk Hp]]. apply filter_In in Hp. destruct Hp as [Hp Hneq].
    rewrite Forall_forall in Hids. specialize (Hids p Hp).
    destruct (Player.id p) as [s|]; [|contradiction].
    cbn in Hk, Hneq. subst s. now rewrite String.eqb_refl in Hneq.
Qed.

Lemma disqualify_winner_breaks_leaderboard_witness :
  computeLeaderboard
    (disqualify (Some "u_admin") "2025-01-02T00:00:00.000Z" "t_a" (Some "p_alice")
       ([] ++ two_cups)) = None.
Proof.
  refine (disqualify_winner_breaks_leaderboard (Some "u_admin") "2025-01-02T00:00:00.000Z"
            "p_alice" [] (tl two_cups) (hd demo_single_t two_cups)
            (hd demo_match (Tournament.matches (hd demo_single_t two_cups)))
            (or_introl eq_refl) _ eq_refl _ eq_refl _ _).
  - discriminate.
  - discriminate.
  - repeat constructor; discriminate.
  - intros [].
Defined.

(** * Further properties of the leaderboard *)

(** ** Who is listed, and under which name *)

(** The players whose key was not seen before, in order: the first occurrence
    of every key. *)
Fixpoint first_seen_from (seen : list string) (ps : list Player.t) : list Player.t :=
  match ps with
  | [] => []
  | p :: ps' =>
      if existsb (String.eqb (key_of (Player.id p))) seen
      then first_seen_from seen ps'
      else p :: first_seen_from (seen ++ [key_of (Player.id p)]) ps'
  end.

Definition first_seen (ps : list Player.t) : list Player.t := first_seen_from [] ps.

(** The players that can get an entry: those whose id does not name a
    property of [Object.prototype]. *)
Definition storable (ps : list Player.t) : list Player.t :=
  filter (fun p => negb (inherited (key_of (Player.id p)))) ps.

Definition zero_entry (p : Player.t) : Entry.t :=
  Entry.mk (Player.id p) (Player.name p) 0 0 0.

(** Key, id and name of a board entry. *)
Definition ident (x : string * Entry.t) : string * (option string * string) :=
  (fst x, (Entry.id (snd x), Entry.name (snd x))).

Lemma lookup_seen (k : string) (b : Board) :
  existsb (String.eqb k) (keys b) = match lookup k b with Some _ => true | None => false end.
Proof.
  induction b as [|[k' e] b IH]; [reflexivity|]. cbn.
  rewrite (String.eqb_sym k k'). destruct (k' =? k); [reflexivity | exact IH].
Qed.

Lemma registers_first_seen (ps : list Player.t) (b : Board) :
  fold_left register ps b =
  b ++ map (fun p => (key_of (Player.id p), zero_entry p))
         (first_seen_from (keys b) (storable ps)).
Proof.
  revert b. induction ps as [|p ps IH]; intros b.
  - cbn. now rewrite app_nil_r.
  - cbn [fold_left]. rewrite IH. unfold register.
    change (storable (p :: ps))
      with (if negb (inherited (key_of (Player.id p)))
            then p :: storable ps else storable ps).
    destruct (inherited (key_of (Player.id p))) eqn:Ei; cbn [negb].
    + now destruct (lookup (key_of (Player.id p)) b).
    + cbn [first_seen_from map]. rewrite lookup_seen.
      destruct (lookup (key_of (Player.id p)) b) eqn:E; [reflexivity|].
      unfold keys. rewrite map_app, <- app_assoc. reflexivity.
Qed.

Lemma modify_ident (k : string) (f : Entry.t -> Entry.t) (b b' : Board) :
  (forall e, Entry.id (f e) = Entry.id e /\ Entry.name (f e) = Entry.name e) ->
  modify k f b = Some b' -> map ident b' = map ident b.
Proof.
  intros Hf. revert b'. induction b as [|[k' e] b IH]; cbn; intros b' H.
  { destruct (inherited k); [now injection H as <- | discriminate]. }
  destruct (k' =? k).
  - injection H as <-. cbn. unfold ident at 1 3. cbn.
    destruct (Hf e) as [-> ->]. reflexivity.
  - destruct (modify k f b) as [b1|]; [|discriminate]. injection H as <-.
    cbn. now rewrite (IH b1 eq_refl).
Qed.

Lemma tally_ident (b b' : Board) (m : Match.t) :
  tally b m = Some b' -> map ident b' = map ident b.
Proof.
  destruct (counted m) eqn:Hc.
  2:{ rewrite tally_uncounted by assumption. now intros [= <-]. }
  rewrite tally_counted by assumption.
  destruct (modify (key_of (Match.winner m)) wins_incr b) as [b1|] eqn:E1; [|discriminate].
  cbn [obind]. apply modify_ident in E1; [|now intros e].
  destruct (find_loser m) as [loser|].
  - destruct (modify (key_of (Player.id loser)) losses_incr b1) as [b2|] eqn:E2; [|discriminate].
    cbn [obind]. apply modify_ident in E2; [|now intros e].
    intros E3. apply modify_ident in E3; [|now intros e]. congruence.
  - cbn [obind]. intros E3. apply modify_ident in E3; [|now intros e]. congruence.
Qed.

Lemma tally_all_ident (ms : list Match.t) (b b' : Board) :
  tally_all b ms = Some b' -> map ident b' = map ident b.
Proof.
  revert b. induction ms as [|m ms IH]; cbn; intros b H; [now injection H as <-|].
  destruct (tally b m) as [b1|] eqn:E; [|discriminate]. cbn in H.
  apply IH in H. apply tally_ident in E. congruence.
Qed.

Lemma keys_ident (b : Board) : keys b = map fst (map ident b).
Proof. unfold keys. rewrite map_map. reflexivity. Qed.

Lemma registers_ident (ps : list Player.t) (b c : Board) :
  map ident b = map ident c ->
  map ident (fold_left register ps b) = map ident (fold_left register ps c).
Proof.
  intros H. rewrite !registers_first_seen, !map_app, H, !keys_ident, H. reflexivity.
Qed.

Lemma visit_all_ident (ts : list Tournament.t) (b b' : Board) :
  visit_all b ts = Some b' ->
  map ident b' = map ident (fold_left register (flat_map Tournament.players ts) b).
Proof.
  revert b. induction ts as [|t ts IH]; cbn [visit_all flat_map]; intros b H.
  - now injection H as <-.
  - destruct (visit b t) as [b1|] eqn:E; [|discriminate]. cbn [obind] in H.
    rewrite (IH _ H), fold_left_app. apply registers_ident.
    unfold visit in E. now apply tally_all_ident in E.
Qed.

(** X13. Whenever [computeLeaderboard] returns, its entries stand for the
    first occurrence of every player key in the players lists, taken in
    tournament order, and carry that occurrence's id and name: when one key
    occurs with several names, the first-seen name is kept.  Players whose id
    names a property of [Object.prototype] get no entry. *)
Theorem computeLeaderboard_first_seen_names (ts : list Tournament.t) (lb : list Entry.t) :
  computeLeaderboard ts = Some lb ->
  Permutation (map (fun e => (Entry.id e, Entry.name e)) lb)
              (map (fun p => (Player.id p, Player.name p))
                 (first_seen (storable (all_players ts)))).
Proof.
  unfold computeLeaderboard. destruct (visit_all [] ts) as [b|] eqn:E; [|discriminate].
  intros [= <-]. rewrite <- (sort_entries_perm (Object_values b)), <- (Object_values_perm b).
  apply visit_all_ident in E. rewrite registers_first_seen in E. cbn [app keys map] in E.
  apply (f_equal (map snd)) in E. rewrite !map_map in E. cbn [ident snd] in E.
  rewrite map_map. unfold first_seen, all_players. cbn [zero_entry Entry.id Entry.name] in E.
  now rewrite E.
Qed.

Lemma sort_entries_zeros (l : list Entry.t) :
  Forall (fun e => Entry.points e = 0%Z /\ Entry.wins e = 0%Z) l -> sort_entries l = l.
Proof.
  induction 1 as [|x l [Hp Hw] Hl IH]; [reflexivity|]. cbn. rewrite IH.
  destruct l as [|y l']; [reflexivity|]. cbn.
  inversion Hl as [|? ? [Hyp Hyw] _]; subst.
  unfold compare_entries. rewrite Hp, Hw, Hyp, Hyw. reflexivity.
Qed.

Lemma tally_all_uncounted (ms : list Match.t) (b : Board) :
  Forall (fun m => truthy (Match.winner m) = false) ms -> tally_all b ms = Some b.
Proof.
  induction 1 as [|m ms Hm _ IH]; [reflexivity|]. cbn.
  rewrite tally_uncounted; [exact IH|]. unfold counted. rewrite Hm. apply andb_false_r.
Qed.

Lemma visit_all_uncounted (ts : list Tournament.t) (b : Board) :
  Forall (fun m => truthy (Match.winner m) = false) (all_matches ts) ->
  visit_all b ts = Some (fold_left register (all_players ts) b).
Proof.
  revert b. induction ts as [|t ts IH]; intros b H; [reflexivity|].
  unfold all_matches, all_players in *. cbn [flat_map visit_all] in *.
  apply Forall_app in H. destruct H as [Ht Hts].
  unfold visit. rewrite tally_all_uncounted by assumption. cbn [obind].
  rewrite IH by assumption. now rewrite fold_left_app.
Qed.

(** The board holding a fresh entry for each of the given players. *)
Definition zero_board (ps : list Player.t) : Board :=
  map (fun p => (key_of (Player.id p), zero_entry p)) ps.

(** X14. While no match has a recorded winner (nothing played, or only
    ties), [computeLeaderboard] never throws and lists the first occurrence of
    every player that can get an entry, with zero wins, losses and points, in
    the order of [Object.values]: the sort moves nothing.  Where no id is an
    array index this is the order in which the players lists name them. *)
Theorem computeLeaderboard_before_results (ts : list Tournament.t) :
  Forall (fun m => truthy (Match.winner m) = false) (all_matches ts) ->
  computeLeaderboard ts
  = Some (Object_values (zero_board (first_seen (storable (all_players ts))))) /\
  (Forall (fun p => array_index (key_of (Player.id p)) = None)
     (first_seen (storable (all_players ts))) ->
   computeLeaderboard ts
   = Some (map zero_entry (first_seen (storable (all_players ts))))).
Proof.
  intros H. unfold computeLeaderboard. rewrite visit_all_uncounted by assumption.
  cbn [option_map]. rewrite registers_first_seen. cbn [app keys map].
  fold (first_seen (storable (all_players ts))).
  fold (zero_board (first_seen (storable (all_players ts)))).
  assert (Hsort : sort_entries (Object_values (zero_board (first_seen (storable (all_players ts)))))
                  = Object_values (zero_board (first_seen (storable (all_players ts))))).
  { apply sort_entries_zeros.
    eapply Permutation_Forall; [apply Object_values_perm|].
    unfold zero_board. rewrite map_map. cbn [snd].
    apply Forall_map, Forall_forall. intros p _. split; reflexivity. }
  rewrite Hsort. split; [reflexivity|].
  intros Hplain. f_equal. rewrite Object_values_named.
  - unfold zero_board. now rewrite map_map.
  - unfold keys, zero_board. rewrite map_map. cbn [fst]. now apply Forall_map.
Qed.

Lemma computeLeaderboard_before_results_witness :
  computeLeaderboard demo_double
  = Some (Object_values (zero_board (first_seen (storable (all_players demo_double))))) /\
  (Forall (fun p => array_index (key_of (Player.id p)) = None)
     (first_seen (storable (all_players demo_double))) ->
   computeLeaderboard demo_double
   = Some (map zero_entry (first_seen (storable (all_players demo_double))))).
Proof.
  apply computeLeaderboard_before_results. repeat constructor.
Defined.

(** Ids that are array indices come first, in ascending numeric order. *)
Definition numbered : list Tournament.t :=
  [ Tournament.mk "t_a" "Cup" "league" "u_admin"
      [ Player.mk (Some "p_b") "Bea"; Player.mk (Some "2") "Two";
        Player.mk (Some "p_a") "Ann"; Player.mk (Some "1") "One" ]
      "2025-01-01T00:00:00.000Z" "manual" [] [] [] (Meta.mk None (Some []) None None) ].

Lemma numbered_leaderboard :
  option_map (map Entry.name) (computeLeaderboard numbered)
  = Some ["One"; "Two"; "Bea"; "Ann"].
Proof. reflexivity. Qed.

Lemma computeLeaderboard_first_seen_names_witness :
  Permutation
    (map (fun e => (Entry.id e, Entry.name e))
       [ Entry.mk (Some "p_alice") "Alice" 1 1 3;
         Entry.mk (Some "p_carol") "Carol" 1 0 3;
         Entry.mk (Some "p_bob") "Bob" 0 1 0 ])
    (map (fun p => (Player.id p, Player.name p))
       (first_seen (storable (all_players two_cups)))).
Proof.
  apply computeLeaderboard_first_seen_names. reflexivity.
Defined.

(** ** Conservation of wins, losses and points *)

Fixpoint sumZ {A} (f : A -> Z) (l : list A) : Z :=
  match l with
  | [] => 0
  | x :: l' => f x + sumZ f l'
  end.

Lemma sumZ_perm {A} (f : A -> Z) (l l' : list A) :
  Permutation l l' -> sumZ f l = sumZ f l'.
Proof. induction 1; cbn; lia. Qed.

Lemma sumZ_ext {A} (f g : A -> Z) (l : list A) :
  (forall x, In x l -> f x = g x) -> sumZ f l = sumZ g l.
Proof.
  induction l as [|x l IH]; intros H; [reflexivity|]. cbn.
  rewrite (H x (or_introl eq_refl)), IH; [reflexivity|]. intros y Hy. apply H. now right.
Qed.

Lemma sumZ_add {A} (f g : A -> Z) (l : list A) :
  sumZ (fun x => f x + g x)%Z l = (sumZ f l + sumZ g l)%Z.
Proof. induction l as [|x l IH]; cbn; [reflexivity | rewrite IH; lia]. Qed.

Lemma sumZ_scale {A} (c : Z) (f : A -> Z) (l : list A) :
  sumZ (fun x => c * f x)%Z l = (c * sumZ f l)%Z.
Proof. induction l as [|x l IH]; cbn; [lia | rewrite IH; lia]. Qed.

Lemma sumZ_zero {A} (l : list A) : sumZ (fun _ => 0%Z) l = 0%Z.
Proof. induction l; cbn; lia. Qed.

Lemma sumZ_total (g : Match.t -> string -> Z) (ms : list Match.t) (ks : list string) :
  sumZ (fun k => total (fun m => g m k) ms) ks = total (fun m => sumZ (g m) ks) ms.
Proof.
  induction ms as [|m ms IH]; cbn [total]; [apply sumZ_zero|].
  now rewrite sumZ_add, IH.
Qed.

(** One unit under the key [key m] for every match satisfying [P]. *)
Definition hit (P : Match.t -> bool) (key : Match.t -> string) (m : Match.t) (k : string) : Z :=
  if P m && (key m =? k) then 1 else 0.

Lemma sumZ_hit (P : Match.t -> bool) (key : Match.t -> string) (m : Match.t)
    (ks : list string) :
  NoDup ks -> (P m = true -> In (key m) ks) ->
  sumZ (hit P key m) ks = if P m then 1%Z else 0%Z.
Proof.
  unfold hit. destruct (P m); cbn [andb]; [|intros _ _; apply sumZ_zero].
  intros Hnd Hin. specialize (Hin eq_refl).
  induction Hnd as [|k ks Hk Hnd IH]; [contradiction|]. cbn.
  destruct (String.eqb_spec (key m) k) as [->|Hne].
  - rewrite (sumZ_ext _ (fun _ => 0%Z)), sumZ_zero; [reflexivity|].
    intros x Hx. destruct (String.eqb_spec k x); [subst; contradiction | reflexivity].
  - rewrite IH; [reflexivity|]. destruct Hin; [congruence | assumption].
Qed.

Lemma total_hits (P : Match.t -> bool) (key : Match.t -> string) (ms : list Match.t)
    (ks : list string) :
  NoDup ks -> (forall m, In m ms -> P m = true -> In (key m) ks) ->
  sumZ (fun k => total (fun m => hit P key m k) ms) ks = count P ms.
Proof.
  intros Hnd Hin. rewrite sumZ_total. apply total_count.
  intros m Hm. apply sumZ_hit; auto.
Qed.

Lemma total_ext (f g : Match.t -> Z) (ms : list Match.t) :
  (forall m, f m = g m) -> total f ms = total g ms.
Proof. intros H. induction ms as [|m ms IH]; cbn; [reflexivity | now rewrite H, IH]. Qed.

Lemma total_ge (f : Match.t -> Z) (ms : list Match.t) (m : Match.t) :
  (forall x, (0 <= f x)%Z) -> In m ms -> (f m <= total f ms)%Z.
Proof.
  intros Hf. assert (Hpos : forall l, (0 <= total f l)%Z).
  { induction l as [|x l IH]; cbn; [lia|]. specialize (Hf x). lia. }
  induction ms as [|x ms IH]; [contradiction|]. cbn. intros [->|Hin].
  - specialize (Hpos ms). lia.
  - specialize (IH Hin). specialize (Hf x). lia.
Qed.

(** A decided match that charges a loss: it has a first participant whose id
    differs from the winner's. *)
Definition has_loser (m : Match.t) : bool :=
  counted m && match find_loser m with Some _ => true | None => false end.

Definition loser_key (m : Match.t) : string :=
  match find_loser m with Some loser => key_of (Player.id loser) | None => "" end.

Lemma win_of_hit (m : Match.t) (k : string) :
  win_of m k = hit counted (fun m => key_of (Match.winner m)) m k.
Proof. reflexivity. Qed.

Lemma loss_of_hit (m : Match.t) (k : string) :
  loss_of m k = hit has_loser loser_key m k.
Proof.
  unfold loss_of, hit, has_loser, loser_key.
  destruct (counted m); [|reflexivity]. destruct (find_loser m); reflexivity.
Qed.

Lemma sumZ_board (f : Entry.t -> Z) (at_ : Board -> string -> Z) (b : Board) :
  NoDup (keys b) ->
  (forall k e, lookup k b = Some e -> at_ b k = f e) ->
  sumZ f (map snd b) = sumZ (at_ b) (keys b).
Proof.
  intros Hnd Hat. unfold keys.
  assert (H : forall c, (forall k e, In (k, e) c -> In (k, e) b) ->
            sumZ f (map snd c) = sumZ (at_ b) (map fst c)).
  { induction c as [|[k e] c IH]; intros Hc; [reflexivity|]. cbn.
    rewrite IH by (intros; apply Hc; now right).
    rewrite (Hat k e); [reflexivity|]. apply In_lookup; [exact Hnd|]. apply Hc. now left. }
  apply H. auto.
Qed.

(** A decided match whose win, respectively loss, lands on the board: the
    key it is written under does not name a property of [Object.prototype]. *)
Definition win_recorded (m : Match.t) : bool :=
  counted m && negb (inherited (key_of (Match.winner m))).

Definition loss_recorded (m : Match.t) : bool :=
  has_loser m && negb (inherited (loser_key m)).

Lemma win_of_recorded (k : string) (m : Match.t) :
  inherited k = false ->
  win_of m k = hit win_recorded (fun m => key_of (Match.winner m)) m k.
Proof.
  intros Hk. rewrite win_of_hit. unfold hit, win_recorded.
  destruct (String.eqb_spec (key_of (Match.winner m)) k) as [->|_].
  - rewrite Hk. cbn [negb]. now rewrite !andb_true_r.
  - now rewrite !andb_false_r.
Qed.

Lemma loss_of_recorded (k : string) (m : Match.t) :
  inherited k = false ->
  loss_of m k = hit loss_recorded loser_key m k.
Proof.
  intros Hk. rewrite loss_of_hit. unfold hit, loss_recorded.
  destruct (String.eqb_spec (loser_key m) k) as [->|_].
  - rewrite Hk. cbn [negb]. now rewrite !andb_true_r.
  - now rewrite !andb_false_r.
Qed.

(** X15. Whenever [computeLeaderboard] returns, the wins on the board add up
    to the number of decided matches (those with a participant and a recorded
    winner) whose winner's key does not name a property of
    [Object.prototype], the points to three times that number, and the losses
    to the number of decided matches that have a participant other than the
    winner, the first such not being keyed by a property of
    [Object.prototype]: no win, loss or point written to the board is dropped
    or counted twice. *)
Theorem computeLeaderboard_conservation (ts : list Tournament.t) (lb : list Entry.t) :
  computeLeaderboard ts = Some lb ->
  sumZ Entry.wins lb = count win_recorded (all_matches ts) /\
  sumZ Entry.points lb = (3 * count win_recorded (all_matches ts))%Z /\
  sumZ Entry.losses lb = count loss_recorded (all_matches ts).
Proof.
  unfold computeLeaderboard. destruct (visit_all [] ts) as [b|] eqn:E; [|discriminate].
  intros [= <-].
  assert (Hc : coherent (all_players ts) b).
  { apply (coherent_visit_all ts [] [] b E). split; [constructor|].
    split; [intros k'; cbn; tauto | intros k' i n H; discriminate H]. }
  destruct Hc as (Hnd & Hkeys & _).
  assert (Hplain : forall k, In k (keys b) -> inherited k = false).
  { intros k Hk. now apply Hkeys. }
  assert (Hstats : forall k, inherited k = false ->
            wins_at b k = total (fun m => win_of m k) (all_matches ts) /\
            losses_at b k = total (fun m => loss_of m k) (all_matches ts) /\
            points_at b k = (3 * total (fun m => win_of m k) (all_matches ts))%Z).
  { intros k Hk. destruct (visit_all_stats ts [] b k Hk E) as (W & L & P).
    unfold wins_at, losses_at, points_at in *. cbn [lookup] in *. repeat split; lia. }
  assert (Hwin_pos : forall k x, (0 <= win_of x k)%Z).
  { intros k x. unfold win_of. destruct (_ && _); lia. }
  assert (Hloss_pos : forall k x, (0 <= loss_of x k)%Z).
  { intros k x. rewrite loss_of_hit. unfold hit. destruct (_ && _); lia. }
  assert (Hwkey : forall m, In m (all_matches ts) -> win_recorded m = true ->
                            In (key_of (Match.winner m)) (keys b)).
  { intros m Hm Hcm. unfold win_recorded in Hcm. apply andb_true_iff in Hcm.
    destruct Hcm as [Hcm Hk]. apply negb_true_iff in Hk.
    apply lookup_In. intros Hnone.
    destruct (Hstats (key_of (Match.winner m)) Hk) as (W & _ & _).
    unfold wins_at in W. rewrite Hnone in W.
    pose proof (total_ge (fun x => win_of x (key_of (Match.winner m))) _ m
                  (Hwin_pos _) Hm) as Hge.
    cbn beta in Hge. unfold win_of at 1 in Hge. rewrite Hcm, String.eqb_refl in Hge.
    cbn in Hge. lia. }
  assert (Hlkey : forall m, In m (all_matches ts) -> loss_recorded m = true ->
                            In (loser_key m) (keys b)).
  { intros m Hm Hcm. unfold loss_recorded in Hcm. apply andb_true_iff in Hcm.
    destruct Hcm as [Hcm Hk]. apply negb_true_iff in Hk.
    apply lookup_In. intros Hnone.
    destruct (Hstats (loser_key m) Hk) as (_ & L & _).
    unfold losses_at in L. rewrite Hnone in L.
    pose proof (total_ge (fun x => loss_of x (loser_key m)) _ m (Hloss_pos _) Hm) as Hge.
    cbn beta in Hge. rewrite loss_of_hit in Hge. unfold hit in Hge.
    rewrite Hcm, String.eqb_refl in Hge. cbn in Hge. lia. }
  assert (Hperm : Permutation (map snd b) (sort_entries (Object_values b))).
  { rewrite <- sort_entries_perm. apply Object_values_perm. }
  rewrite <- !(sumZ_perm _ _ _ Hperm).
  rewrite (sumZ_board Entry.wins wins_at b Hnd),
          (sumZ_board Entry.points points_at b Hnd),
          (sumZ_board Entry.losses losses_at b Hnd);
    try (intros k e Hl; unfold wins_at, points_at, losses_at; now rewrite Hl).
  assert (SW : sumZ (wins_at b) (keys b) = count win_recorded (all_matches ts)).
  { rewrite (sumZ_ext (wins_at b)
               (fun k => total (fun m => hit win_recorded (fun m => key_of (Match.winner m)) m k)
                           (all_matches ts))).
    - apply total_hits; assumption.
    - intros k Hk. specialize (Hplain k Hk). rewrite (proj1 (Hstats k Hplain)).
      apply total_ext. intros m. now apply win_of_recorded. }
  assert (SL : sumZ (losses_at b) (keys b) = count loss_recorded (all_matches ts)).
  { rewrite (sumZ_ext (losses_at b)
               (fun k => total (fun m => hit loss_recorded loser_key m k) (all_matches ts))).
    - apply total_hits; assumption.
    - intros k Hk. specialize (Hplain k Hk). rewrite (proj1 (proj2 (Hstats k Hplain))).
      apply total_ext. intros m. now apply loss_of_recorded. }
  assert (SP : sumZ (points_at b) (keys b) = (3 * sumZ (wins_at b) (keys b))%Z).
  { rewrite <- sumZ_scale. apply sumZ_ext. intros k Hk.
    destruct (Hstats k (Hplain k Hk)) as (W & _ & P). lia. }
  repeat split; lia.
Qed.

Lemma computeLeaderboard_conservation_witness :
  sumZ Entry.wins [ Entry.mk (Some "p_alice") "Alice" 1 1 3;
                    Entry.mk (Some "p_carol") "Carol" 1 0 3;
                    Entry.mk (Some "p_bob") "Bob" 0 1 0 ]
    = count win_recorded (all_matches two_cups) /\
  sumZ Entry.points [ Entry.mk (Some "p_alice") "Alice" 1 1 3;
                      Entry.mk (Some "p_carol") "Carol" 1 0 3;
                      Entry.mk (Some "p_bob") "Bob" 0 1 0 ]
    = (3 * count win_recorded (all_matches two_cups))%Z /\
  sumZ Entry.losses [ Entry.mk (Some "p_alice") "Alice" 1 1 3;
                      Entry.mk (Some "p_carol") "Carol" 1 0 3;
                      Entry.mk (Some "p_bob") "Bob" 0 1 0 ]
    = count loss_recorded (all_matches two_cups).
Proof.
  apply computeLeaderboard_conservation. reflexivity.
Defined.

(** * Accounts, permissions and chat *)

Module User.
Record t : Type := mk {
  id : string;
  name : string;
  email : string;
  pass : string;
  admin : bool
}.
End User.

(** The [users] and [currentUser] state of the application. *)
Record Auth : Type := mkAuth {
  users : list User.t;
  currentUser : option User.t
}.

(** The result object [{ ok, error }] of the auth handlers. *)
Record Outcome : Type := mkOutcome {
  ok : bool;
  error : option string
}.

(** [signup]: refused when the email is taken, otherwise the new account is
    appended and becomes the current user. *)
Definition signup (rnd : nat -> string) (name email pass : string) (st : Auth)
    : Gen (Outcome * Auth) :=
  if existsb (fun u => User.email u =? email) (users st)
  then ret (mkOutcome false (Some "Email taken"), st)
  else
    i <- uid rnd "u" ;;
    let newUser := User.mk i name email pass false in
    ret (mkOutcome true None, mkAuth (users st ++ [newUser]) (Some newUser)).

(** [login]: the first stored user with this email and password. *)
Definition login (email pass : string) (st : Auth) : Outcome * Auth :=
  match find (fun x => (User.email x =? email) && (User.pass x =? pass)) (users st) with
  | Some u => (mkOutcome true None, mkAuth (users st) (Some u))
  | None => (mkOutcome false (Some "Invalid credentials"), st)
  end.

Definition logout (st : Auth) : Auth := mkAuth (users st) None.

(** [isAdmin] of the view of tournament [t]. *)
Definition isAdmin (currentUser : option User.t) (t : Tournament.t) : bool :=
  match currentUser with
  | Some u => User.admin u || (User.id u =? Tournament.organizerId t)
  | None => false
  end.

Definition set_chat (t : Tournament.t) (chat : list Comment.t) : Tournament.t :=
  Tournament.mk (Tournament.id t) (Tournament.title t) (Tournament.type t)
    (Tournament.organizerId t) (Tournament.players t) (Tournament.createdAt t)
    (Tournament.scheduleMode t) chat (Tournament.adminNotes t)
    (Tournament.matches t) (Tournament.meta t).

(** [addComment]; the comment id is drawn inside the map callback, that is
    once per tournament carrying the id.  [currentUserId] is
    [currentUser?.id], [now] what [nowISO()] returns. *)
Definition addComment (rnd : nat -> string) (currentUserId : option string) (now : string)
    (tournamentId text : string) (ts : list Tournament.t) : Gen (list Tournament.t) :=
  mapM (fun t =>
          if negb (Tournament.id t =? tournamentId) then ret t
          else
            i <- uid rnd "c" ;;
            ret (set_chat t (Tournament.chat t ++ [Comment.mk i currentUserId text now])))
    ts.

(** ** Accounts *)

Lemma existsb_email (email : string) (us : list User.t) :
  existsb (fun u => User.email u =? email) us = true <-> In email (map User.email us).
Proof.
  rewrite existsb_exists, in_map_iff. split.
  - intros [u [Hu E]]. apply String.eqb_eq in E. eauto.
  - intros [u [E Hu]]. exists u. split; [exact Hu | now apply String.eqb_eq].
Qed.

(** X16. [signup] keeps the stored emails pairwise distinct.  It never
    removes or changes an existing account and never creates an administrator;
    it is refused, with the state left as it is and no id drawn, exactly when
    the email is already stored. *)
Theorem signup_keeps_emails_unique
    (rnd : nat -> string) (name email pass : string) (st : Auth) (k : nat) :
  NoDup (map User.email (users st)) ->
  let r := signup rnd name email pass st k in
  NoDup (map User.email (users (snd (fst r)))) /\
  (exists added, users (snd (fst r)) = users st ++ added /\
                 Forall (fun u => User.admin u = false) added) /\
  (ok (fst (fst r)) = false <-> In email (map User.email (users st))) /\
  (ok (fst (fst r)) = false -> snd (fst r) = st /\ snd r = k).
Proof.
  intros Hnd. cbn zeta. unfold signup.
  destruct (existsb (fun u => User.email u =? email) (users st)) eqn:E.
  - apply existsb_email in E. cbn. split; [exact Hnd|]. split.
    + exists []. now rewrite app_nil_r.
    + tauto.
  - assert (Hnot : ~ In email (map User.email (users st))).
    { rewrite <- existsb_email. congruence. }
    unfold bind, ret. cbn. split; [|split; [|split]].
    + rewrite map_app. cbn. now apply NoDup_snoc.
    + eexists. split; [reflexivity|]. repeat constructor.
    + split; [discriminate | contradiction].
    + discriminate.
Qed.

Definition seed_auth : Auth :=
  mkAuth [User.mk "u_admin" "Organizer" "org@example.com" "pass" true] None.

Lemma signup_keeps_emails_unique_witness :
  let r := signup demo_rnd "Dana" "dana@example.com" "secret" seed_auth 0 in
  NoDup (map User.email (users (snd (fst r)))) /\
  (exists added, users (snd (fst r)) = users seed_auth ++ added /\
                 Forall (fun u => User.admin u = false) added) /\
  (ok (fst (fst r)) = false <-> In "dana@example.com" (map User.email (users seed_auth))) /\
  (ok (fst (fst r)) = false -> snd (fst r) = seed_auth /\ snd r = 0).
Proof.
  apply signup_keeps_emails_unique. cbn. constructor; [intros [] | constructor].
Defined.

Lemma find_app_none {A} (f : A -> bool) (l : list A) (x : A) :
  (forall y, In y l -> f y = false) -> f x = true -> find f (l ++ [x]) = Some x.
Proof.
  induction l as [|y l IH]; intros Hl Hx; cbn; [now rewrite Hx|].
  rewrite (Hl y (or_introl eq_refl)). apply IH; [|exact Hx].
  intros z Hz. apply Hl. now right.
Qed.

(** X17. After a successful [signup], [login] with the same email and
    password succeeds and finds the account just created, whether the user
    has logged out in between or not: either way the resulting state is the
    one [signup] left, whose current user is that account. *)
Theorem signup_then_login
    (rnd : nat -> string) (name email pass : string) (st : Auth) (k : nat) :
  ok (fst (fst (signup rnd name email pass st k))) = true ->
  login email pass (snd (fst (signup rnd name email pass st k)))
  = (mkOutcome true None, snd (fst (signup rnd name email pass st k))) /\
  login email pass (logout (snd (fst (signup rnd name email pass st k))))
  = (mkOutcome true None, snd (fst (signup rnd name email pass st k))) /\
  option_map User.email (currentUser (snd (fst (signup rnd name email pass st k))))
  = Some email.
Proof.
  unfold signup.
  destruct (existsb (fun u => User.email u =? email) (users st)) eqn:E; [discriminate|].
  intros _. unfold bind, ret, login, logout.
  cbn [fst snd users currentUser option_map User.email].
  rewrite find_app_none; [repeat split| |].
  - intros y Hy. destruct (String.eqb_spec (User.email y) email) as [He|]; [|reflexivity].
    exfalso. assert (H : existsb (fun u => User.email u =? email) (users st) = true).
    { apply existsb_exists. exists y. split; [exact Hy | now apply String.eqb_eq]. }
    congruence.
  - cbn. now rewrite !String.eqb_refl.
Qed.

Lemma signup_then_login_witness :
  login "dana@example.com" "secret"
    (snd (fst (signup demo_rnd "Dana" "dana@example.com" "secret" seed_auth 0)))
  = (mkOutcome true None,
     snd (fst (signup demo_rnd "Dana" "dana@example.com" "secret" seed_auth 0))) /\
  login "dana@example.com" "secret"
    (logout (snd (fst (signup demo_rnd "Dana" "dana@example.com" "secret" seed_auth 0))))
  = (mkOutcome true None,
     snd (fst (signup demo_rnd "Dana" "dana@example.com" "secret" seed_auth 0))) /\
  option_map User.email
    (currentUser (snd (fst (signup demo_rnd "Dana" "dana@example.com" "secret" seed_auth 0))))
  = Some "dana@example.com".
Proof. apply signup_then_login. reflexivity. Defined.

(** X18. [login] succeeds exactly when a stored account has the given email
    and password; the account it makes current is a stored one with that email
    and password.  A failed login leaves the state as it is, and no login
    changes the stored accounts. *)
Theorem login_sound (email pass : string) (st : Auth) :
  let r := login email pass st in
  (ok (fst r) = true <->
   exists u, In u (users st) /\ User.email u = email /\ User.pass u = pass) /\
  (ok (fst r) = true ->
   exists u, currentUser (snd r) = Some u /\ In u (users st) /\
             User.email u = email /\ User.pass u = pass) /\
  (ok (fst r) = false -> snd r = st) /\
  users (snd r) = users st.
Proof.
  cbn zeta. unfold login.
  destruct (find _ (users st)) as [u|] eqn:E.
  - apply find_some in E. destruct E as [Hin Hc].
    apply andb_true_iff in Hc. destruct Hc as [He Hp].
    apply String.eqb_eq in He, Hp. cbn.
    repeat split; eauto; discriminate.
  - cbn. repeat split; try discriminate.
    intros [u (Hin & He & Hp)].
    pose proof (find_none _ _ E u Hin) as Hc. cbn in Hc.
    rewrite He, Hp, !String.eqb_refl in Hc. discriminate.
Qed.

(** ** Permissions *)

Lemma createTournament_organizer
    (rnd : nat -> string) (shuffle : list Player.t -> list Player.t)
    (title type organizerId : string) (players : list Player.t)
    (scheduleMode now : string) (ts : list Tournament.t) (k : nat) :
  Tournament.organizerId
    (fst (fst (createTournament rnd shuffle title type organizerId players
                 scheduleMode now ts k))) = organizerId /\
  snd (fst (createTournament rnd shuffle title type organizerId players
              scheduleMode now ts k))
  = fst (fst (createTournament rnd shuffle title type organizerId players
                scheduleMode now ts k)) :: ts.
Proof.
  unfold createTournament, bind, ret; cbn [fst snd];
    destruct (type =? "single"); [split; reflexivity|];
    destruct (type =? "roundrobin"); [split; reflexivity|];
    destruct (type =? "double"); [split; reflexivity|];
    destruct (type =? "league"); split; reflexivity.
Qed.

(** X19. The user who creates a tournament administers it: for the tournament
    the [Create] button returns, which is also the one stored in front of the
    collection, [isAdmin] holds for its creator; for a user without the
    administrator flag it holds exactly when their id is the creator's, and it
    never holds when nobody is logged in. *)
Theorem creator_isAdmin
    (rnd : nat -> string) (shuffle : list Player.t -> list Player.t)
    (u : User.t) (title type : string) (names : list string)
    (scheduleMode now : string) (ts : list Tournament.t) (k : nat) :
  let r := onCreate rnd shuffle title type (User.id u) names scheduleMode now ts k in
  isAdmin (Some u) (fst (fst r)) = true /\
  snd (fst r) = fst (fst r) :: ts /\
  (forall v, User.admin v = false ->
             isAdmin (Some v) (fst (fst r)) = (User.id v =? User.id u)) /\
  isAdmin None (fst (fst r)) = false.
Proof.
  cbn zeta. unfold onCreate, bind. cbn [fst snd].
  match goal with
  | |- context [createTournament ?r ?s ?ti ?ty ?o ?ps ?sm ?n ?l ?j] =>
      destruct (createTournament_organizer r s ti ty o ps sm n l j) as [Ho Hs]
  end.
  unfold isAdmin. rewrite Ho, Hs, String.eqb_refl, orb_true_r.
  repeat split. intros v Hv. now rewrite Hv.
Qed.

Lemma adminAction_organizers
    (cu : option string) (now tournamentId action : string) (payload : Payload)
    (ts : list Tournament.t) :
  map Tournament.organizerId (adminAction cu now tournamentId action payload ts)
  = map Tournament.organizerId ts.
Proof.
  unfold adminAction. rewrite map_map. apply map_ext. intros t.
  destruct (negb (Tournament.id t =? tournamentId)); [reflexivity|].
  destruct (action =? "reschedule"); [reflexivity|].
  destruct (action =? "disqualify"); reflexivity.
Qed.

Lemma updateMatch_organizers
    (tournamentId matchId : string) (u : Update) (ts : list Tournament.t) :
  map Tournament.organizerId (updateMatch tournamentId matchId u ts)
  = map Tournament.organizerId ts.
Proof.
  unfold updateMatch. rewrite map_map. apply map_ext. intros t.
  destruct (negb (Tournament.id t =? tournamentId)); [reflexivity|].
  cbn. destruct (Meta.rounds (Tournament.meta t)); reflexivity.
Qed.

Lemma mapM_cons {A B} (f : A -> Gen B) (a : A) (l : list A) (k : nat) :
  mapM f (a :: l) k
  = (fst (f a k) :: fst (mapM f l (snd (f a k))), snd (mapM f l (snd (f a k)))).
Proof. reflexivity. Qed.

Lemma addComment_organizers
    (rnd : nat -> string) (cu : option string) (now tournamentId text : string)
    (ts : list Tournament.t) (k : nat) :
  map Tournament.organizerId (fst (addComment rnd cu now tournamentId text ts k))
  = map Tournament.organizerId ts.
Proof.
  unfold addComment. revert k.
  induction ts as [|t ts IH]; intros k; [reflexivity|].
  rewrite mapM_cons. cbn [fst snd map].
  rewrite IH. f_equal.
  destruct (negb (Tournament.id t =? tournamentId)); reflexivity.
Qed.

(** X20. No match update, admin action (whatever its action name and
    payload) or chat comment changes who administers which tournament:
    [isAdmin], evaluated for any user on each stored tournament in turn, gives
    the same answers after the handler as before. *)
Theorem isAdmin_stable
    (rnd : nat -> string) (who : option User.t) (cu : option string)
    (now tournamentId matchId action text : string)
    (u : Update) (payload : Payload) (ts : list Tournament.t) (k : nat) :
  map (isAdmin who) (updateMatch tournamentId matchId u ts) = map (isAdmin who) ts /\
  map (isAdmin who) (adminAction cu now tournamentId action payload ts)
  = map (isAdmin who) ts /\
  map (isAdmin who) (fst (addComment rnd cu now tournamentId text ts k))
  = map (isAdmin who) ts.
Proof.
  assert (H : forall l l' : list Tournament.t,
             map Tournament.organizerId l = map Tournament.organizerId l' ->
             map (isAdmin who) l = map (isAdmin who) l').
  { induction l as [|a l IH]; intros [|b l'] E; try discriminate; [reflexivity|].
    cbn in E. injection E as Eo El. cbn [map]. f_equal; [|now apply IH].
    unfold isAdmin. now rewrite Eo. }
  repeat split; apply H.
  - apply updateMatch_organizers.
  - apply adminAction_organizers.
  - apply addComment_organizers.
Qed.

(** ** Chat *)

Definition carries (tournamentId : string) (t : Tournament.t) : bool :=
  Tournament.id t =? tournamentId.

(** X21. [addComment] appends exactly one comment, carrying the given text,
    the author and the time, at the end of the chat of each stored tournament
    with the given id, and changes nothing else in it; every other tournament
    stays as it is.  One comment id is drawn per tournament carrying the id,
    so for an id nobody carries the collection is returned unchanged and
    nothing is drawn. *)
Theorem addComment_frame
    (rnd : nat -> string) (cu : option string) (now tournamentId text : string)
    (ts : list Tournament.t) (k : nat) :
  Forall2 (fun t t' =>
             if Tournament.id t =? tournamentId then
               exists i, t' = set_chat t (Tournament.chat t ++ [Comment.mk i cu text now])
             else t' = t)
    ts (fst (addComment rnd cu now tournamentId text ts k)) /\
  snd (addComment rnd cu now tournamentId text ts k)
  = k + length (filter (carries tournamentId) ts) /\
  (Forall (fun t => Tournament.id t <> tournamentId) ts ->
   addComment rnd cu now tournamentId text ts k = (ts, k)).
Proof.
  unfold addComment.
  set (f := fun t : Tournament.t =>
              if negb (Tournament.id t =? tournamentId) then ret t
              else i <- uid rnd "c" ;;
                   ret (set_chat t (Tournament.chat t ++ [Comment.mk i cu text now]))).
  assert (Hmain : forall j,
    Forall2 (fun t t' =>
               if Tournament.id t =? tournamentId then
                 exists i, t' = set_chat t (Tournament.chat t ++ [Comment.mk i cu text now])
               else t' = t)
      ts (fst (mapM f ts j)) /\
    snd (mapM f ts j) = j + length (filter (carries tournamentId) ts)).
  { unfold carries. induction ts as [|t ts IH]; intros j.
    - cbn. split; [constructor | lia].
    - rewrite mapM_cons. cbn [fst snd filter].
      destruct (IH (snd (f t j))) as [IH1 IH2]. subst f. cbn beta in *.
      destruct (Tournament.id t =? tournamentId) eqn:E; cbn [negb] in *.
      + split.
        * constructor; [|exact IH1]. rewrite E. unfold bind, ret. cbn [fst]. eauto.
        * rewrite IH2. unfold bind, ret, uid. cbn [fst snd length]. lia.
      + split.
        * constructor; [|exact IH1]. now rewrite E.
        * rewrite IH2. unfold ret. cbn [snd]. reflexivity. }
  split; [apply Hmain | split; [apply Hmain|]].
  intros Hnone. revert k. clear Hmain.
  induction ts as [|t ts IH]; intros j; [reflexivity|].
  inversion Hnone as [|? ? Ht Hts]; subst.
  rewrite mapM_cons. apply String.eqb_neq in Ht.
  assert (Hf : f t j = (t, j)).
  { subst f. cbn beta. rewrite Ht. reflexivity. }
  rewrite Hf. cbn [fst snd]. now rewrite (IH Hts j).
Qed.

(** * Automatic scheduling and the notifier *)

Section Scheduling.

(** [clock i] is what [Date.now()] returns inside the callback for the match
    at index [i]; [iso ms] is [new Date(ms).toISOString()] and [parse s] is
    [new Date(s).getTime()], with [None] for [NaN]. *)
Variable clock : nat -> Z.
Variable iso : Z -> string.
Variable parse : string -> option Z.

(** [t.matches.map((m, i) => ({ ...m, scheduledAt: ... }))] from index [i] on. *)
Fixpoint schedule_from (i : nat) (ms : list Match.t) : list Match.t :=
  match ms with
  | [] => []
  | m :: ms' =>
      set_scheduledAt m (Some (iso (clock i + (Z.of_nat i + 1) * 60 * 60 * 1000)%Z))
        :: schedule_from (S i) ms'
  end.

(** [quickScheduleAll] of the tournament view showing [t]. *)
Definition quickScheduleAll (t : Tournament.t) (ts : list Tournament.t)
    : list Tournament.t :=
  let matches := schedule_from 0 (Tournament.matches t) in
  map (fun tt => if Tournament.id tt =? Tournament.id t
                 then set_matches tt matches else tt) ts.

(** The arguments of one [notify] call. *)
Definition notice (t : Tournament.t) (m : Match.t) (at_ : string) : string * string :=
  ("Upcoming match",
   String.append (Tournament.title t)
     (String.append ": match between "
        (String.append (String.concat " vs " (map Player.name (Match.players m)))
           (String.append " at " at_)))).

Definition check_match (now : Z) (t : Tournament.t) (m : Match.t)
    : list (string * string) :=
  match Match.scheduledAt m with
  | Some s =>
      if truthy (Some s) then
        match parse s with
        | Some then_ =>
            let diff := (then_ - now)%Z in
            if ((diff >? 0) && (diff <=? 60 * 60 * 1000))%Z then [notice t m s] else []
        | None => []
        end
      else []
  | None => []
  end.

(** One tick of the notifier at time [now]: the [notify] calls it makes, in
    order. *)
Definition notifier_tick (now : Z) (tournaments : list Tournament.t)
    : list (string * string) :=
  flat_map (fun t => flat_map (check_match now t) (Tournament.matches t)) tournaments.

Lemma schedule_from_nth (ms : list Match.t) (i j : nat) :
  nth_error (schedule_from i ms) j
  = option_map
      (fun m => set_scheduledAt m
                  (Some (iso (clock (i + j) + (Z.of_nat (i + j) + 1) * 60 * 60 * 1000)%Z)))
      (nth_error ms j).
Proof.
  revert i j. induction ms as [|m ms IH]; intros i [|j]; cbn; try reflexivity.
  - now rewrite Nat.add_0_r.
  - rewrite IH. now replace (S i + j) with (i + S j) by lia.
Qed.

Lemma schedule_from_length (ms : list Match.t) (i : nat) :
  length (schedule_from i ms) = length ms.
Proof. revert i. induction ms; intros i; cbn; auto. Qed.

(** X22. [quickScheduleAll] replaces the flat matches of every stored
    tournament carrying the viewed tournament's id by the matches of the view,
    kept in number and order, the match at index [i] differing from the view's
    only in its scheduled time, which is [i + 1] hours after the clock reading
    taken for it; the structural view and every other field stay as they are,
    and so do the other tournaments. *)
Theorem quickScheduleAll_frame (t : Tournament.t) (ts : list Tournament.t) :
  Forall2 (fun tt tt' =>
             if Tournament.id tt =? Tournament.id t then
               tt' = set_matches tt (Tournament.matches tt') /\
               length (Tournament.matches tt') = length (Tournament.matches t) /\
               forall i m, nth_error (Tournament.matches t) i = Some m ->
                 nth_error (Tournament.matches tt') i
                 = Some (set_scheduledAt m
                           (Some (iso (clock i + (Z.of_nat i + 1) * 3600000)%Z)))
             else tt' = tt)
    ts (quickScheduleAll t ts).
Proof.
  unfold quickScheduleAll. cbn zeta.
  induction ts as [|tt ts IH]; cbn [map]; constructor; [|exact IH].
  destruct (Tournament.id tt =? Tournament.id t); [|reflexivity].
  split; [reflexivity|]. cbn [set_matches Tournament.matches].
  split; [apply schedule_from_length|].
  intros i m Hm. rewrite schedule_from_nth, Hm. cbn [option_map Nat.add].
  do 4 f_equal. lia.
Qed.

Lemma schedule_from_In (ms : list Match.t) (i : nat) (m : Match.t) :
  In m ms ->
  exists a, In (set_scheduledAt m (Some a)) (schedule_from i ms).
Proof.
  revert i. induction ms as [|x ms IH]; intros i Hin; [destruct Hin|].
  destruct Hin as [-> | Hin]; cbn [schedule_from].
  - eexists. left. reflexivity.
  - destruct (IH (S i) Hin) as [a Ha]. exists a. now right.
Qed.

(** X23. Automatic scheduling breaks the agreement of the two views: when the
    viewed tournament is stored and some match id occurs both in its flat list
    and, still unscheduled, in its structural view, the collection
    [quickScheduleAll] leaves behind has a tournament whose views disagree. *)
Theorem quickScheduleAll_views_disagree
    (t : Tournament.t) (ts : list Tournament.t) (m s : Match.t) :
  In t ts ->
  In m (Tournament.matches t) ->
  In s (structural t) ->
  Match.id m = Match.id s ->
  Match.scheduledAt s = None ->
  ~ Forall views_agree (quickScheduleAll t ts).
Proof.
  intros Ht Hm Hs Hid Hnone Hall.
  rewrite Forall_forall in Hall.
  assert (Hin : In (set_matches t (schedule_from 0 (Tournament.matches t)))
                  (quickScheduleAll t ts)).
  { unfold quickScheduleAll. cbn zeta. apply in_map_iff. exists t.
    split; [|exact Ht]. now rewrite String.eqb_refl. }
  destruct (schedule_from_In _ 0 _ Hm) as [a Ha].
  specialize (Hall _ Hin (set_scheduledAt m (Some a)) s Ha Hs Hid).
  destruct Hall as (_ & _ & Hsched & _). cbn in Hsched. congruence.
Qed.

Definition first_notice (t : Tournament.t) (ms : list Match.t) : list (string * string) :=
  match ms with
  | [] => []
  | m :: _ => [notice t m (iso (clock 0 + 3600000)%Z)]
  end.

Hypothesis parse_iso : forall z, parse (iso z) = Some z.
Hypothesis iso_nonempty : forall z, iso z <> "".
Hypothesis clock_monotone : forall i, (clock 0 <= clock i)%Z.

Lemma check_scheduled (now : Z) (t : Tournament.t) (m : Match.t) (z : Z) :
  check_match now t (set_scheduledAt m (Some (iso z)))
  = if ((z - now >? 0) && (z - now <=? 3600000))%Z
    then [notice t m (iso z)] else [].
Proof.
  unfold check_match. cbn [set_scheduledAt Match.scheduledAt truthy].
  destruct (String.eqb_spec (iso z) "") as [E|_]; [now apply iso_nonempty in E|].
  cbn [negb]. rewrite parse_iso. cbn zeta.
  change (60 * 60 * 1000)%Z with 3600000%Z.
  destruct ((z - now >? 0) && (z - now <=? 3600000))%Z; reflexivity.
Qed.

Lemma later_matches_silent (now : Z) (t : Tournament.t) (ms : list Match.t) (i : nat) :
  (now < clock 0 + 3600000)%Z -> 1 <= i ->
  flat_map (check_match now t) (schedule_from i ms) = [].
Proof.
  intros Hnow. revert i. induction ms as [|m ms IH]; intros i Hi; [reflexivity|].
  cbn [schedule_from flat_map]. rewrite check_scheduled, IH by lia.
  pose proof (clock_monotone i) as Hc.
  destruct (Z.gtb_spec (clock i + (Z.of_nat i + 1) * 60 * 60 * 1000 - now) 0);
    destruct (Z.leb_spec (clock i + (Z.of_nat i + 1) * 60 * 60 * 1000 - now) 3600000);
    cbn [andb]; try reflexivity; lia.
Qed.

Lemma scheduled_first_only (now : Z) (t : Tournament.t) (ms : list Match.t) :
  (clock 0 <= now < clock 0 + 3600000)%Z ->
  flat_map (check_match now t) (schedule_from 0 ms) = first_notice t ms.
Proof.
  intros Hnow. destruct ms as [|m ms]; [reflexivity|].
  cbn [schedule_from flat_map first_notice].
  rewrite check_scheduled, later_matches_silent by lia.
  change (clock 0 + (Z.of_nat 0 + 1) * 60 * 60 * 1000)%Z with (clock 0 + 3600000)%Z.
  destruct (Z.gtb_spec (clock 0 + 3600000 - now) 0);
    destruct (Z.leb_spec (clock 0 + 3600000 - now) 3600000);
    cbn [andb]; try reflexivity; lia.
Qed.

End Scheduling.

(** X24. A notifier tick that follows an automatic scheduling by less than an
    hour announces, for each stored tournament that received the schedule,
    the first match of the schedule and no other: every later match lies more
    than an hour ahead.  The other tournaments are announced as before.  This
    holds when dates survive the round trip through their ISO string and the
    clock does not run backwards during the scheduling. *)
Theorem notifier_after_quickScheduleAll
    (clock : nat -> Z) (iso : Z -> string) (parse : string -> option Z)
    (now : Z) (t : Tournament.t) (ts : list Tournament.t) :
  (forall z, parse (iso z) = Some z) ->
  (forall z, iso z <> "") ->
  (forall i, (clock 0%nat <= clock i)%Z) ->
  (clock 0%nat <= now < clock 0%nat + 3600000)%Z ->
  notifier_tick parse now (quickScheduleAll clock iso t ts)
  = flat_map (fun tt =>
                if Tournament.id tt =? Tournament.id t
                then first_notice clock iso tt (Tournament.matches t)
                else notifier_tick parse now [tt]) ts.
Proof.
  intros Hp Hi Hc Hnow. unfold notifier_tick, quickScheduleAll. cbn zeta.
  induction ts as [|tt ts IH]; [reflexivity|].
  cbn [map flat_map]. rewrite IH. f_equal.
  destruct (Tournament.id tt =? Tournament.id t).
  - cbn [set_matches Tournament.matches].
    rewrite <- (scheduled_first_only clock iso parse Hp Hi Hc now tt _ Hnow).
    apply flat_map_ext. intros m. unfold check_match, notice. reflexivity.
  - now rewrite app_nil_r.
Qed.

(** A clock ticking one millisecond per callback, and a date format and
    parser that are inverse to each other, to run the scheduling on. *)
Definition demo_clock (i : nat) : Z := Z.of_nat i.

Definition demo_iso (z : Z) : string :=
  String (if (z <? 0)%Z then "-"%char else "+"%char)
    (string_of_list_ascii (repeat "i"%char (Z.abs_nat z))).

Definition demo_parse (s : string) : option Z :=
  match s with
  | EmptyString => None
  | String c r =>
      Some (if Ascii.eqb c "-" then (- Z.of_nat (String.length r))%Z
            else Z.of_nat (String.length r))
  end.

Lemma length_repeat_string (c : ascii) (n : nat) :
  String.length (string_of_list_ascii (repeat c n)) = n.
Proof. induction n; cbn; congruence. Qed.

Lemma demo_parse_iso (z : Z) : demo_parse (demo_iso z) = Some z.
Proof.
  unfold demo_parse, demo_iso. rewrite length_repeat_string. f_equal.
  destruct (Z.ltb_spec z 0); cbn [Ascii.eqb Bool.eqb]; lia.
Qed.

Lemma demo_iso_nonempty (z : Z) : demo_iso z <> "".
Proof. unfold demo_iso. discriminate. Qed.

Lemma quickScheduleAll_views_disagree_witness :
  ~ Forall views_agree (quickScheduleAll demo_clock demo_iso demo_single_t demo_single).
Proof.
  apply (quickScheduleAll_views_disagree demo_clock demo_iso demo_single_t demo_single
           (with_tournamentId "t_a" demo_match) demo_match).
  - left. reflexivity.
  - left. reflexivity.
  - left. reflexivity.
  - reflexivity.
  - reflexivity.
Defined.

Lemma notifier_after_quickScheduleAll_witness :
  notifier_tick demo_parse 5 (quickScheduleAll demo_clock demo_iso demo_single_t demo_single)
  = flat_map (fun tt =>
                if Tournament.id tt =? Tournament.id demo_single_t
                then first_notice demo_clock demo_iso tt (Tournament.matches demo_single_t)
                else notifier_tick demo_parse 5 [tt]) demo_single.
Proof.
  apply (notifier_after_quickScheduleAll demo_clock demo_iso demo_parse 5
           demo_single_t demo_single).
  - exact demo_parse_iso.
  - exact demo_iso_nonempty.
  - intros i. unfold demo_clock. lia.
  - unfold demo_clock. cbn. lia.
Defined.

(** * The marketplace page: the Get button *)

(** What the handlers read and write of a [.get-button] element. *)
Record Button : Type := mkButton {
  data_disabled : option string;
  textContent : string;
  backgroundColor : string;
  color : string;
  fontWeight : string
}.

(** A button together with the delays of the timers set for it and not yet
    run. *)
Record Page : Type := mkPage {
  button : Button;
  timers : list nat
}.

(** The click listener. *)
Definition on_click (p : Page) : Page :=
  let b := button p in
  if negb (truthy (data_disabled b)) then
    mkPage (mkButton (Some "true") "Installing..." "#3b2857" "#673ab7" (fontWeight b))
      (timers p ++ [2000])
  else p.

(** The callback handed to [setTimeout]. *)
Definition on_timeout (b : Button) : Button :=
  mkButton (data_disabled b) "Installed" "#2e5a2e" "#a2f8a2" "600".

Inductive Event : Type :=
| Click
| Elapse.

(** [Elapse] runs the oldest pending timer, if there is one. *)
Definition handle (p : Page) (e : Event) : Page :=
  match e with
  | Click => on_click p
  | Elapse =>
      match timers p with
      | [] => p
      | _ :: rest => mkPage (on_timeout (button p)) rest
      end
  end.

Definition run (p : Page) (evs : list Event) : Page := fold_left handle evs p.

Definition installing (b : Button) : Page :=
  mkPage (mkButton (Some "true") "Installing..." "#3b2857" "#673ab7" (fontWeight b)) [2000].

Definition installed : Page :=
  mkPage (mkButton (Some "true") "Installed" "#2e5a2e" "#a2f8a2" "600") [].

Definition has_elapse (evs : list Event) : bool :=
  existsb (fun e => match e with Elapse => true | Click => false end) evs.

Lemma run_installed (evs : list Event) : run installed evs = installed.
Proof. induction evs as [|[|] evs IH]; cbn; auto. Qed.

Lemma run_installing (b : Button) (evs : list Event) :
  run (installing b) evs = if has_elapse evs then installed else installing b.
Proof.
  induction evs as [|[|] evs IH]; [reflexivity| |].
  - exact IH.
  - cbn [has_elapse existsb orb]. apply run_installed.
Qed.

(** X25. Once a Get button that is not yet disabled has been clicked, further
    clicks do nothing: whatever clicks and timer expiries follow, exactly one
    installation timer is ever set, the button stays disabled, and it reads
    "Installing..." with that timer pending until the timer has run and
    "Installed" with no timer left from then on. *)
Theorem get_button_installs_once (b : Button) (evs : list Event) :
  truthy (data_disabled b) = false ->
  run (mkPage b []) (Click :: evs)
  = if has_elapse evs then installed else installing b.
Proof.
  intros Hb. cbn [run fold_left handle]. unfold on_click.
  cbn [button timers]. rewrite Hb. cbn [negb app].
  apply run_installing.
Qed.

Definition fresh_button : Button := mkButton None "Get" "" "" "".

Lemma get_button_installs_once_witness :
  run (mkPage fresh_button []) [Click; Click; Elapse; Click]
  = if has_elapse [Click; Elapse; Click] then installed else installing fresh_button.
Proof. apply (get_button_installs_once fresh_button [Click; Elapse; Click]). reflexivity. Defined.
